(** * ckeditor5-engine: addressing utilities, history and the document model

    A shallow embedding of the parts of the engine that the specification
    talks about:

    - [Utils]: [compareArrays] from the utilities module (path comparison);
    - [HistoryModel]: the [History] class ([addOperation], [getDeltas],
      [getTransformedDelta], [_transform]);
    - the document tree, operations, deltas and the tree walker, whose
      classes are only exercised by the test-suites of this snapshot.

    Besides: the other functions of the utilities module ([uid], [nth],
    [count], [objectToMap], [toMap], [mapsEqual], [mix]) in [Utils], over
    the maps and sets of the language in [JS]; the handler of DOM mutations
    in [MutationObserver]; and the observers of a tree view and of a view
    document in [TreeView] and [ViewDocument], where the calls that an
    object makes on its collaborators are a list of effects.

    JavaScript numbers that are versions, offsets and indexes are integers;
    they are modelled as [Z] (versions, path offsets) or [nat] (array
    indexes and lengths).  The numbers of the language are doubles, on which
    a sum of integers is exact up to 2^53: a statement that depends on the
    value of such a sum says that the sum is in that range.  A thrown
    exception is an explicit result. *)

From Equations Require Import Equations.
From Equations.Prop Require Import Logic.
From Stdlib Require Import Ascii.
From stdpp Require Import base option list gmap strings numbers.

Set Warnings "-register-all".

Open Scope Z_scope.

(** ** Exceptions *)

(** The two kinds of exception the modelled code can raise: a native
    [TypeError] (reading a property of [undefined]) and the engine's own
    [CKEditorError], whose message starts with an error name. *)
Inductive Error :=
| TypeError
| CKEditorError (name : string).

#[global] Instance Error_eq_dec : EqDecision Error.
Proof. solve_decision. Defined.

(** The result of running a piece of code: it returns or it throws. *)
Inductive completion (A : Type) :=
| Return (a : A)
| Throw (e : Error).
Arguments Return {A} a.
Arguments Throw {A} e.

Definition bind {A B} (c : completion A) (k : A → completion B) : completion B :=
  match c with
  | Return a => k a
  | Throw e => Throw e
  end.

(** ** JavaScript maps and sets *)

Module JS.

(** A [Map] keeps one entry for each key, in the order in which the keys
    were first set. *)
Section JSMap.
Context {K : Type} `{!EqDecision K} {V : Type}.

Definition JSMap : Type := list (K * V).

(** [map.get( key )]; [None] stands for [undefined]. *)
Fixpoint Map_get (map : JSMap) (key : K) : option V :=
  match map with
  | [] => None
  | (k, v) :: map' => if decide (k = key) then Some v else Map_get map' key
  end.

(** [map.set( key, value )]: the value of an existing key is replaced in
    place, a new key is added at the end. *)
Fixpoint Map_set (map : JSMap) (key : K) (value : V) : JSMap :=
  match map with
  | [] => [(key, value)]
  | (k, v) :: map' =>
      if decide (k = key) then (k, value) :: map'
      else (k, v) :: Map_set map' key value
  end.

(** [map.size] *)
Definition Map_size (map : JSMap) : nat := length map.

(** [map.values()] *)
Definition Map_values (map : JSMap) : list V := map.*2.

(** [new Map( iterable )]: the entries are set one after the other. *)
Definition new_Map (iterable : list (K * V)) : JSMap :=
  foldl (λ map '(key, value), Map_set map key value) [] iterable.

Lemma Map_get_Some (map : JSMap) key value :
  Map_get map key = Some value → (key, value) ∈ map.
Proof.
  induction map as [|[k v] map IH]; simpl; [done|].
  case_decide as Hk.
  - intros [= ->]. subst k. by left.
  - intros Hg. right. by apply IH.
Qed.

Lemma Map_get_is_Some (map : JSMap) key :
  is_Some (Map_get map key) ↔ key ∈ map.*1.
Proof.
  induction map as [|[k v] map IH]; simpl.
  - split; [by intros [? ?]|by intros ?%elem_of_nil].
  - case_decide as Hk.
    + subst k. split; [intros _; by left|eauto].
    + rewrite IH, elem_of_cons. split; [by right|]. by intros [->|?].
Qed.

Lemma Map_get_NoDup (map : JSMap) key value :
  NoDup map.*1 → (key, value) ∈ map → Map_get map key = Some value.
Proof.
  induction map as [|[k v] map IH]; simpl; [by intros _ ?%elem_of_nil|].
  intros [Hk Hnd]%list.NoDup_cons [Heq|Hin]%elem_of_cons.
  - injection Heq as -> ->. by rewrite decide_True.
  - case_decide as Hkk; [|by apply IH]. subst k. destruct Hk.
    apply list_elem_of_fmap. by exists (key, value).
Qed.

Lemma Map_set_fresh (map : JSMap) key value :
  key ∉ map.*1 → Map_set map key value = map ++ [(key, value)].
Proof.
  induction map as [|[k v] map IH]; simpl; [done|].
  intros Hnin. rewrite decide_False.
  - rewrite IH; [done|]. intros ?. apply Hnin. by right.
  - intros ->. apply Hnin. by left.
Qed.

Lemma Map_get_set (map : JSMap) key value key' :
  Map_get (Map_set map key value) key'
  = if decide (key = key') then Some value else Map_get map key'.
Proof.
  induction map as [|[k v] map IH]; simpl.
  - done.
  - destruct (decide (k = key)) as [->|Hk]; simpl.
    + by destruct (decide (key = key')).
    + rewrite IH. destruct (decide (k = key')) as [->|]; [|done].
      by destruct (decide (key = key')) as [->|].
Qed.

Lemma Map_set_keys_old (map : JSMap) key value :
  key ∈ map.*1 → (Map_set map key value).*1 = map.*1.
Proof.
  induction map as [|[k v] map IH]; [by intros ?%elem_of_nil|].
  cbn [Map_set]. destruct (decide (k = key)) as [->|Hk]; [done|].
  intros [?|Hin]%elem_of_cons; [by destruct Hk|].
  cbn [fmap list_fmap]. f_equal. by apply IH.
Qed.

Lemma Map_set_keys_new (map : JSMap) key value :
  key ∉ map.*1 → (Map_set map key value).*1 = map.*1 ++ [key].
Proof. intros Hnin. by rewrite Map_set_fresh, fmap_app. Qed.

Lemma Map_set_NoDup (map : JSMap) key value :
  NoDup map.*1 → NoDup (Map_set map key value).*1.
Proof.
  intros Hnd. destruct (decide (key ∈ map.*1)) as [Hin|Hnin].
  - by rewrite Map_set_keys_old.
  - rewrite Map_set_keys_new by done.
    apply list.NoDup_app. split; [done|]. split.
    + intros x Hx ->%list_elem_of_singleton. done.
    + apply NoDup_singleton.
Qed.

Lemma Map_set_elem_of_keys (map : JSMap) key value x :
  x ∈ (Map_set map key value).*1 ↔ x ∈ map.*1 ∨ x = key.
Proof.
  destruct (decide (key ∈ map.*1)) as [Hin|Hnin].
  - rewrite Map_set_keys_old by done. split; [by left|]. by intros [?| ->].
  - rewrite Map_set_keys_new by done.
    by rewrite elem_of_app, list_elem_of_singleton.
Qed.

Lemma new_Map_NoDup_from (iterable map : list (K * V)) :
  NoDup (map ++ iterable).*1 →
  foldl (λ map '(key, value), Map_set map key value) map iterable
  = map ++ iterable.
Proof.
  revert map. induction iterable as [|[k v] l IH]; intros map Hnd; simpl.
  - by rewrite app_nil_r.
  - rewrite Map_set_fresh.
    + rewrite IH; rewrite <- app_assoc; done.
    + rewrite fmap_app in Hnd. apply list.NoDup_app in Hnd as (_ & Hdisj & _).
      intros Hin. apply (Hdisj _ Hin). by left.
Qed.

Lemma new_Map_NoDup (iterable : list (K * V)) :
  NoDup iterable.*1 → new_Map iterable = iterable.
Proof. intros Hnd. by apply (new_Map_NoDup_from iterable []). Qed.

End JSMap.
Arguments JSMap : clear implicits.

(** A [Set] keeps its values in the order in which they were first added. *)
Section JSSet.
Context {A : Type} `{!EqDecision A}.

Definition JSSet : Type := list A.

(** [set.has( value )] *)
Definition Set_has (set : JSSet) (value : A) : bool :=
  bool_decide (value ∈ set).

(** [set.add( value )] *)
Definition Set_add (set : JSSet) (value : A) : JSSet :=
  if Set_has set value then set else set ++ [value].

Lemma Set_add_elem_of (set : JSSet) value x :
  x ∈ Set_add set value ↔ x ∈ set ∨ x = value.
Proof.
  unfold Set_add, Set_has. case_bool_decide as Hin.
  - split; [by left|]. by intros [?| ->].
  - by rewrite elem_of_app, list_elem_of_singleton.
Qed.

Lemma Set_add_NoDup (set : JSSet) value : NoDup set → NoDup (Set_add set value).
Proof.
  intros Hnd. unfold Set_add, Set_has. case_bool_decide as Hin; [done|].
  apply list.NoDup_app. split; [done|]. split.
  - intros x Hx ->%list_elem_of_singleton. done.
  - apply NoDup_singleton.
Qed.

End JSSet.
Arguments JSSet : clear implicits.

End JS.

(** ** utils.compareArrays *)

Module Utils.

(** [utils.ArrayRelation]: ['SAME'], ['PREFIX'], ['EXTENSION'] or the index
    at which the arrays differ. *)
Inductive ArrayRelation :=
| SAME
| PREFIX
| EXTENSION
| DIFFER (i : nat).

#[global] Instance ArrayRelation_eq_dec : EqDecision ArrayRelation.
Proof. solve_decision. Defined.

(** The arrays that are compared hold values of one type (the offsets of a
    path), on which [!=] is decidable inequality. *)
Section compareArrays.
Context {A : Type} `{!EqDecision A}.

(** The loop [for ( let i = 0; i < minLen; i++ ) if ( a[ i ] != b[ i ] ) return i;]
    entered at index [i] with [n = minLen - i] iterations left.  [None] means
    that the loop ran to its end without returning. *)
Fixpoint compareArrays_loop (a b : list A) (i n : nat) : option nat :=
  match n with
  | O => None
  | S n' =>
      if bool_decide (a !! i ≠ b !! i) then Some i
      else compareArrays_loop a b (S i) n'
  end.

Definition compareArrays (a b : list A) : ArrayRelation :=
  let minLen := Nat.min (length a) (length b) in
  match compareArrays_loop a b 0 minLen with
  | Some i => DIFFER i
  | None =>
      if decide (length a = length b) then SAME
      else if decide (length a < length b)%nat then PREFIX
      else EXTENSION
  end.

(** [a] is a proper prefix of [b]. *)
Definition proper_prefix (a b : list A) : Prop := ∃ k, k ≠ [] ∧ b = a ++ k.

(** [i] is the smallest index at which both arrays have an element and the
    elements differ. *)
Definition first_difference (a b : list A) (i : nat) : Prop :=
  (∃ x y, a !! i = Some x ∧ b !! i = Some y ∧ x ≠ y) ∧
  ∀ j, (j < i)%nat → a !! j = b !! j.

Lemma compareArrays_loop_Some a b i n r :
  compareArrays_loop a b i n = Some r →
  (i ≤ r < i + n)%nat ∧ a !! r ≠ b !! r ∧
  ∀ j, (i ≤ j < r)%nat → a !! j = b !! j.
Proof.
  revert i. induction n as [|n IH]; intros i; simpl; [done|].
  case_bool_decide as Hd.
  - intros [= <-]. split; [lia|]. split; [done|]. intros j ?; lia.
  - intros Hr. destruct (IH _ Hr) as (Hb & Hne & Hlt).
    split; [lia|]. split; [done|]. intros j Hj.
    destruct (decide (j = i)) as [->|].
    + destruct (decide (a !! i = b !! i)); [done|]. by destruct Hd.
    + apply Hlt. lia.
Qed.

Lemma compareArrays_loop_None a b i n :
  compareArrays_loop a b i n = None →
  ∀ j, (i ≤ j < i + n)%nat → a !! j = b !! j.
Proof.
  revert i. induction n as [|n IH]; intros i; simpl; [intros _ j ?; lia|].
  case_bool_decide as Hd; [done|]. intros Hr j Hj.
  destruct (decide (j = i)) as [->|].
  - destruct (decide (a !! i = b !! i)); [done|]. by destruct Hd.
  - apply (IH _ Hr). lia.
Qed.

Lemma agree_below_take (a b : list A) n :
  (n ≤ length a)%nat → (n ≤ length b)%nat →
  (∀ j, (j < n)%nat → a !! j = b !! j) → take n a = take n b.
Proof.
  intros Ha Hb H. apply list_eq. intros j.
  destruct (decide (j < n)%nat).
  - rewrite !lookup_take_lt by done. by apply H.
  - rewrite !lookup_take_ge by lia. done.
Qed.

Lemma first_difference_unique a b i j :
  first_difference a b i → first_difference a b j → i = j.
Proof.
  intros [(x & y & Hx & Hy & Hxy) Hi] [(x' & y' & Hx' & Hy' & Hxy') Hj].
  destruct (lt_eq_lt_dec i j) as [[Hlt| ->]|Hlt]; [|done|].
  - specialize (Hj _ Hlt). congruence.
  - specialize (Hi _ Hlt). congruence.
Qed.

Lemma proper_prefix_length a b : proper_prefix a b → (length a < length b)%nat.
Proof.
  intros (k & Hk & ->). rewrite length_app.
  destruct k; [done|]. simpl. lia.
Qed.

Lemma proper_prefix_lookup a b j :
  proper_prefix a b → (j < length a)%nat → a !! j = b !! j.
Proof. intros (k & _ & ->) Hj. by rewrite lookup_app_l. Qed.

Lemma agree_shorter_prefix (a b : list A) :
  (length a < length b)%nat →
  (∀ j, (j < length a)%nat → a !! j = b !! j) → proper_prefix a b.
Proof.
  intros Hlen Hagree. exists (drop (length a) b). split.
  - intros Hnil. apply (f_equal length) in Hnil.
    rewrite length_drop in Hnil. simpl in Hnil. lia.
  - rewrite <- (take_drop (length a) b) at 1. f_equal.
    rewrite <- (agree_below_take a b (length a)); [|lia|lia|done].
    by rewrite firstn_all.
Qed.

(** C8 — [compareArrays a b] is ['SAME'] exactly when the two paths are
    equal, ['PREFIX'] exactly when [a] is a proper prefix of [b],
    ['EXTENSION'] exactly when [b] is a proper prefix of [a], and otherwise
    the smallest index at which the two paths differ. *)
Theorem compareArrays_spec (a b : list A) :
  (compareArrays a b = SAME ↔ a = b) ∧
  (compareArrays a b = PREFIX ↔ proper_prefix a b) ∧
  (compareArrays a b = EXTENSION ↔ proper_prefix b a) ∧
  (∀ i, compareArrays a b = DIFFER i ↔ first_difference a b i).
Proof.
  unfold compareArrays.
  destruct (compareArrays_loop a b 0 (length a `min` length b)) as [r|] eqn:Hloop.
  - apply compareArrays_loop_Some in Hloop as (Hr & Hne & Hagree).
    assert (first_difference a b r) as Hfd.
    { split; [|intros j ?; apply Hagree; lia].
      destruct (lookup_lt_is_Some_2 a r) as [x Hx]; [lia|].
      destruct (lookup_lt_is_Some_2 b r) as [y Hy]; [lia|].
      exists x, y. repeat split; [done..|]. congruence. }
    split; [|split; [|split]].
    + split; [done|]. intros ->. done.
    + split; [done|]. intros Hp. destruct Hne.
      apply proper_prefix_lookup; [done|lia].
    + split; [done|]. intros Hp. destruct Hne. symmetry.
      apply proper_prefix_lookup; [done|lia].
    + intros i. split; [by intros [= <-]|].
      intros Hi. f_equal. by apply (first_difference_unique a b).
  - pose proof (compareArrays_loop_None _ _ _ _ Hloop) as Hagree.
    assert (∀ i, ¬ first_difference a b i) as Hnofd.
    { intros i [(x & y & Hx & Hy & Hxy) _].
      apply lookup_lt_Some in Hx as Hlx. apply lookup_lt_Some in Hy as Hly.
      rewrite Hagree in Hx by lia. congruence. }
    destruct (decide (length a = length b)) as [Heq|Hneq].
    + assert (a = b) as ->.
      { rewrite <- (firstn_all a), <- (firstn_all b).
        rewrite Heq. apply agree_below_take; [lia|lia|].
        intros j ?. apply Hagree. lia. }
      split; [|split; [|split]].
      * done.
      * split; [done|]. intros Hp%proper_prefix_length. lia.
      * split; [done|]. intros Hp%proper_prefix_length. lia.
      * intros i. split; [done|]. intros Hfd. by destruct (Hnofd i).
    + destruct (decide (length a < length b)%nat) as [Hlt|Hge].
      * split; [|split; [|split]].
        -- split; [done|]. intros ->. done.
        -- split; [|done]. intros _. apply agree_shorter_prefix; [done|].
           intros j ?. apply Hagree. lia.
        -- split; [done|]. intros Hp%proper_prefix_length. lia.
        -- intros i. split; [done|]. intros Hfd. by destruct (Hnofd i).
      * split; [|split; [|split]].
        -- split; [done|]. intros ->. done.
        -- split; [done|]. intros Hp%proper_prefix_length. lia.
        -- split; [|done]. intros _. apply agree_shorter_prefix; [lia|].
           intros j ?. symmetry. apply Hagree. lia.
        -- intros i. split; [done|]. intros Hfd. by destruct (Hnofd i).
Qed.

End compareArrays.

(** The examples of the documentation comment. *)
Example compareArrays_doc_same : compareArrays [0; 2] [0; 2] = SAME.
Proof. reflexivity. Qed.
Example compareArrays_doc_prefix : compareArrays [0; 2] [0; 2; 1] = PREFIX.
Proof. reflexivity. Qed.
Example compareArrays_doc_extension : compareArrays [0; 2] [0] = EXTENSION.
Proof. reflexivity. Qed.
Example compareArrays_doc_differ0 : compareArrays [0; 2] [1; 2] = DIFFER 0.
Proof. reflexivity. Qed.
Example compareArrays_doc_differ1 : compareArrays [0; 2] [0; 1] = DIFFER 1.
Proof. reflexivity. Qed.

Import JS.

(** *** compareArrays: the relation read both ways, and common prefixes *)

Section compareArrays_relations.
Context {A : Type} `{!EqDecision A}.

(** The relation of [b] to [a], given the relation of [a] to [b]. *)
Definition converse (r : ArrayRelation) : ArrayRelation :=
  match r with
  | SAME => SAME
  | PREFIX => EXTENSION
  | EXTENSION => PREFIX
  | DIFFER i => DIFFER i
  end.

(** A relation of two arrays, read behind [k] common leading elements. *)
Definition shift (k : nat) (r : ArrayRelation) : ArrayRelation :=
  match r with
  | DIFFER i => DIFFER (k + i)
  | _ => r
  end.

Lemma compareArrays_loop_sym (a b : list A) i n :
  compareArrays_loop b a i n = compareArrays_loop a b i n.
Proof.
  revert i. induction n as [|n IH]; intros i; simpl; [done|].
  rewrite IH. repeat case_bool_decide; congruence.
Qed.

Lemma compareArrays_loop_cons (x : A) (a b : list A) i n :
  compareArrays_loop (x :: a) (x :: b) (S i) n
  = S <$> compareArrays_loop a b i n.
Proof.
  revert i. induction n as [|n IH]; intros i; simpl; [done|].
  rewrite IH. by case_bool_decide.
Qed.

Lemma compareArrays_cons (x : A) (a b : list A) :
  compareArrays (x :: a) (x :: b) = shift 1 (compareArrays a b).
Proof.
  unfold compareArrays. simpl length. rewrite <- Nat.succ_min_distr.
  cbn [compareArrays_loop]. rewrite bool_decide_false by (simpl; naive_solver).
  rewrite compareArrays_loop_cons.
  destruct (compareArrays_loop a b 0 _); simpl; [done|].
  repeat case_decide; simpl; try done; lia.
Qed.

(** X1 — [compareArrays( b, a )] is the converse of [compareArrays( a, b )]:
    ['SAME'] and an index of difference are kept, ['PREFIX'] and
    ['EXTENSION'] are exchanged. *)
Theorem compareArrays_converse (a b : list A) :
  compareArrays b a = converse (compareArrays a b).
Proof.
  unfold compareArrays. rewrite Nat.min_comm, compareArrays_loop_sym.
  destruct (compareArrays_loop a b 0 _); [done|].
  repeat case_decide; simpl; try done; lia.
Qed.

(** X2 — leading elements that two arrays share do not change how they
    relate: the relation of [p ++ a] to [p ++ b] is that of [a] to [b], with
    an index of difference moved by the length of [p]. *)
Theorem compareArrays_common_prefix (p a b : list A) :
  compareArrays (p ++ a) (p ++ b) = shift (length p) (compareArrays a b).
Proof.
  induction p as [|x p IH]; simpl.
  - by destruct (compareArrays a b).
  - rewrite compareArrays_cons, IH. by destruct (compareArrays a b).
Qed.

End compareArrays_relations.

(** *** utils.uid *)

(** [next++] on the counter of the closure.  [next] is a JavaScript number
    (a double) that holds an integer: adding 1 is exact below [2^53], and
    [2^53 + 1] is rounded back to [2^53]. *)
Definition increment (next : Z) : Z :=
  if decide (next < 2 ^ 53) then next + 1 else next.

(** One call of [uid()] with the counter at [next]: the id that is returned
    and the counter after the call. *)
Definition uid (next : Z) : Z * Z := (next, increment next).

(** [let next = 1] *)
Definition uid_next : Z := 1.

(** The ids that [n] successive calls return, and the counter after them. *)
Fixpoint uid_calls (n : nat) (next : Z) : list Z * Z :=
  match n with
  | O => ([], next)
  | S n' =>
      let '(id, next') := uid next in
      let '(ids, next'') := uid_calls n' next' in
      (id :: ids, next'')
  end.

Lemma uid_calls_from (n : nat) (next : Z) :
  1 ≤ next ≤ 2 ^ 53 →
  uid_calls n next
  = ((λ k, Z.min (2 ^ 53) (next + Z.of_nat k)) <$> seq 0 n,
     Z.min (2 ^ 53) (next + Z.of_nat n)).
Proof.
  revert next. induction n as [|n IH]; intros next Hnext.
  - simpl. f_equal. lia.
  - cbn [uid_calls uid]. rewrite IH.
    2:{ unfold increment. case_decide; lia. }
    cbn [seq fmap list_fmap]. f_equal.
    + f_equal; [lia|]. rewrite <- seq_shift, <- list_fmap_compose.
      apply list_fmap_ext. intros _ k _. simpl. unfold increment.
      case_decide; lia.
    + unfold increment. case_decide; lia.
Qed.

(** X3 — the call number [k] of [uid()] (counted from 1) returns [k] as long
    as [k] is at most [2^53], and [2^53] from then on: the ids of the first
    [2^53] calls are pairwise distinct, and every later call repeats the id
    [2^53]. *)
Theorem uid_ids (n : nat) :
  (uid_calls n uid_next).1 = (λ k, Z.min (2 ^ 53) (Z.of_nat k)) <$> seq 1 n.
Proof.
  rewrite uid_calls_from by (unfold uid_next; lia). simpl.
  rewrite <- seq_shift, <- list_fmap_compose.
  apply list_fmap_ext. intros _ k _. simpl. unfold uid_next. lia.
Qed.

(** *** utils.nth and utils.count *)

(** [nth( index, iterable )] on an iterable that yields the items of a list.
    [index] is an integer, on which [index -= 1] is exact up to [2^53];
    [None] stands for [null]. *)
Fixpoint nth {A} (index : Z) (iterable : list A) : option A :=
  match iterable with
  | [] => None
  | item :: iterable' =>
      if decide (index = 0) then Some item else nth (index - 1) iterable'
  end.

(** [count( iterator )] *)
Definition count {A} (iterator : list A) : nat :=
  foldl (λ count _, S count) O iterator.

Lemma count_from {A} (iterator : list A) (c : nat) :
  foldl (λ count _, S count) c iterator = (c + length iterator)%nat.
Proof.
  revert c. induction iterator as [|x l IH]; intros c; simpl; [lia|].
  rewrite IH. lia.
Qed.

Lemma count_length {A} (iterator : list A) : count iterator = length iterator.
Proof. unfold count. by rewrite count_from. Qed.

(** X4 — for an integer [index] of at most [2^53], [nth( index, iterable )]
    is the item at [index] when [0 <= index < count( iterable )]; for every
    other index, negative ones included, the whole iterable is consumed
    and the result is [null]. *)
Theorem nth_spec {A} (index : Z) (iterable : list A) :
  index ≤ 2 ^ 53 →
  nth index iterable =
    if decide (0 ≤ index < Z.of_nat (count iterable))
    then iterable !! Z.to_nat index
    else None.
Proof.
  intros _. rewrite count_length. revert index.
  induction iterable as [|item l IH]; intros index; simpl.
  - by case_decide.
  - case_decide as H0.
    + subst index. rewrite decide_True by lia. done.
    + rewrite IH. repeat case_decide; try lia; try done.
      replace (Z.to_nat index) with (S (Z.to_nat (index - 1))) by lia. done.
Qed.

(** The example of the documentation comment. *)
Example count_doc : count [1; 2; 3; 4; 5] = 5%nat.
Proof. reflexivity. Qed.

Lemma nth_spec_sample :
  nth 1 ["a"; "b"; "c"] = Some "b" ∧ nth 3 ["a"; "b"; "c"] = None
  ∧ nth (-1) ["a"; "b"; "c"] = None.
Proof.
  split; [apply (nth_spec 1 ["a"; "b"; "c"]); lia|].
  split; [apply (nth_spec 3 ["a"; "b"; "c"]); lia|].
  apply (nth_spec (-1) ["a"; "b"; "c"]). lia.
Defined.

(** *** utils.objectToMap and utils.toMap *)

Section toMap.
Context {V : Type}.

(** An object, as far as [for ( let key in obj )] and [obj[ key ]] go: its
    enumerable properties with their values, in the order of enumeration.
    A property name occurs once. *)
Definition JSObject : Type := list (string * V).

(** [obj[ key ]] *)
Definition Object_get (obj : JSObject) (key : string) : option V :=
  Map_get obj key.

(** [objectToMap( obj )] *)
Definition objectToMap (obj : JSObject) : JSMap string V :=
  foldl (λ map '(key, value), Map_set map key value) [] obj.

(** The data that [toMap] takes: a plain object, or an iterable of
    [[ key, value ]] pairs (an array of pairs, or another [Map]). *)
Inductive MapData :=
| PlainObject (obj : JSObject)
| Iterable (entries : list (string * V)).

(** [toMap( data )] *)
Definition toMap (data : MapData) : JSMap string V :=
  match data with
  | PlainObject obj => objectToMap obj
  | Iterable entries => new_Map entries
  end.

(** X5 — [toMap] of a plain object, and of the array of its [[ key, value ]]
    pairs, is the map that holds one entry for each property of the object,
    in the order of enumeration: its size is the number of properties and
    [get( key )] is [obj[ key ]], [undefined] for a key that the object does
    not have.  [toMap] of that map is the map again. *)
Theorem toMap_object (obj : JSObject) :
  NoDup obj.*1 →
  toMap (PlainObject obj) = obj ∧
  toMap (Iterable obj) = obj ∧
  toMap (Iterable (toMap (PlainObject obj))) = toMap (PlainObject obj) ∧
  Map_size (toMap (PlainObject obj)) = length obj ∧
  ∀ key, Map_get (toMap (PlainObject obj)) key = Object_get obj key.
Proof.
  intros Hnd. simpl.
  assert (objectToMap obj = obj) as -> by apply (new_Map_NoDup obj Hnd).
  by rewrite (new_Map_NoDup obj Hnd).
Qed.

End toMap.
Arguments JSObject : clear implicits.
Arguments MapData : clear implicits.

(** The examples of the documentation comments. *)
Lemma toMap_doc :
  NoDup [("foo", 1); ("bar", 2)].*1 ∧
  toMap (PlainObject [("foo", 1); ("bar", 2)]) = [("foo", 1); ("bar", 2)] ∧
  toMap (Iterable [("foo", 1); ("bar", 2)]) = [("foo", 1); ("bar", 2)] ∧
  toMap (Iterable (toMap (PlainObject [("foo", 1); ("bar", 2)])))
    = toMap (PlainObject [("foo", 1); ("bar", 2)]) ∧
  Map_size (toMap (PlainObject [("foo", 1); ("bar", 2)])) = 2%nat ∧
  ∀ key, Map_get (toMap (PlainObject [("foo", 1); ("bar", 2)])) key
         = Object_get [("foo", 1); ("bar", 2)] key.
Proof.
  assert (NoDup [("foo", 1); ("bar", 2)].*1) as Hnd.
  { apply (bool_decide_unpack _). vm_compute. exact I. }
  split; [exact Hnd|].
  exact (toMap_object [("foo", 1); ("bar", 2)] Hnd).
Defined.

(** *** utils.mapsEqual *)

Section mapsEqual.
Context {K : Type} `{!EqDecision K}.

(** The values of the maps are JavaScript values, [undefined] among them.
    [JSON.stringify( value )] returns a string, or [undefined] (for
    [undefined], a function or a symbol), or it throws (a cyclic value). *)
Variable Value : Type.
Variable undefined : Value.
Variable JSON_stringify : Value → completion (option string).

(** The loop [for ( let attr of mapA.entries() )]. *)
Fixpoint mapsEqual_loop (entries : list (K * Value)) (mapB : JSMap K Value)
  : completion bool :=
  match entries with
  | [] => Return true
  | attr :: entries' =>
      bind (JSON_stringify attr.2) (λ valA,
      bind (JSON_stringify (default undefined (Map_get mapB attr.1))) (λ valB,
      if decide (valA ≠ valB) then Return false
      else mapsEqual_loop entries' mapB))
  end.

(** [mapsEqual( mapA, mapB )] *)
Definition mapsEqual (mapA mapB : JSMap K Value) : completion bool :=
  if decide (Map_size mapA ≠ Map_size mapB) then Return false
  else mapsEqual_loop mapA mapB.

(** Both maps have the same keys, with values that have the same JSON
    text. *)
Definition same_entries (mapA mapB : JSMap K Value) : Prop :=
  (∀ key, is_Some (Map_get mapA key) ↔ is_Some (Map_get mapB key)) ∧
  (∀ key valueA valueB,
     Map_get mapA key = Some valueA → Map_get mapB key = Some valueB →
     JSON_stringify valueA = JSON_stringify valueB).

Lemma mapsEqual_loop_returns (entries : list (K * Value)) (mapB : JSMap K Value) :
  JSON_stringify undefined = Return None →
  (∀ key value, (key, value) ∈ entries →
     ∃ text, JSON_stringify value = Return (Some text)) →
  (∀ key value, (key, value) ∈ mapB → ∃ r, JSON_stringify value = Return r) →
  ∃ b, mapsEqual_loop entries mapB = Return b ∧
       (b = true ↔
        ∀ key value, (key, value) ∈ entries →
          ∃ valueB, Map_get mapB key = Some valueB ∧
                    JSON_stringify value = JSON_stringify valueB).
Proof.
  intros Hundef HA HB.
  induction entries as [|[k v] entries IH]; simpl.
  - exists true. split; [done|]. split; [|done].
    intros _ key value Hin. by apply elem_of_nil in Hin.
  - destruct (HA k v) as [text Htext]; [by left|]. rewrite Htext. simpl.
    destruct IH as (b & Hb & Hiff).
    { intros key value Hin. apply (HA key value). by right. }
    destruct (Map_get mapB k) as [vB|] eqn:HgB; simpl.
    + destruct (HB k vB (Map_get_Some _ _ _ HgB)) as [r Hr]. rewrite Hr. simpl.
      case_decide as Hne.
      * exists false. split; [done|]. split; [done|]. intros Hall.
        destruct (Hall k v) as (vB' & HvB' & Heq); [by left|].
        rewrite HgB in HvB'. injection HvB' as <-. congruence.
      * exists b. split; [done|]. rewrite Hiff. split.
        -- intros Hall key value [[= -> ->]|Hin]%elem_of_cons; [|by apply Hall].
           exists vB. split; [done|]. rewrite Htext, Hr. f_equal.
           by destruct (decide (Some text = r)).
        -- intros Hall key value Hin. apply Hall. by right.
    + rewrite Hundef. simpl.
      exists false. split; [done|]. split; [done|]. intros Hall.
      destruct (Hall k v) as (vB' & HvB' & _); [by left|]. congruence.
Qed.

(** X6 — when the values of [mapA] have a JSON text (none of them is
    [undefined], a function or a cyclic value) and [JSON.stringify] returns
    on the values of [mapB], [mapsEqual( mapA, mapB )] returns, and it
    returns [true] exactly when both maps have the same keys, with values
    that have the same JSON text. *)
Theorem mapsEqual_spec (mapA mapB : JSMap K Value) :
  NoDup mapA.*1 → NoDup mapB.*1 →
  JSON_stringify undefined = Return None →
  (∀ key value, (key, value) ∈ mapA →
     ∃ text, JSON_stringify value = Return (Some text)) →
  (∀ key value, (key, value) ∈ mapB → ∃ r, JSON_stringify value = Return r) →
  ∃ b, mapsEqual mapA mapB = Return b ∧ (b = true ↔ same_entries mapA mapB).
Proof.
  intros HndA HndB Hundef HA HB. unfold mapsEqual, Map_size.
  destruct (mapsEqual_loop_returns mapA mapB Hundef HA HB) as (b & Hb & Hiff).
  case_decide as Hsize.
  - exists false. split; [done|]. split; [done|]. intros [Hkeys _].
    destruct Hsize. rewrite <- (length_fmap fst mapA), <- (length_fmap fst mapB).
    apply Permutation_length, NoDup_Permutation; [done..|].
    intros key. by rewrite <- !Map_get_is_Some.
  - exists b. split; [done|]. rewrite Hiff. split.
    + intros Hall.
      assert (∀ key, key ∈ mapA.*1 → key ∈ mapB.*1) as Hsub.
      { intros key [[k v] [-> Hin]]%list_elem_of_fmap.
        destruct (Hall _ _ Hin) as (vB & HvB & _).
        apply Map_get_is_Some. simpl. by rewrite HvB. }
      assert (mapA.*1 ≡ₚ mapB.*1) as Hperm.
      { apply submseteq_length_Permutation.
        - by apply NoDup_submseteq.
        - rewrite !length_fmap. lia. }
      split.
      * intros key. rewrite !Map_get_is_Some. by rewrite Hperm.
      * intros key vA vB HgA HgB.
        destruct (Hall _ _ (Map_get_Some _ _ _ HgA)) as (vB' & HvB' & Heq).
        congruence.
    + intros [Hkeys Hvals] key value Hin.
      pose proof (Map_get_NoDup _ _ _ HndA Hin) as HgA.
      destruct (proj1 (Hkeys key)) as [vB HvB]; [by rewrite HgA|].
      exists vB. split; [done|]. by eapply Hvals.
Qed.

(** X7 — [mapsEqual] is not symmetric, and it can tell maps with different
    keys to be equal: a map whose only value is [undefined] equals every
    map of one entry under another key, but not the other way round when
    the value of that entry has a JSON text. *)
Theorem mapsEqual_undefined_value (key key' : K) (value : Value) (text : string) :
  key ≠ key' →
  JSON_stringify undefined = Return None →
  JSON_stringify value = Return (Some text) →
  mapsEqual (Map_set [] key undefined) (Map_set [] key' value) = Return true ∧
  mapsEqual (Map_set [] key' value) (Map_set [] key undefined) = Return false.
Proof.
  intros Hne Hundef Hvalue. unfold mapsEqual. simpl.
  destruct (decide (key' = key)) as [Heq|_]; [by destruct Hne|].
  destruct (decide (key = key')) as [Heq|_]; [by destruct Hne|].
  simpl. rewrite Hundef, Hvalue. simpl. by split.
Qed.

End mapsEqual.

(** Attributes whose values are strings, [None] for [undefined]: the JSON
    text of a string is the string in quotes. *)
Definition stringify_string (value : option string) : completion (option string) :=
  Return ((λ s, String.append (String (ascii_of_nat 34) s)
                  (String (ascii_of_nat 34) EmptyString)) <$> value).

Lemma mapsEqual_spec_bold :
  ∃ b, mapsEqual (option string) None stringify_string
         [("bold", Some "true")] [("bold", Some "true")] = Return b
       ∧ (b = true ↔ same_entries (option string) stringify_string
                       [("bold", Some "true")] [("bold", Some "true")]).
Proof.
  apply (mapsEqual_spec (option string) None stringify_string
           [("bold", Some "true")] [("bold", Some "true")]).
  - apply (bool_decide_unpack _). vm_compute. exact I.
  - apply (bool_decide_unpack _). vm_compute. exact I.
  - reflexivity.
  - intros key value Hin. apply list_elem_of_singleton in Hin.
    injection Hin as -> ->. eexists. reflexivity.
  - intros key value Hin. eexists. reflexivity.
Defined.

Lemma mapsEqual_undefined_value_bold_italic :
  "bold" ≠ "italic" ∧
  mapsEqual (option string) None stringify_string
    (Map_set [] "bold" None) (Map_set [] "italic" (Some "true")) = Return true ∧
  mapsEqual (option string) None stringify_string
    (Map_set [] "italic" (Some "true")) (Map_set [] "bold" None) = Return false.
Proof.
  split; [discriminate|].
  eapply (mapsEqual_undefined_value (option string) None stringify_string
            "bold" "italic" (Some "true")); [discriminate|reflexivity|reflexivity].
Defined.

(** *** utils.mix *)

Section mix.
Context {Key : Type} `{Countable Key}.

(** What a property descriptor holds besides [enumerable]: the value or
    the accessors, [writable] and [configurable]. *)
Variable Attributes : Type.

Record PropertyDescriptor := mkPropertyDescriptor {
  enumerable : bool;
  attributes : Attributes
}.

(** [baseClass.prototype], an ordinary extensible object: its own
    properties, and the keys that are found further up its prototype
    chain. *)
Record Prototype := mkPrototype {
  ownProperties : gmap Key PropertyDescriptor;
  inheritedKeys : Key → bool
}.

(** [key in baseClass.prototype] *)
Definition has_key (prototype : Prototype) (key : Key) : bool :=
  bool_decide (is_Some (ownProperties prototype !! key))
  || inheritedKeys prototype key.

(** A mixin: its own property names followed by its own symbols, each with
    the descriptor that [Object.getOwnPropertyDescriptor] returns. *)
Definition Mixin : Type := list (Key * PropertyDescriptor).

(** The body of the inner [forEach]. *)
Definition mix_key (prototype : Prototype) (property : Key * PropertyDescriptor)
  : Prototype :=
  let '(key, sourceDescriptor) := property in
  if has_key prototype key then prototype
  else
    {| ownProperties :=
         <[key := {| enumerable := false;
                     attributes := attributes sourceDescriptor |}]>
           (ownProperties prototype);
       inheritedKeys := inheritedKeys prototype |}.

(** [mix( baseClass, ...mixins )], as the prototype of [baseClass] after
    the call. *)
Definition mix (baseClass : Prototype) (mixins : list Mixin) : Prototype :=
  foldl (λ prototype mixin, foldl mix_key prototype mixin) baseClass mixins.

(** The descriptor of [key] in the first of the mixins that has it. *)
Definition firstDescriptor (mixins : list Mixin) (key : Key)
  : option PropertyDescriptor :=
  snd <$> head (filter (λ property, property.1 = key) (concat mixins)).

Lemma mix_concat (baseClass : Prototype) (mixins : list Mixin) :
  mix baseClass mixins = foldl mix_key baseClass (concat mixins).
Proof.
  unfold mix. revert baseClass.
  induction mixins as [|mixin mixins IH]; intros baseClass; simpl; [done|].
  by rewrite IH, foldl_app.
Qed.

Lemma mix_keys (prototype : Prototype) (properties : Mixin) (key : Key) :
  inheritedKeys (foldl mix_key prototype properties) = inheritedKeys prototype
  ∧ ownProperties (foldl mix_key prototype properties) !! key =
      if has_key prototype key then ownProperties prototype !! key
      else (λ d, {| enumerable := false; attributes := attributes d |})
             <$> (snd <$> head (filter (λ property, property.1 = key) properties)).
Proof.
  revert prototype.
  induction properties as [|[k d] properties IH]; intros prototype;
    cbn [foldl].
  - split; [done|]. simpl. unfold has_key.
    destruct (ownProperties prototype !! key) eqn:Hown; simpl; [done|].
    by destruct (inheritedKeys prototype key).
  - destruct (IH (mix_key prototype (k, d))) as [Hinh Hown].
    rewrite Hinh, Hown. clear IH Hinh Hown. unfold mix_key.
    destruct (has_key prototype k) eqn:Hk.
    + split; [done|]. destruct (has_key prototype key) eqn:Hkey; [done|].
      rewrite (filter_cons_False (λ property : Key * PropertyDescriptor, property.1 = key)); [done|]. simpl. intros ->. congruence.
    + split; [done|]. unfold has_key in *. simpl.
      apply orb_false_iff in Hk as [Hown%bool_decide_eq_false Hinh].
      destruct (decide (k = key)) as [->|Hne].
      * rewrite lookup_insert_eq. rewrite bool_decide_true by eauto. simpl.
        rewrite Hinh, orb_false_r, bool_decide_false by done.
        by rewrite (filter_cons_True (λ property : Key * PropertyDescriptor, property.1 = key)).
      * rewrite lookup_insert_ne by done.
        rewrite (filter_cons_False (λ property : Key * PropertyDescriptor, property.1 = key)) by done.
        destruct (ownProperties prototype !! key); simpl; [done|].
        by destruct (inheritedKeys prototype key).
Qed.

(** X8 — [mix] never overrides: a key that is in the prototype of the base
    class, as an own or as an inherited property, keeps what it had.  Every
    other key gets the descriptor that the first of the mixins with that key
    has for it, made non-enumerable; later mixins do not replace it. *)
Theorem mix_spec (baseClass : Prototype) (mixins : list Mixin) (key : Key) :
  inheritedKeys (mix baseClass mixins) = inheritedKeys baseClass ∧
  ownProperties (mix baseClass mixins) !! key =
    if has_key baseClass key then ownProperties baseClass !! key
    else (λ d, {| enumerable := false; attributes := attributes d |})
           <$> firstDescriptor mixins key.
Proof. rewrite mix_concat. apply mix_keys. Qed.

End mix.

End Utils.

(** ** History *)

Module HistoryModel.

(** Deltas and operations are JavaScript objects; [History] compares deltas
    by identity ([!==]) and reads three properties: [operation.delta],
    [delta.baseVersion] and [delta.operations.length].  A value of the type
    [Delta] below stands for a reference to a delta object, its decidable
    equality for [===], and the two readers for the contents of the heap. *)
Record Operation (Delta : Type) := mkOperation {
  delta : option Delta   (* [null]/[undefined] when the operation has no delta *)
}.
Arguments mkOperation {Delta} _.
Arguments delta {Delta} _.

Record History (Delta : Type) := mkHistory {
  _deltas : list Delta;
  _historyPoints : gmap Z nat
}.
Arguments mkHistory {Delta} _ _.
Arguments _deltas {Delta} _.
Arguments _historyPoints {Delta} _.

(** The state of the generator object that [getDeltas] returns. *)
Inductive Generator :=
| SuspendedStart (from : Z)   (* created, body not entered yet *)
| SuspendedYield (i : nat)    (* suspended at [yield this._deltas[ i ]] *)
| Completed.

(** What one call of [next()] on the generator does. *)
Inductive IteratorResult (Delta : Type) :=
| yielded (d : Delta)
| done_
| thrown (e : Error).
Arguments yielded {Delta} d.
Arguments done_ {Delta}.
Arguments thrown {Delta} e.

Definition history_wrong_version : Error :=
  CKEditorError "history-wrong-version".

Section history.
Context {Delta : Type} `{!EqDecision Delta}.
Variable baseVersion : Delta → Z.
Variable operations : Delta → list (Operation Delta).
Variable transform : Delta → Delta → bool → list Delta.

(** [constructor()] *)
Definition new_History : History Delta :=
  {| _deltas := []; _historyPoints := ∅ |}.

(** [get _nextHistoryPoint()].  On an empty [_deltas], index [-1] reads
    [undefined] and the property access on it throws.  The code adds two
    numbers, that is, two doubles; the integer sum below is that sum as long
    as it is exact ([exact_sum]), and the statements that depend on the value
    of the sum of an arbitrary delta assume it. *)
Definition _nextHistoryPoint (h : History Delta) : completion Z :=
  match list.last (_deltas h) with
  | None => Throw TypeError
  | Some lastDelta =>
      Return (baseVersion lastDelta + Z.of_nat (length (operations lastDelta)))
  end.

(** [addOperation( operation )] *)
Definition addOperation (h : History Delta) (operation : Operation Delta)
  : History Delta :=
  match delta operation with
  | Some delta =>
      if decide (list.last (_deltas h) ≠ Some delta) then
        let index := length (_deltas h) in
        {| _deltas := _deltas h ++ [delta];
           _historyPoints := <[baseVersion delta := index]> (_historyPoints h) |}
      else h
  | None => h
  end.

(** [*getDeltas( from = 0 )]: calling a generator function only creates the
    generator object. *)
Definition getDeltas (from : option Z) : Generator :=
  SuspendedStart (default 0 from).

(** The loop [for ( ; i < this._deltas.length; i++ ) yield this._deltas[ i ]],
    entered at its test. *)
Definition getDeltas_loop (h : History Delta) (i : nat)
  : IteratorResult Delta * Generator :=
  match _deltas h !! i with
  | Some d => (yielded d, SuspendedYield i)
  | None => (done_, Completed)
  end.

(** One [next()] on the generator. *)
Definition next (h : History Delta) (g : Generator)
  : IteratorResult Delta * Generator :=
  match g with
  | SuspendedStart from =>
      match _historyPoints h !! from with
      | None => (thrown history_wrong_version, Completed)
      | Some i => getDeltas_loop h i
      end
  | SuspendedYield i => getDeltas_loop h (S i)
  | Completed => (done_, Completed)
  end.

(** An upper bound on the number of values a generator can still yield. *)
Definition pending (h : History Delta) (g : Generator) : nat :=
  match g with
  | SuspendedStart _ => S (length (_deltas h))
  | SuspendedYield i => length (_deltas h) - i
  | Completed => 0
  end.

Lemma next_pending h g d g' :
  next h g = (yielded d, g') → (pending h g' < pending h g)%nat.
Proof.
  unfold next, getDeltas_loop. intros Hn.
  destruct g as [from|i|]; simpl.
  - destruct (_historyPoints h !! from) as [i|]; [|done].
    destruct (_deltas h !! i) eqn:Hi; [|done].
    apply lookup_lt_Some in Hi. simplify_eq. simpl. lia.
  - destruct (_deltas h !! S i) eqn:Hi; [|done].
    apply lookup_lt_Some in Hi. simplify_eq. simpl. lia.
  - done.
Qed.

(** [for ( let x of g ) s = body( s, x )]: [next()] is called until the
    generator is done; an exception thrown by the generator ends the loop. *)
Equations? for_of {S : Type} (h : History Delta) (g : Generator)
    (body : S → Delta → S) (s : S) : completion S by wf (pending h g) lt :=
  for_of h g body s with inspect (next h g) := {
    | exist _ (yielded d, g') Hn => for_of h g' body (body s d)
    | exist _ (done_, _) _ => Return s
    | exist _ (thrown e, _) _ => Throw e }.
Proof. by eapply next_pending. Qed.

(** [static _transform( toTransform, transformBy )] *)
Definition _transform (toTransform transformBy : Delta) : list Delta :=
  transform toTransform transformBy false.

(** [getTransformedDelta( delta )] *)
Definition getTransformedDelta (h : History Delta) (delta : Delta)
  : completion (list Delta) :=
  bind (_nextHistoryPoint h) (λ nextHistoryPoint,
  if decide (baseVersion delta = nextHistoryPoint) then Return [delta]
  else
    for_of h (getDeltas (Some (baseVersion delta)))
      (λ transformed historyDelta,
         foldl (λ allResults deltaToTransform,
                  allResults ++ _transform deltaToTransform historyDelta)
               [] transformed)
      [delta]).

(** *** The history invariant *)

(** Every key of [_historyPoints] is the [baseVersion] of the delta stored
    at the index it maps to, and that delta is the last one recorded with
    this [baseVersion]; every recorded delta has its [baseVersion] as a key. *)
Definition history_inv (h : History Delta) : Prop :=
  (∀ k i, _historyPoints h !! k = Some i →
     ∃ d, _deltas h !! i = Some d ∧ baseVersion d = k ∧
          ∀ j d', (i < j)%nat → _deltas h !! j = Some d' → baseVersion d' ≠ k) ∧
  (∀ d, d ∈ _deltas h → is_Some (_historyPoints h !! baseVersion d)).

(** The history that a sequence of [addOperation] calls builds. *)
Definition record (h : History Delta) (ops : list (Operation Delta))
  : History Delta :=
  foldl addOperation h ops.

(** [Array.from( g )]: the values a generator yields until it is done. *)
Definition toArray (h : History Delta) (g : Generator)
  : completion (list Delta) :=
  for_of h g (λ acc d, acc ++ [d]) [].

Lemma for_of_step {S} (h : History Delta) g (body : S → Delta → S) s :
  for_of h g body s =
  match next h g with
  | (yielded d, g') => for_of h g' body (body s d)
  | (done_, _) => Return s
  | (thrown e, _) => Throw e
  end.
Proof.
  rewrite for_of_equation_1.
  change (next h g) with (proj1_sig (Logic.inspect (next h g))) at 2.
  generalize (Logic.inspect (next h g)).
  intros [[[d| |e] g'] Hn]; reflexivity.
Qed.

Lemma for_of_SuspendedYield {S} (h : History Delta) i (body : S → Delta → S) s :
  for_of h (SuspendedYield i) body s
  = Return (foldl body s (drop (Datatypes.S i) (_deltas h))).
Proof.
  remember (length (_deltas h) - i)%nat as n eqn:Hn.
  revert i s Hn. induction n as [|n IH]; intros i s Hn;
    rewrite for_of_step; simpl; unfold getDeltas_loop.
  - rewrite (lookup_ge_None_2 (_deltas h) (Datatypes.S i)) by lia.
    by rewrite drop_ge by lia.
  - destruct (_deltas h !! Datatypes.S i) as [d|] eqn:Hd.
    + rewrite IH by lia. by rewrite (drop_S _ _ _ Hd).
    + apply lookup_ge_None_1 in Hd. by rewrite drop_ge by lia.
Qed.

Lemma for_of_getDeltas {S} (h : History Delta) from (body : S → Delta → S) s :
  for_of h (getDeltas (Some from)) body s
  = match _historyPoints h !! from with
    | None => Throw history_wrong_version
    | Some i => Return (foldl body s (drop i (_deltas h)))
    end.
Proof.
  rewrite for_of_step. simpl.
  destruct (_historyPoints h !! from) as [i|]; [|done].
  unfold getDeltas_loop. destruct (_deltas h !! i) as [d|] eqn:Hd.
  - rewrite for_of_SuspendedYield. by rewrite (drop_S _ _ _ Hd).
  - apply lookup_ge_None_1 in Hd. by rewrite drop_ge by lia.
Qed.

Lemma new_History_inv : history_inv new_History.
Proof.
  split; simpl.
  - intros k i Hk. by rewrite lookup_empty in Hk.
  - intros d Hd. by apply elem_of_nil in Hd.
Qed.

Lemma addOperation_inv h op : history_inv h → history_inv (addOperation h op).
Proof.
  intros [Hpts Hrec]. unfold addOperation.
  destruct (delta op) as [d|]; [|done]. case_decide as Hlast; [|done].
  split; simpl.
  - intros k i. rewrite lookup_insert. case_decide as Hk.
    + intros [= <-]. exists d. split; [|split; [done|]].
      * by rewrite lookup_app_r, Nat.sub_diag.
      * intros j d' Hj Hd'. apply lookup_lt_Some in Hd'.
        rewrite length_app in Hd'. simpl in Hd'. lia.
    + intros Hi. destruct (Hpts _ _ Hi) as (d0 & Hd0 & Hbv & Hlater).
      exists d0. split; [|split; [done|]].
      * by apply lookup_app_l_Some.
      * intros j d' Hj Hd'. apply lookup_app_Some in Hd' as [Hd'|[Hge Hd']].
        -- by eapply Hlater.
        -- apply list_lookup_singleton_Some in Hd' as [_ <-]. congruence.
  - intros d' [Hd'|Hd']%elem_of_app.
    + rewrite lookup_insert. case_decide; [done|]. by apply Hrec.
    + apply list_elem_of_singleton in Hd' as ->. by rewrite lookup_insert_eq.
Qed.

Lemma record_inv h ops : history_inv h → history_inv (record h ops).
Proof.
  revert h. induction ops as [|op ops IH]; intros h Hh; [done|].
  apply IH. by apply addOperation_inv.
Qed.

Lemma addOperation_prefix h op : _deltas h `prefix_of` _deltas (addOperation h op).
Proof.
  unfold addOperation. destruct (delta op) as [d|]; [|done].
  case_decide; [|done]. simpl. by apply prefix_app_r.
Qed.

Lemma record_prefix h ops : _deltas h `prefix_of` _deltas (record h ops).
Proof.
  revert h. induction ops as [|op ops IH]; intros h; [done|].
  etrans; [apply (addOperation_prefix h op)|apply IH].
Qed.

Lemma addOperation_same_delta h d :
  list.last (_deltas h) = Some d → addOperation h (mkOperation (Some d)) = h.
Proof. intros Hl. unfold addOperation. simpl. by rewrite decide_False by naive_solver. Qed.

Lemma record_one_delta h d ops :
  ops ≠ [] → Forall (λ op, delta op = Some d) ops →
  list.last (_deltas h) ≠ Some d →
  record h ops =
    {| _deltas := _deltas h ++ [d];
       _historyPoints := <[baseVersion d := length (_deltas h)]> (_historyPoints h) |}.
Proof.
  intros Hne Hall Hlast. destruct ops as [|[od] ops]; [done|].
  inversion_clear Hall as [|? ? Hop Hall']. rename Hall' into Hall.
  simpl in Hop. subst od.
  unfold record. simpl. unfold addOperation at 2. simpl.
  rewrite decide_True by done.
  set (h1 := {| _deltas := _deltas h ++ [d]; _historyPoints := _ |}).
  assert (list.last (_deltas h1) = Some d) as Hl1 by (subst h1; simpl; apply last_snoc).
  clearbody h1. clear Hne. induction Hall as [|[od] ops Hop _ IH]; [done|].
  simpl in Hop. subst od. simpl. by rewrite addOperation_same_delta.
Qed.

Lemma foldl_snoc_id (l acc : list Delta) :
  foldl (λ acc d, acc ++ [d]) acc l = acc ++ l.
Proof.
  revert acc. induction l as [|x l IH]; intros acc; simpl.
  - by rewrite app_nil_r.
  - by rewrite IH, <- app_assoc.
Qed.

Lemma toArray_getDeltas h from :
  toArray h (getDeltas (Some from))
  = match _historyPoints h !! from with
    | None => Throw history_wrong_version
    | Some i => Return (drop i (_deltas h))
    end.
Proof.
  unfold toArray. rewrite for_of_getDeltas.
  destruct (_historyPoints h !! from); [|done]. by rewrite foldl_snoc_id.
Qed.

Lemma recorded_lookup h from :
  history_inv h →
  from ∈ baseVersion <$> _deltas h ↔ is_Some (_historyPoints h !! from).
Proof.
  intros [Hpts Hrec]. split.
  - intros (d & -> & Hd)%list_elem_of_fmap. by apply Hrec.
  - intros [i Hi]. destruct (Hpts _ _ Hi) as (d & Hd & <- & _).
    apply list_elem_of_fmap. exists d. split; [done|].
    by eapply list_elem_of_lookup_2.
Qed.

(** The inner loop of [getTransformedDelta]: every delta of the working set
    is transformed by [historyDelta] and the results are concatenated. *)
Lemma transform_all_bind (historyDelta : Delta) (transformed acc : list Delta) :
  foldl (λ allResults deltaToTransform,
           allResults ++ _transform deltaToTransform historyDelta)
        acc transformed
  = acc ++ (transformed ≫= λ w, transform w historyDelta false).
Proof.
  revert acc. induction transformed as [|w ws IH]; intros acc; simpl.
  - by rewrite app_nil_r.
  - rewrite IH. unfold _transform. by rewrite <- app_assoc.
Qed.

(** What [getTransformedDelta] computes on a history that has at least one
    delta: the fast path, the error of [getDeltas], or the working set
    rebased through the deltas recorded from the history point on. *)
Lemma getTransformedDelta_nonempty h lastDelta d :
  list.last (_deltas h) = Some lastDelta →
  getTransformedDelta h d =
    if decide (baseVersion d
               = baseVersion lastDelta + Z.of_nat (length (operations lastDelta)))
    then Return [d]
    else match _historyPoints h !! baseVersion d with
         | None => Throw history_wrong_version
         | Some i =>
             Return (foldl (λ transformed historyDelta,
                              transformed ≫= λ w, transform w historyDelta false)
                           [d] (drop i (_deltas h)))
         end.
Proof.
  intros Hlast. unfold getTransformedDelta, _nextHistoryPoint.
  rewrite Hlast. simpl. case_decide; [done|].
  rewrite for_of_getDeltas. destruct (_historyPoints h !! baseVersion d); [|done].
  f_equal. generalize (drop n (_deltas h)) [d]. intros l.
  induction l as [|x l IH]; intros ws; simpl; [done|].
  rewrite transform_all_bind. simpl. apply IH.
Qed.

(** C1 — on a history with no recorded delta, [getTransformedDelta] does not
    take the fast path: [_nextHistoryPoint] reads [baseVersion] of
    [undefined] and the call throws a [TypeError], whatever the delta. *)
Theorem getTransformedDelta_new_History (d : Delta) :
  getTransformedDelta new_History d = Throw TypeError.
Proof. reflexivity. Qed.

(** C3 (amended) — on a history built by [addOperation], [getDeltas( from )]
    throws [history-wrong-version] on its first [next()], before any value
    is yielded, exactly when [from] is not the [baseVersion] of a recorded
    delta; otherwise it yields the deltas from the last one recorded with
    that [baseVersion] to the end of the history, in order.  (A delta
    recorded with that [baseVersion] before the last such one is not
    yielded.) *)
Theorem getDeltas_spec (ops : list (Operation Delta)) (from : Z) :
  let h := record new_History ops in
  let recorded := baseVersion <$> _deltas h in
  (from ∉ recorded ↔
     next h (getDeltas (Some from)) = (thrown history_wrong_version, Completed)) ∧
  (from ∉ recorded ↔
     toArray h (getDeltas (Some from)) = Throw history_wrong_version) ∧
  (from ∈ recorded ↔
     ∃ pre d post,
       _deltas h = pre ++ d :: post ∧ baseVersion d = from ∧
       (from ∉ baseVersion <$> post) ∧
       toArray h (getDeltas (Some from)) = Return (d :: post)).
Proof.
  intros h recorded.
  assert (history_inv h) as Hinv by apply record_inv, new_History_inv.
  pose proof (recorded_lookup h from Hinv) as Hrec. fold recorded in Hrec.
  rewrite toArray_getDeltas. simpl. unfold getDeltas_loop.
  destruct (_historyPoints h !! from) as [i|] eqn:Hi.
  - assert (from ∈ recorded) as Hin by (apply Hrec; eauto).
    destruct Hinv as [Hpts _]. destruct (Hpts _ _ Hi) as (d & Hd & Hbv & Hlater).
    split; [|split].
    + split; [done|]. by rewrite Hd.
    + split; [done|]. done.
    + split; [intros _|done].
      exists (take i (_deltas h)), d, (drop (S i) (_deltas h)).
      split; [|split; [done|split]].
      * by rewrite <- (drop_S _ _ _ Hd), take_drop.
      * intros (d' & Hbv' & Hd')%list_elem_of_fmap.
        apply list_elem_of_lookup in Hd' as [j Hj]. rewrite lookup_drop in Hj.
        eapply (Hlater (S i + j)%nat d'); [lia|done|done].
      * by rewrite (drop_S _ _ _ Hd).
  - assert (from ∉ recorded) as Hnin.
    { intros Hin%Hrec. by destruct Hin. }
    split; [|split]; [done|done|].
    split; [done|]. intros (pre & d & post & _ & _ & _ & ?). done.
Qed.

(** C6 (amended) — the operations of one delta, added consecutively to a
    history whose last entry is not that delta, add exactly one entry, keyed
    by the delta's [baseVersion]; [_deltas] only grows at its end; every key
    of [_historyPoints] maps to the index of a delta with that [baseVersion];
    and when the recorded deltas have pairwise distinct [baseVersion]s, each
    of them stands at the index its [baseVersion] maps to. *)
Theorem addOperation_log_invariant :
  (∀ h d ops,
     ops ≠ [] → Forall (λ op, delta op = Some d) ops →
     list.last (_deltas h) ≠ Some d →
     _deltas (record h ops) = _deltas h ++ [d] ∧
     _historyPoints (record h ops)
       = <[baseVersion d := length (_deltas h)]> (_historyPoints h)) ∧
  (∀ h ops, _deltas h `prefix_of` _deltas (record h ops)) ∧
  (∀ ops k i,
     _historyPoints (record new_History ops) !! k = Some i →
     ∃ d, _deltas (record new_History ops) !! i = Some d ∧ baseVersion d = k) ∧
  (∀ ops,
     NoDup (baseVersion <$> _deltas (record new_History ops)) →
     ∀ i d, _deltas (record new_History ops) !! i = Some d →
            _historyPoints (record new_History ops) !! baseVersion d = Some i).
Proof.
  split; [|split; [|split]].
  - intros h d ops Hne Hall Hlast. by rewrite (record_one_delta h d ops).
  - apply record_prefix.
  - intros ops k i Hk.
    destruct (record_inv new_History ops new_History_inv) as [Hpts _].
    destruct (Hpts _ _ Hk) as (d & Hd & Hbv & _). eauto.
  - intros ops Hnd i d Hd.
    destruct (record_inv new_History ops new_History_inv) as [Hpts Hrec].
    destruct (Hrec d) as [j Hj]; [by eapply list_elem_of_lookup_2|].
    destruct (Hpts _ _ Hj) as (d' & Hd' & Hbv & _).
    rewrite Hj. f_equal.
    eapply NoDup_lookup; [exact Hnd| |].
    + by rewrite list_lookup_fmap, Hd'.
    + rewrite list_lookup_fmap, Hd. simpl. by rewrite Hbv.
Qed.

(** *** Rebasing a delta on a history that grows *)

(** A delta with its operations, as [Delta.addOperation] builds it: it has
    at least one operation, and every operation refers to it. *)
Definition well_formed (d : Delta) : Prop :=
  operations d ≠ [] ∧ Forall (λ op, delta op = Some d) (operations d).

(** The [baseVersion]s of the recorded deltas grow along the history, as
    they do when every delta is applied to the document at its version. *)
Definition increasing (h : History Delta) : Prop :=
  ∀ i j di dj, (i < j)%nat →
    _deltas h !! i = Some di → _deltas h !! j = Some dj →
    baseVersion di < baseVersion dj.

(** The working set of [getTransformedDelta] after the deltas [l] of the
    history. *)
Definition rebase (ws l : list Delta) : list Delta :=
  foldl (λ transformed historyDelta,
           transformed ≫= λ w, transform w historyDelta false) ws l.

(** [delta.baseVersion + delta.operations.length] is computed on doubles: it
    is the sum of the two integers when neither the [baseVersion] nor the sum
    is beyond 2^53, the range in which every integer is a double.  (Beyond
    it the sum is rounded: 2^53 + 1 gives 2^53.) *)
Definition exact_sum (d : Delta) : Prop :=
  Z.abs (baseVersion d) ≤ 2 ^ 53 ∧
  Z.abs (baseVersion d + Z.of_nat (length (operations d))) ≤ 2 ^ 53.

Lemma record_delta_last h d :
  well_formed d → list.last (_deltas (record h (operations d))) = Some d.
Proof.
  intros [Hne Hall].
  destruct (decide (list.last (_deltas h) = Some d)) as [Hlast|Hlast].
  - clear Hne. induction Hall as [|[od] ops Hop _ IH]; [done|].
    simpl in Hop. subst od. unfold record in *. simpl.
    by rewrite addOperation_same_delta.
  - rewrite (record_one_delta h d) by done. simpl. apply last_snoc.
Qed.

Lemma record_delta_new h d :
  well_formed d → list.last (_deltas h) ≠ Some d →
  record h (operations d) =
    {| _deltas := _deltas h ++ [d];
       _historyPoints := <[baseVersion d := length (_deltas h)]> (_historyPoints h) |}.
Proof. intros [Hne Hall] Hlast. by apply record_one_delta. Qed.

Lemma history_inv_lookup_lt h k i :
  history_inv h → _historyPoints h !! k = Some i → (i < length (_deltas h))%nat.
Proof.
  intros [Hpts _] Hk. destruct (Hpts _ _ Hk) as (d & Hd & _).
  by eapply lookup_lt_Some.
Qed.

(** X9 — once the operations of a delta [d] have been added to a history,
    whatever it held before, a delta whose [baseVersion] is
    [d.baseVersion + d.operations.length] is up to date: it is returned
    alone and unchanged, and the transformation is not called. *)
Theorem getTransformedDelta_up_to_date h d d' :
  well_formed d →
  baseVersion d' = baseVersion d + Z.of_nat (length (operations d)) →
  getTransformedDelta (record h (operations d)) d' = Return [d'].
Proof.
  intros Hwf Hbv.
  rewrite (getTransformedDelta_nonempty _ d) by by apply record_delta_last.
  by rewrite decide_True.
Qed.

(** X10 — on a history built by [addOperation] that holds a delta, the
    next history point being an exact sum, [getTransformedDelta( d )] throws
    [history-wrong-version] exactly when [d.baseVersion] is neither the next
    history point nor the [baseVersion] of a recorded delta; it throws
    nothing else. *)
Theorem getTransformedDelta_wrong_version ops lastDelta d :
  list.last (_deltas (record new_History ops)) = Some lastDelta →
  exact_sum lastDelta →
  (getTransformedDelta (record new_History ops) d = Throw history_wrong_version ↔
     baseVersion d
       ≠ baseVersion lastDelta + Z.of_nat (length (operations lastDelta)) ∧
     baseVersion d ∉ baseVersion <$> _deltas (record new_History ops)) ∧
  (∀ e, getTransformedDelta (record new_History ops) d = Throw e →
        e = history_wrong_version).
Proof.
  intros Hlast _. set (h := record new_History ops) in *.
  assert (history_inv h) as Hinv by apply record_inv, new_History_inv.
  rewrite (getTransformedDelta_nonempty h lastDelta d Hlast).
  rewrite (recorded_lookup h (baseVersion d) Hinv).
  case_decide as Hup.
  - split; [|done]. split; [done|]. by intros [? _].
  - destruct (_historyPoints h !! baseVersion d) as [i|] eqn:Hi.
    + split; [|done]. split; [done|]. intros [_ Hnone]. destruct Hnone. eauto.
    + split; [|by intros e [= <-]]. split; [|done]. intros _. split; [done|].
      by intros [? ?].
Qed.

(** X11 — a delta [d] that meets a concurrent delta: once a delta [e] with
    the [baseVersion] of [d] has been recorded, the next history point being
    an exact sum, [getTransformedDelta( d )] is the transformation of [d] by
    [e], with [d] as the weak side. *)
Theorem getTransformedDelta_concurrent h d e :
  well_formed e → list.last (_deltas h) ≠ Some e →
  exact_sum e →
  baseVersion e = baseVersion d →
  getTransformedDelta (record h (operations e)) d
  = Return (transform d e false).
Proof.
  intros Hwf Hlast _ Hbv. rewrite (record_delta_new h e Hwf Hlast).
  rewrite (getTransformedDelta_nonempty _ e) by (simpl; apply last_snoc).
  simpl. rewrite decide_False.
  2:{ destruct Hwf as [Hne _]. destruct (operations e); [done|]. simpl. lia. }
  rewrite Hbv, lookup_insert_eq. rewrite drop_app_length. simpl.
  by rewrite app_nil_r.
Qed.

(** X12 — rebasing is incremental: when [getTransformedDelta( d )] gave
    the deltas [ws] by transformation, and a further delta [e] is recorded
    with another [baseVersion] than [d], leaving [d] out of date, then
    [getTransformedDelta( d )] gives the transformations of the deltas of
    [ws] by [e], in order.  The next history point is an exact sum before
    and after [e] is recorded. *)
Theorem getTransformedDelta_incremental ops d e ws lastDelta :
  list.last (_deltas (record new_History ops)) = Some lastDelta →
  exact_sum lastDelta → exact_sum e →
  baseVersion d
    ≠ baseVersion lastDelta + Z.of_nat (length (operations lastDelta)) →
  getTransformedDelta (record new_History ops) d = Return ws →
  well_formed e → lastDelta ≠ e →
  baseVersion e ≠ baseVersion d →
  baseVersion d ≠ baseVersion e + Z.of_nat (length (operations e)) →
  getTransformedDelta (record (record new_History ops) (operations e)) d
  = Return (ws ≫= λ w, transform w e false).
Proof.
  intros Hlast _ _ Hstale Hws Hwf Hne Hbv Hstale'.
  set (h := record new_History ops) in *.
  assert (history_inv h) as Hinv by apply record_inv, new_History_inv.
  rewrite (getTransformedDelta_nonempty h lastDelta d Hlast) in Hws.
  rewrite decide_False in Hws by done.
  destruct (_historyPoints h !! baseVersion d) as [i|] eqn:Hi; [|done].
  injection Hws as <-.
  rewrite (record_delta_new h e Hwf) by (rewrite Hlast; congruence).
  rewrite (getTransformedDelta_nonempty _ e) by (simpl; apply last_snoc).
  simpl. rewrite decide_False by done.
  rewrite lookup_insert_ne by done. rewrite Hi.
  pose proof (history_inv_lookup_lt h _ _ Hinv Hi) as Hlt.
  rewrite drop_app_le by lia. by rewrite foldl_app.
Qed.

Lemma filter_none {A} (P : A → Prop) `{!∀ x, Decision (P x)} (l : list A) :
  Forall (λ x, ¬ P x) l → filter P l = [].
Proof.
  induction 1 as [|x l Hx _ IH]; [done|].
  by rewrite (filter_cons_False P x l Hx).
Qed.

Lemma filter_all {A} (P : A → Prop) `{!∀ x, Decision (P x)} (l : list A) :
  Forall P l → filter P l = l.
Proof.
  induction 1 as [|x l Hx _ IH]; [done|].
  rewrite (filter_cons_True P x l Hx). by rewrite IH.
Qed.

(** X13 — on a history built by [addOperation] whose [baseVersion]s grow,
    [getDeltas( from )] for a recorded [from] yields all the deltas with a
    [baseVersion] of [from] or more, and only them, in the order of the
    history. *)
Theorem getDeltas_from_version ops from :
  increasing (record new_History ops) →
  from ∈ baseVersion <$> _deltas (record new_History ops) →
  toArray (record new_History ops) (getDeltas (Some from))
  = Return (filter (λ d, from ≤ baseVersion d) (_deltas (record new_History ops))).
Proof.
  intros Hinc Hin. set (h := record new_History ops) in *.
  assert (history_inv h) as Hinv by apply record_inv, new_History_inv.
  rewrite toArray_getDeltas.
  apply (recorded_lookup h from Hinv) in Hin as [i Hi]. rewrite Hi.
  destruct Hinv as [Hpts _]. destruct (Hpts _ _ Hi) as (d & Hd & Hbv & _).
  f_equal. rewrite <- (take_drop i (_deltas h)) at 2.
  rewrite (list.filter_app (λ d, from ≤ baseVersion d)).
  rewrite (filter_none (λ d, from ≤ baseVersion d) (take i (_deltas h))).
  2:{ apply list.Forall_forall. intros x Hx.
      apply list_elem_of_lookup in Hx as [j Hj].
      apply lookup_take_Some in Hj as [Hj Hji].
      pose proof (Hinc j i x d Hji Hj Hd). lia. }
  simpl. symmetry. apply filter_all, list.Forall_forall. intros x Hx.
  apply list_elem_of_lookup in Hx as [j Hj]. rewrite lookup_drop in Hj.
  destruct j as [|j].
  - rewrite Nat.add_0_r, Hd in Hj. injection Hj as <-. lia.
  - pose proof (Hinc i (i + S j)%nat d x ltac:(lia) Hd Hj). lia.
Qed.

(** X14 — a generator of [getDeltas] reads the history when it is resumed:
    after it has yielded the delta at an index [i], it goes on with all the
    deltas that stand behind [i] at that time, those recorded since its
    creation included. *)
Theorem getDeltas_sees_later_deltas h from d i ops :
  next h (getDeltas (Some from)) = (yielded d, SuspendedYield i) →
  _deltas h !! i = Some d ∧
  ∃ added, _deltas (record h ops) = _deltas h ++ added ∧
           toArray (record h ops) (SuspendedYield i)
           = Return (drop (S i) (_deltas h) ++ added).
Proof.
  simpl. destruct (_historyPoints h !! from) as [i'|]; [|done].
  unfold getDeltas_loop. destruct (_deltas h !! i') as [d'|] eqn:Hd; [|done].
  intros [= -> ->]. split; [done|].
  destruct (record_prefix h ops) as [added Hadded]. exists added.
  split; [done|]. unfold toArray. rewrite for_of_SuspendedYield, foldl_snoc_id.
  simpl. rewrite Hadded. f_equal. apply lookup_lt_Some in Hd.
  by rewrite drop_app_le by lia.
Qed.

End history.

Lemma foldl_ext_list {A B} (f g : A → B → A) (l : list B) (a : A) :
  (∀ a b, f a b = g a b) → foldl f a l = foldl g a l.
Proof.
  intros Hfg. revert a. induction l as [|x l IH]; intros a; simpl; [done|].
  by rewrite Hfg, IH.
Qed.

(** C10 — [History._transform] is the delta transformation called with
    [isStrong = false]; a delta that [getTransformedDelta] rebases (one that
    is not up to date and whose [baseVersion] is a history point) comes back
    as the working set [[d]] transformed by every delta recorded from that
    history point on, in the order of the history, each delta of the working
    set as the weak side; and the result of [getTransformedDelta] does not
    depend on what the transformation does when [isStrong] is [true]. *)
Theorem History_transform_is_weak {Delta : Type}
    (baseVersion : Delta → Z) (operations : Delta → list (Operation Delta))
    (transform : Delta → Delta → bool → list Delta) :
  (∀ toTransform transformBy,
     _transform transform toTransform transformBy
     = transform toTransform transformBy false) ∧
  (∀ h lastDelta d i,
     list.last (_deltas h) = Some lastDelta →
     exact_sum baseVersion operations lastDelta →
     baseVersion d
       ≠ baseVersion lastDelta + Z.of_nat (length (operations lastDelta)) →
     _historyPoints h !! baseVersion d = Some i →
     getTransformedDelta baseVersion operations transform h d
     = Return (foldl (λ transformed historyDelta,
                        transformed ≫= λ w, transform w historyDelta false)
                     [d] (drop i (_deltas h)))) ∧
  (∀ (transform' : Delta → Delta → bool → list Delta) h d,
     (∀ a b, transform a b false = transform' a b false) →
     getTransformedDelta baseVersion operations transform h d
     = getTransformedDelta baseVersion operations transform' h d).
Proof.
  split; [done|]. split.
  - intros h lastDelta d i Hlast _ Hstale Hi.
    rewrite (getTransformedDelta_nonempty _ _ _ _ lastDelta) by done.
    rewrite decide_False by done. by rewrite Hi.
  - intros t2 h d Hweak.
    unfold getTransformedDelta. destruct (_nextHistoryPoint _ _ h); [|done].
    simpl. case_decide; [done|]. rewrite !for_of_getDeltas.
    destruct (_historyPoints h !! baseVersion d); [|done]. f_equal.
    apply foldl_ext_list. intros ws hd. apply foldl_ext_list.
    intros acc w. unfold _transform. by rewrite Hweak.
Qed.

(** Two deltas (objects [1] and [2]) recorded with [baseVersion] 0, each
    added with one operation: 0 is a recorded history point and
    [getDeltas( 0 )] yields delta [2] alone; delta [1], recorded at that
    history point before it, is not yielded. *)
Lemma getDeltas_skips_recorded_delta :
  let baseVersion := λ _ : nat, 0 in
  let h := record baseVersion new_History
             [mkOperation (Some 1%nat); mkOperation (Some 2%nat)] in
  _deltas h = [1; 2]%nat ∧
  0 ∈ baseVersion <$> _deltas h ∧
  toArray h (getDeltas (Some 0)) = Return [2%nat].
Proof.
  split; [reflexivity|]. split; [by left|].
  by rewrite toArray_getDeltas.
Qed.

(** Two deltas (objects [1] and [2]) that both have [baseVersion] 0, each
    added with one operation: the second [set] overwrites the history point
    of the first, so delta [1] stands at index 0 while its [baseVersion]
    maps to index 1. *)
Lemma addOperation_shared_baseVersion :
  let baseVersion := λ _ : nat, 0 in
  let h := record baseVersion new_History
             [mkOperation (Some 1%nat); mkOperation (Some 2%nat)] in
  _deltas h = [1; 2]%nat ∧
  _deltas h !! 0%nat = Some 1%nat ∧
  _historyPoints h !! baseVersion 1%nat = Some 1%nat.
Proof. repeat split. Qed.

(** *** A sample history

    Deltas with a name, a [baseVersion] and a number of operations; the
    transformation of the sample keeps the transformed delta and moves its
    [baseVersion] behind the delta it is transformed by. *)

Record SampleDelta := mkSampleDelta {
  sampleName : string;
  sampleBaseVersion : Z;
  sampleLength : nat
}.

#[global] Instance SampleDelta_eq_dec : EqDecision SampleDelta.
Proof. solve_decision. Defined.

Definition sampleOperations (d : SampleDelta) : list (Operation SampleDelta) :=
  replicate (sampleLength d) (mkOperation (Some d)).

Definition sampleTransform (a b : SampleDelta) (isStrong : bool)
  : list SampleDelta :=
  [mkSampleDelta (sampleName a)
     (sampleBaseVersion b + Z.of_nat (sampleLength b)) (sampleLength a)].

Definition deltaA : SampleDelta := mkSampleDelta "a" 0 2.
Definition deltaB : SampleDelta := mkSampleDelta "b" 2 1.
Definition deltaC : SampleDelta := mkSampleDelta "c" 0 1.
Definition deltaD : SampleDelta := mkSampleDelta "d" 3 1.

(** The history after [deltaA] and [deltaB]. *)
Definition sampleHistory : list (Operation SampleDelta) :=
  sampleOperations deltaA ++ sampleOperations deltaB.

Lemma getTransformedDelta_up_to_date_sample :
  getTransformedDelta sampleBaseVersion sampleOperations sampleTransform
    (record sampleBaseVersion new_History (sampleOperations deltaA)) deltaB
  = Return [deltaB].
Proof.
  apply (getTransformedDelta_up_to_date sampleBaseVersion sampleOperations
           sampleTransform new_History deltaA deltaB).
  - split; [discriminate|]. vm_compute. repeat constructor.
  - reflexivity.
Defined.

Lemma getTransformedDelta_wrong_version_sample :
  (getTransformedDelta sampleBaseVersion sampleOperations sampleTransform
     (record sampleBaseVersion new_History sampleHistory)
     (mkSampleDelta "e" 1 1)
   = Throw history_wrong_version ↔
   sampleBaseVersion (mkSampleDelta "e" 1 1)
     ≠ sampleBaseVersion deltaB + Z.of_nat (length (sampleOperations deltaB)) ∧
   sampleBaseVersion (mkSampleDelta "e" 1 1)
     ∉ sampleBaseVersion
         <$> _deltas (record sampleBaseVersion new_History sampleHistory)) ∧
  (∀ e, getTransformedDelta sampleBaseVersion sampleOperations sampleTransform
          (record sampleBaseVersion new_History sampleHistory)
          (mkSampleDelta "e" 1 1) = Throw e →
        e = history_wrong_version).
Proof.
  apply (getTransformedDelta_wrong_version sampleBaseVersion sampleOperations
           sampleTransform sampleHistory deltaB (mkSampleDelta "e" 1 1)).
  - reflexivity.
  - split; vm_compute; discriminate.
Defined.

Lemma getTransformedDelta_concurrent_sample :
  getTransformedDelta sampleBaseVersion sampleOperations sampleTransform
    (record sampleBaseVersion new_History (sampleOperations deltaA)) deltaC
  = Return [mkSampleDelta "c" 2 1].
Proof.
  apply (getTransformedDelta_concurrent sampleBaseVersion sampleOperations
           sampleTransform new_History deltaC deltaA).
  - split; [discriminate|]. vm_compute. repeat constructor.
  - discriminate.
  - split; vm_compute; discriminate.
  - reflexivity.
Defined.

Lemma getTransformedDelta_incremental_sample :
  getTransformedDelta sampleBaseVersion sampleOperations sampleTransform
    (record sampleBaseVersion
       (record sampleBaseVersion new_History sampleHistory)
       (sampleOperations deltaD)) deltaC
  = Return [mkSampleDelta "c" 4 1].
Proof.
  apply (getTransformedDelta_incremental sampleBaseVersion sampleOperations
           sampleTransform sampleHistory deltaC deltaD
           [mkSampleDelta "c" 3 1] deltaB).
  - reflexivity.
  - split; vm_compute; discriminate.
  - split; vm_compute; discriminate.
  - vm_compute. discriminate.
  - reflexivity.
  - split; [discriminate|]. vm_compute. repeat constructor.
  - discriminate.
  - vm_compute. discriminate.
  - vm_compute. discriminate.
Defined.

Lemma getDeltas_from_version_sample :
  toArray (record sampleBaseVersion new_History sampleHistory)
    (getDeltas (Some 2))
  = Return (filter (λ d, 2 ≤ sampleBaseVersion d)
              (_deltas (record sampleBaseVersion new_History sampleHistory))).
Proof.
  apply (getDeltas_from_version sampleBaseVersion sampleHistory 2).
  - intros [|[|i]] [|[|j]] di dj Hij Hi Hj; simpl in *;
      try lia; try discriminate.
    injection Hi as <-. injection Hj as <-. vm_compute. reflexivity.
  - apply (bool_decide_unpack _). vm_compute. exact I.
Defined.

Lemma getDeltas_sees_later_deltas_sample :
  _deltas (record sampleBaseVersion new_History (sampleOperations deltaA))
    !! 0%nat = Some deltaA ∧
  ∃ added,
    _deltas (record sampleBaseVersion
               (record sampleBaseVersion new_History (sampleOperations deltaA))
               (sampleOperations deltaB))
    = _deltas (record sampleBaseVersion new_History (sampleOperations deltaA))
        ++ added ∧
    toArray (record sampleBaseVersion
               (record sampleBaseVersion new_History (sampleOperations deltaA))
               (sampleOperations deltaB))
      (SuspendedYield 0)
    = Return (drop 1 (_deltas (record sampleBaseVersion new_History
                                 (sampleOperations deltaA))) ++ added).
Proof.
  apply (getDeltas_sees_later_deltas sampleBaseVersion
           (record sampleBaseVersion new_History (sampleOperations deltaA))
           0 deltaA 0 (sampleOperations deltaB)).
  reflexivity.
Defined.

(** [deltaC] rebased on the sample history: it comes back transformed by
    [deltaA] and then by [deltaB]. *)
Lemma History_transform_is_weak_sample :
  getTransformedDelta sampleBaseVersion sampleOperations sampleTransform
    (record sampleBaseVersion new_History sampleHistory) deltaC
  = Return [mkSampleDelta "c" 3 1].
Proof.
  etrans.
  - apply (proj1 (proj2 (History_transform_is_weak sampleBaseVersion
                           sampleOperations sampleTransform))
             (record sampleBaseVersion new_History sampleHistory)
             deltaB deltaC 0%nat).
    + reflexivity.
    + split; vm_compute; discriminate.
    + vm_compute. discriminate.
    + reflexivity.
  - reflexivity.
Defined.

End HistoryModel.

(** ** The document tree, positions and operations *)

Module Model.

(** *** Nodes *)

(** Modelled from the spec: the node classes ([Element], [Text]) are not in
    this snapshot.  A tree has two kinds of node: an element (name,
    attribute map, ordered children) and text that carries one attribute
    set.  Offsets in a path count characters, and where a text run begins and
    ends is a normalisation detail, so text is stored one character per
    offset, each character with the attributes of its run. *)
Inductive Node :=
| Element (name : string) (attrs : gmap string string) (children : list Node)
| Character (c : Ascii.ascii) (attrs : gmap string string).

#[global] Instance Node_eq_dec : EqDecision Node.
Proof.
  refine (fix go (x y : Node) : Decision (x = y) :=
    match x, y with
    | Element n a ch, Element n' a' ch' =>
        cast_if_and3 (decide (n = n')) (decide (a = a'))
                     (@list_eq_dec _ go ch ch')
    | Character c a, Character c' a' =>
        cast_if_and (decide (c = c')) (decide (a = a'))
    | _, _ => right _
    end); congruence.
Defined.

(** [new Text( data, attrs )] as a sequence of children. *)
Definition Text (data : string) (attrs : gmap string string) : list Node :=
  (λ c, Character c attrs) <$> String.list_ascii_of_string data.

Definition getAttributes (n : Node) : gmap string string :=
  match n with
  | Element _ a _ => a
  | Character _ a => a
  end.

Definition setAttributes (a : gmap string string) (n : Node) : Node :=
  match n with
  | Element nm _ ch => Element nm a ch
  | Character c _ => Character c a
  end.

(** *** Positions and ranges *)

(** Modelled from the spec: the [Position] class is not in this snapshot.  A
    position is a root identifier and a non-empty path of offsets; the last
    offset is the position's [offset] in its parent, the offsets before it
    are the path of the parent. *)
Record Position := mkPosition { root : string; path : list nat }.

Record Range := mkRange { start : Position; end_ : Position }.

#[global] Instance Position_eq_dec : EqDecision Position.
Proof. solve_decision. Defined.
#[global] Instance Range_eq_dec : EqDecision Range.
Proof. solve_decision. Defined.

Definition getParentPath (p : list nat) : list nat := take (length p - 1) p.
Definition offset (p : list nat) : option nat := list.last p.

(** The children of the element that the path [p] leads to, starting from
    the children [f] of a root; [None] when the path does not resolve. *)
Fixpoint getChildren (p : list nat) (f : list Node) : option (list Node) :=
  match p with
  | [] => Some f
  | o :: p' =>
      match f !! o with
      | Some (Element _ _ ch) => getChildren p' ch
      | _ => None
      end
  end.

(** The tree in which the element that [p] leads to has the children [c]. *)
Fixpoint setChildren (p : list nat) (c : list Node) (f : list Node)
  : option (list Node) :=
  match p with
  | [] => Some c
  | o :: p' =>
      match f !! o with
      | Some (Element nm a ch) =>
          match setChildren p' c ch with
          | Some ch' => Some (<[o := Element nm a ch']> f)
          | None => None
          end
      | _ => None
      end
  end.

(** A position after [howMany] nodes were removed at the position [del] of
    the same root: offsets behind the removed range move back; [None] when
    the position was inside the removed range. *)
Fixpoint getTransformedByDeletion (p del : list nat) (howMany : nat)
  {struct del} : option (list nat) :=
  match del with
  | [] => Some p
  | d :: del' =>
      match p with
      | [] => Some p
      | o :: p' =>
          match del' with
          | [] =>
              match p' with
              | [] =>
                  if decide (d < o)%nat then
                    if decide (o < d + howMany)%nat then None
                    else Some [o - howMany]%nat
                  else Some p
              | _ =>
                  if decide (d ≤ o)%nat then
                    if decide (o < d + howMany)%nat then None
                    else Some ((o - howMany)%nat :: p')
                  else Some p
              end
          | _ =>
              if decide (d = o) then
                cons o <$> getTransformedByDeletion p' del' howMany
              else Some p
          end
      end
  end.

(** A position after [howMany] nodes were inserted at the position [ins] of
    the same root: offsets behind the insertion point move forward. *)
Fixpoint getTransformedByInsertion (p ins : list nat) (howMany : nat)
  {struct ins} : list nat :=
  match ins with
  | [] => p
  | i :: ins' =>
      match p with
      | [] => p
      | o :: p' =>
          match ins' with
          | [] =>
              match p' with
              | [] => if decide (i < o)%nat then [o + howMany]%nat else p
              | _ => if decide (i ≤ o)%nat then (o + howMany)%nat :: p' else p
              end
          | _ =>
              if decide (i = o) then
                o :: getTransformedByInsertion p' ins' howMany
              else p
          end
      end
  end.

(** *** The document and its operations *)

(** A position resolves in the tree: its parent exists and its offset is at
    most the number of children of the parent. *)
Definition isValid (t : list Node) (p : list nat) : bool :=
  match offset p, getChildren (getParentPath p) t with
  | Some off, Some ch => bool_decide (off ≤ length ch)%nat
  | _, _ => false
  end.

(** *** Document order *)

Inductive PositionRelation := same | before | after.

(** Modelled from the spec: [Position.compareWith] is not in this snapshot.
    Positions of one root are compared through their paths, by the rules of
    [compareArrays]: equal paths are the same position, a path that is a
    prefix of the other is before it, and otherwise the first differing
    offset decides. *)
Definition compareWith (a b : list nat) : PositionRelation :=
  match Utils.compareArrays a b with
  | Utils.SAME => same
  | Utils.PREFIX => before
  | Utils.EXTENSION => after
  | Utils.DIFFER i =>
      if decide (default 0 (a !! i) < default 0 (b !! i))%nat then before
      else after
  end.

#[global] Instance PositionRelation_eq_dec : EqDecision PositionRelation.
Proof. solve_decision. Defined.

(** *** Documents and operations *)

(** Modelled from the spec: the [Document] class is not in this snapshot.
    The document owns the named roots (each given by the children of its
    root element), the holding area that receives removed nodes, the
    markers and the version counter, which starts at 0. *)
Record Document := mkDocument {
  roots : gmap string (list Node);
  graveyard : list Node;
  markers : gmap string Range;
  version : Z
}.

Definition new_Document : Document :=
  {| roots := ∅; graveyard := []; markers := ∅; version := 0 |}.

(** Modelled from the spec: the operation classes are not in this snapshot.
    One constructor per variant of the table of operations, each with the
    [baseVersion] it expects; [ReinsertOperation] is the reverse of a
    removal. *)
Inductive Operation :=
| InsertOperation (position : Position) (nodes : list Node) (baseVersion : Z)
| RemoveOperation (sourcePosition : Position) (howMany : nat) (baseVersion : Z)
| ReinsertOperation (position : Position) (howMany : nat) (baseVersion : Z)
| MoveOperation (sourcePosition : Position) (howMany : nat)
                (targetPosition : Position) (baseVersion : Z)
| RenameOperation (position : Position) (oldName newName : string)
                  (baseVersion : Z)
| AttributeOperation (range : Range) (key : string)
                     (oldValue newValue : option string) (baseVersion : Z)
| MarkerOperation (name : string) (oldRange newRange : option Range)
                  (baseVersion : Z)
| NoOperation (baseVersion : Z).

Definition baseVersion (op : Operation) : Z :=
  match op with
  | InsertOperation _ _ v | RemoveOperation _ _ v | ReinsertOperation _ _ v
  | MoveOperation _ _ _ v | RenameOperation _ _ _ v
  | AttributeOperation _ _ _ _ v | MarkerOperation _ _ _ v
  | NoOperation v => v
  end.

(** Inserting the nodes [ns] at the path [p] of the tree [f]. *)
Definition insertAt (p : list nat) (ns : list Node) (f : list Node)
  : option (list Node) :=
  o ← offset p;
  ch ← getChildren (getParentPath p) f;
  if decide (o ≤ length ch)%nat then
    setChildren (getParentPath p) (take o ch ++ ns ++ drop o ch) f
  else None.

(** Detaching [howMany] nodes at the path [p] of the tree [f]: the detached
    nodes and the remaining tree. *)
Definition removeAt (p : list nat) (howMany : nat) (f : list Node)
  : option (list Node * list Node) :=
  o ← offset p;
  ch ← getChildren (getParentPath p) f;
  if decide (o + howMany ≤ length ch)%nat then
    f' ← setChildren (getParentPath p) (take o ch ++ drop (o + howMany) ch) f;
    Some (take howMany (drop o ch), f')
  else None.

(** The position at which the moved nodes start after a move. *)
Definition getMovedRangeStart (sourcePosition : Position) (howMany : nat)
    (targetPosition : Position) : option (list nat) :=
  if decide (root sourcePosition = root targetPosition) then
    getTransformedByDeletion (path targetPosition) (path sourcePosition) howMany
  else Some (path targetPosition).

Definition setAttribute (key : string) (value : option string) (n : Node) : Node :=
  setAttributes
    (match value with
     | Some v => <[key := v]> (getAttributes n)
     | None => delete key (getAttributes n)
     end) n.

(** Modelled from the spec: the iteration over the items of a range is not
    in this snapshot.  The items of a range are the nodes that begin in it:
    the node at the path [p] is one of them when the position before it is
    not before the start of the range and is before its end.  A range whose
    ends lie at different depths has items at every level it spans, and an
    element that begins in the range is an item together with the nodes
    below it that begin before the end of the range. *)
Definition isItem (range : Range) (p : list nat) : bool :=
  bool_decide (compareWith p (path (start range)) ≠ before
               ∧ compareWith p (path (end_ range)) = before).

(** The node [n], which stands at the path [p], with the attribute [key] set
    to [value] (or removed) on every node that [items] selects by its
    path. *)
Fixpoint setAttributeOn (items : list nat → bool) (key : string)
    (value : option string) (p : list nat) (n : Node) : Node :=
  let n' :=
    match n with
    | Element nm a ch =>
        Element nm a
          ((fix children (i : nat) (l : list Node) : list Node :=
              match l with
              | [] => []
              | c :: l' =>
                  setAttributeOn items key value (p ++ [i]) c
                  :: children (S i) l'
              end) 0%nat ch)
    | Character _ _ => n
    end in
  if items p then setAttribute key value n' else n'.

(** The same for the nodes [l] that are children of the element at the path
    [p], the first of them at the offset [i]. *)
Definition setAttributeOnAll (items : list nat → bool) (key : string)
    (value : option string) (p : list nat) : nat → list Node → list Node :=
  fix children (i : nat) (l : list Node) : list Node :=
    match l with
    | [] => []
    | c :: l' =>
        setAttributeOn items key value (p ++ [i]) c :: children (S i) l'
    end.

(** Every node that [items] selects has the value [value] (or no value) for
    the attribute [key]. *)
Fixpoint haveAttribute (items : list nat → bool) (key : string)
    (value : option string) (p : list nat) (n : Node) : bool :=
  (if items p then bool_decide (getAttributes n !! key = value) else true)
  && match n with
     | Element _ _ ch =>
         (fix children (i : nat) (l : list Node) : bool :=
            match l with
            | [] => true
            | c :: l' =>
                haveAttribute items key value (p ++ [i]) c
                && children (S i) l'
            end) 0%nat ch
     | Character _ _ => true
     end.

Definition allHaveAttribute (items : list nat → bool) (key : string)
    (value : option string) (p : list nat) : nat → list Node → bool :=
  fix children (i : nat) (l : list Node) : bool :=
    match l with
    | [] => true
    | c :: l' =>
        haveAttribute items key value (p ++ [i]) c && children (S i) l'
    end.

(** Modelled from the spec: the [_execute] methods of the operation classes
    are not in this snapshot.  The tree mutation of each variant, after the
    table of operations; [None] when the target does not resolve in the
    tree (or, for the variants that carry the prior state, when the tree
    does not have that state).  An attribute operation works on the items
    of its range, which may be flat or span several levels. *)
Definition _execute (doc : Document) (op : Operation) : option Document :=
  match op with
  | InsertOperation position nodes _ =>
      f ← roots doc !! root position;
      f' ← insertAt (path position) nodes f;
      Some {| roots := <[root position := f']> (roots doc);
              graveyard := graveyard doc;
              markers := markers doc; version := version doc |}
  | RemoveOperation sourcePosition howMany _ =>
      f ← roots doc !! root sourcePosition;
      '(ns, f') ← removeAt (path sourcePosition) howMany f;
      Some {| roots := <[root sourcePosition := f']> (roots doc);
              graveyard := ns ++ graveyard doc;
              markers := markers doc; version := version doc |}
  | ReinsertOperation position howMany _ =>
      if decide (howMany ≤ length (graveyard doc))%nat then
        f ← roots doc !! root position;
        f' ← insertAt (path position) (take howMany (graveyard doc)) f;
        Some {| roots := <[root position := f']> (roots doc);
                graveyard := drop howMany (graveyard doc);
                markers := markers doc; version := version doc |}
      else None
  | MoveOperation sourcePosition howMany targetPosition _ =>
      f ← roots doc !! root sourcePosition;
      '(ns, f') ← removeAt (path sourcePosition) howMany f;
      let roots1 := <[root sourcePosition := f']> (roots doc) in
      target ← getMovedRangeStart sourcePosition howMany targetPosition;
      g ← roots1 !! root targetPosition;
      g' ← insertAt target ns g;
      Some {| roots := <[root targetPosition := g']> roots1;
              graveyard := graveyard doc;
              markers := markers doc; version := version doc |}
  | RenameOperation position oldName newName _ =>
      f ← roots doc !! root position;
      o ← offset (path position);
      ch ← getChildren (getParentPath (path position)) f;
      match ch !! o with
      | Some (Element nm a c) =>
          if decide (nm = oldName) then
            f' ← setChildren (getParentPath (path position))
                             (<[o := Element newName a c]> ch) f;
            Some {| roots := <[root position := f']> (roots doc);
                    graveyard := graveyard doc;
                    markers := markers doc; version := version doc |}
          else None
      | _ => None
      end
  | AttributeOperation range key oldValue newValue _ =>
      f ← roots doc !! root (start range);
      if bool_decide (root (start range) = root (end_ range))
         && isValid f (path (start range))
         && isValid f (path (end_ range))
         && allHaveAttribute (isItem range) key oldValue [] 0 f then
        Some {| roots := <[root (start range)
                           := setAttributeOnAll (isItem range) key newValue [] 0 f]>
                           (roots doc);
                graveyard := graveyard doc;
                markers := markers doc; version := version doc |}
      else None
  | MarkerOperation name oldRange newRange _ =>
      if decide (markers doc !! name = oldRange) then
        Some {| roots := roots doc; graveyard := graveyard doc;
                markers := match newRange with
                           | Some r => <[name := r]> (markers doc)
                           | None => delete name (markers doc)
                           end;
                version := version doc |}
      else None
  | NoOperation _ => Some doc
  end.

Definition wrong_version : Error :=
  CKEditorError "document-applyOperation-wrong-version".
Definition invalid_target : Error :=
  CKEditorError "operation-invalid-target".

(** Modelled from the spec: [Document.applyOperation] is not in this
    snapshot.  It rejects an operation whose [baseVersion] is not the
    document's version; otherwise it executes the tree mutation, which
    either happens as a whole or not at all, and increments the version by
    one.  (The notification of the history does not touch the tree or the
    version; the history is the subject of [HistoryModel].) *)
Definition applyOperation (doc : Document) (op : Operation)
  : completion Document :=
  if decide (baseVersion op ≠ version doc) then Throw wrong_version
  else
    match _execute doc op with
    | None => Throw invalid_target
    | Some doc' =>
        Return {| roots := roots doc'; graveyard := graveyard doc';
                  markers := markers doc'; version := version doc + 1 |}
    end.

(** Modelled from the spec: the [getReversed] methods of the operation
    classes are not in this snapshot.  The reverse of each variant, after
    the table of operations. *)
Definition getReversed (op : Operation) : Operation :=
  match op with
  | InsertOperation position nodes v =>
      RemoveOperation position (length nodes) (v + 1)
  | RemoveOperation sourcePosition howMany v =>
      ReinsertOperation sourcePosition howMany (v + 1)
  | ReinsertOperation position howMany v =>
      RemoveOperation position howMany (v + 1)
  | MoveOperation sourcePosition howMany targetPosition v =>
      let movedRangeStart :=
        default (path targetPosition)
                (getMovedRangeStart sourcePosition howMany targetPosition) in
      let newTargetPath :=
        if decide (root sourcePosition = root targetPosition) then
          getTransformedByInsertion (path sourcePosition)
                                    (path targetPosition) howMany
        else path sourcePosition in
      MoveOperation (mkPosition (root targetPosition) movedRangeStart) howMany
                    (mkPosition (root sourcePosition) newTargetPath) (v + 1)
  | RenameOperation position oldName newName v =>
      RenameOperation position newName oldName (v + 1)
  | AttributeOperation range key oldValue newValue v =>
      AttributeOperation range key newValue oldValue (v + 1)
  | MarkerOperation name oldRange newRange v =>
      MarkerOperation name newRange oldRange (v + 1)
  | NoOperation v => NoOperation (v + 1)
  end.

(** *** Reading and replacing the children of an element *)




Lemma setChildren_is_Some p c f :
  is_Some (getChildren p f) → is_Some (setChildren p c f).
Proof.
  revert f. induction p as [|o p IH]; intros f; simpl; [by eauto|].
  destruct (f !! o) as [[nm a ch|]|] eqn:Ho; try by intros [? ?].
  intros Hg. destruct (IH _ Hg) as [ch' ->]. eauto.
Qed.


(** *** Inserting and detaching nodes *)



(** *** Positions across a removal and an insertion *)





(** *** Attributes over a range *)






Section attribute.
Variable items : list nat → bool.
Variable key : string.













End attribute.

(** *** An operation followed by its reverse *)







(** The scenarios of the test-suite of [InsertOperation]. *)
Definition emptyRoot : Document :=
  {| roots := {["root" := []]}; graveyard := []; markers := ∅; version := 0 |}.

Definition insert_x : Operation :=
  InsertOperation (mkPosition "root" [0%nat]) (Text "x" ∅) 0.

Definition insert_foo_x_bar : Operation :=
  InsertOperation (mkPosition "root" [0%nat])
                  (Text "foo" ∅ ++ Text "x" ∅ ++ Text "bar" ∅) 0.

Example should_insert_node :
  applyOperation emptyRoot insert_x
  = Return {| roots := {["root" := Text "x" ∅]}; graveyard := [];
              markers := ∅; version := 1 |}.
Proof. reflexivity. Qed.

Example should_insert_between_existing_nodes :
  applyOperation
    {| roots := {["root" := Text "xy" ∅]}; graveyard := []; markers := ∅;
       version := 0 |}
    (InsertOperation (mkPosition "root" [1%nat]) (Text "bar" ∅) 0)
  = Return {| roots := {["root" := Text "xbary" ∅]}; graveyard := [];
              markers := ∅; version := 1 |}.
Proof. reflexivity. Qed.

Example should_create_a_RemoveOperation_as_a_reverse :
  getReversed insert_foo_x_bar
  = RemoveOperation (mkPosition "root" [0%nat]) 7 1.
Proof. reflexivity. Qed.

Example should_undo_insert_by_applying_reverse :
  bind (applyOperation emptyRoot insert_foo_x_bar)
       (λ doc, applyOperation doc (getReversed insert_foo_x_bar))
  = Return {| roots := {["root" := []]};
              graveyard := Text "fooxbar" ∅; markers := ∅; version := 2 |}.
Proof. reflexivity. Qed.

(** The scenarios of an [AttributeOperation] on the tree
    [<p>ab</p><p>cd</p>]: over the range from [0, 1] to [1, 1], whose ends
    lie in two paragraphs, the attribute is set on [b], on the second
    paragraph, which begins in the range, and on [c]. *)
Definition twoParagraphs : Document :=
  {| roots := {["root" := [Element "p" ∅ (Text "ab" ∅);
                           Element "p" ∅ (Text "cd" ∅)]]};
     graveyard := []; markers := ∅; version := 0 |}.

Definition bold_b_to_c : Operation :=
  AttributeOperation
    (mkRange (mkPosition "root" [0; 1]%nat) (mkPosition "root" [1; 1]%nat))
    "bold" None (Some "true") 0.

Example should_set_attribute_over_two_levels :
  applyOperation twoParagraphs bold_b_to_c
  = Return {| roots :=
                {["root" :=
                    [Element "p" ∅
                       (Text "a" ∅ ++ Text "b" {["bold" := "true"]});
                     Element "p" {["bold" := "true"]}
                       (Text "c" {["bold" := "true"]} ++ Text "d" ∅)]]};
              graveyard := []; markers := ∅; version := 1 |}.
Proof. reflexivity. Qed.

Example should_reject_attribute_with_wrong_old_value :
  applyOperation twoParagraphs
    (AttributeOperation
       (mkRange (mkPosition "root" [0; 1]%nat) (mkPosition "root" [1; 1]%nat))
       "bold" (Some "true") None 0)
  = Throw invalid_target.
Proof. reflexivity. Qed.

Example should_undo_attribute_over_two_levels :
  bind (applyOperation twoParagraphs bold_b_to_c)
       (λ doc, applyOperation doc (getReversed bold_b_to_c))
  = Return {| roots := roots twoParagraphs; graveyard := [];
              markers := ∅; version := 2 |}.
Proof. reflexivity. Qed.


End Model.

(** ** Deltas and batches *)

Module Deltas.
Import Model.

(** Modelled from the spec: the delta classes are not in this snapshot.  The
    fixed set of delta variants. *)
Inductive DeltaKind :=
| InsertDelta
| RemoveDelta
| MoveDelta
| SplitDelta
| MergeDelta
| RenameDelta
| AttributeDelta
| MarkerDelta
| CombinedDelta.

#[global] Instance DeltaKind_eq_dec : EqDecision DeltaKind.
Proof. solve_decision. Defined.

(** Modelled from the spec: a delta is the ordered list of its operations
    (insertion order is application order) and the variant it belongs to. *)
Record Delta := mkDelta {
  kind : DeltaKind;
  operations : list Operation
}.

(** [new SplitDelta()] and the like: a delta with no operations. *)
Definition new_Delta (k : DeltaKind) : Delta :=
  {| kind := k; operations := [] |}.

(** Modelled from the spec: the reversal of deltas is a mapping between
    delta kinds; a split and a merge reverse each other, as do an insertion
    and a removal, the other kinds reverse to themselves. *)
Definition _reverseDeltaClass (k : DeltaKind) : DeltaKind :=
  match k with
  | InsertDelta => RemoveDelta
  | RemoveDelta => InsertDelta
  | SplitDelta => MergeDelta
  | MergeDelta => SplitDelta
  | MoveDelta => MoveDelta
  | RenameDelta => RenameDelta
  | AttributeDelta => AttributeDelta
  | MarkerDelta => MarkerDelta
  | CombinedDelta => CombinedDelta
  end.

(** [delta.baseVersion]: the [baseVersion] of the first operation, [null]
    for a delta without operations. *)
Definition baseVersion (d : Delta) : option Z :=
  Model.baseVersion <$> head (operations d).

Definition setBaseVersion (v : Z) (op : Operation) : Operation :=
  match op with
  | InsertOperation p ns _ => InsertOperation p ns v
  | RemoveOperation p n _ => RemoveOperation p n v
  | ReinsertOperation p n _ => ReinsertOperation p n v
  | MoveOperation s n t _ => MoveOperation s n t v
  | RenameOperation p o n _ => RenameOperation p o n v
  | AttributeOperation r k o n _ => AttributeOperation r k o n v
  | MarkerOperation nm o n _ => MarkerOperation nm o n v
  | NoOperation _ => NoOperation v
  end.

(** The location an operation acts on. *)
Definition location (op : Operation) : option Position :=
  match op with
  | InsertOperation p _ _ | ReinsertOperation p _ _ | RenameOperation p _ _ _ =>
      Some p
  | RemoveOperation s _ _ | MoveOperation s _ _ _ => Some s
  | AttributeOperation r _ _ _ _ => Some (start r)
  | MarkerOperation _ _ _ _ | NoOperation _ => None
  end.

(** Modelled from the spec: [delta.position] is derived from the operations
    and not stored; it is [null] for a delta without operations.  For a
    split delta it is the source position of its move operation (the second
    operation), as the test-suite of [SplitDelta] has it; for the other
    kinds it is the location of the first operation. *)
Definition position (d : Delta) : option Position :=
  match kind d with
  | SplitDelta =>
      match operations d !! 1%nat with
      | Some (MoveOperation sourcePosition _ _ _) => Some sourcePosition
      | _ => None
      end
  | _ => head (operations d) ≫= location
  end.

(** Modelled from the spec: [Delta.getReversed] is not in this snapshot.  The
    reversed delta is of the designated inverse kind; its operations are the
    reverses of the delta's operations, last operation first, with
    consecutive base versions that follow the last operation of the delta. *)
Definition getReversed (d : Delta) : Delta :=
  {| kind := _reverseDeltaClass (kind d);
     operations :=
       match list.last (operations d) with
       | None => []
       | Some lastOp =>
           imap (λ i op, setBaseVersion (Model.baseVersion lastOp + 1 + Z.of_nat i) op)
                (reverse (Model.getReversed <$> operations d))
       end |}.

(** Modelled from the spec: a batch is the ordered sequence of the deltas of
    one user action, built on a document. *)
Record Batch := mkBatch {
  document : Document;
  deltas : list Delta
}.

(** [doc.batch()] *)
Definition batch (doc : Document) : Batch :=
  {| document := doc; deltas := [] |}.

Definition batch_split_root : Error := CKEditorError "batch-split-root".

(** The node that stands right after the position [p]. *)
Definition getNode (p : list nat) (f : list Node) : option Node :=
  ch ← getChildren (getParentPath p) f;
  o ← offset p;
  ch !! o.

(** Modelled from the spec: [Batch.split] is not in this snapshot.  Splitting
    at a position splits the parent of the position: a copy of the parent
    (same name, same attributes, no children) is inserted right after it
    and the children behind the position are moved into the copy.  A root
    has no parent that could receive the copy: a position directly under
    the root is rejected before anything is applied.  The result is the
    batch after the call and the exception, if one was thrown. *)
Definition split (b : Batch) (position : Position) : Batch * option Error :=
  let doc := document b in
  let parentPath := getParentPath (path position) in
  match parentPath with
  | [] => (b, Some batch_split_root)
  | _ :: _ =>
      match roots doc !! root position ≫= getNode parentPath,
            offset (path position), offset parentPath with
      | Some (Element name attrs children), Some o, Some parentOffset =>
          let after := getParentPath parentPath ++ [S parentOffset] in
          let insert :=
            InsertOperation (mkPosition (root position) after)
                            [Element name attrs []] (version doc) in
          match applyOperation doc insert with
          | Throw e => (b, Some e)
          | Return doc1 =>
              let move :=
                MoveOperation position (length children - o)
                              (mkPosition (root position) (after ++ [0%nat]))
                              (version doc1) in
              match applyOperation doc1 move with
              | Throw e =>
                  ({| document := doc1;
                      deltas := deltas b ++ [mkDelta SplitDelta [insert]] |},
                   Some e)
              | Return doc2 =>
                  ({| document := doc2;
                      deltas := deltas b ++ [mkDelta SplitDelta [insert; move]] |},
                   None)
              end
          end
      | _, _, _ => (b, Some invalid_target)
      end
  end.

(** *** The scenarios of the test-suite of [SplitDelta] *)

(** A document whose root has one child, [<p key="value">foobar</p>]. *)
Definition foobar : Document :=
  {| roots := {["main" := [Element "p" {["key" := "value"]} (Text "foobar" ∅)]]};
     graveyard := []; markers := ∅; version := 0 |}.

Example should_split_foobar_to_foo_and_bar :
  split (batch foobar) (mkPosition "main" [0; 3]%nat)
  = ({| document :=
          {| roots := {["main" := [Element "p" {["key" := "value"]} (Text "foo" ∅);
                                   Element "p" {["key" := "value"]} (Text "bar" ∅)]]};
             graveyard := []; markers := ∅; version := 2 |};
        deltas :=
          [mkDelta SplitDelta
             [InsertOperation (mkPosition "main" [1%nat])
                              [Element "p" {["key" := "value"]} []] 0;
              MoveOperation (mkPosition "main" [0; 3]%nat) 3
                            (mkPosition "main" [1; 0]%nat) 1]] |},
     None).
Proof. reflexivity. Qed.

Example should_create_an_empty_paragraph_if_we_split_at_the_end :
  roots (document (split (batch foobar) (mkPosition "main" [0; 6]%nat)).1)
  = {["main" := [Element "p" {["key" := "value"]} (Text "foobar" ∅);
                 Element "p" {["key" := "value"]} []]]}.
Proof. reflexivity. Qed.

Example should_throw_if_we_try_to_split_a_root :
  split (batch foobar) (mkPosition "main" [0%nat])
  = (batch foobar, Some batch_split_root).
Proof. reflexivity. Qed.

Definition splitDelta_1_1_4 : Delta :=
  mkDelta SplitDelta
    [InsertOperation (mkPosition "main" [1; 2]%nat) [Element "p" ∅ []] 0;
     MoveOperation (mkPosition "main" [1; 1; 4]%nat) 4
                   (mkPosition "main" [1; 2; 0]%nat) 1].

Example position_should_be_equal_to_the_position_where_node_is_split :
  position splitDelta_1_1_4 = Some (mkPosition "main" [1; 1; 4]%nat).
Proof. reflexivity. Qed.

Example getReversed_should_return_correct_MergeDelta :
  getReversed splitDelta_1_1_4
  = mkDelta MergeDelta
      [MoveOperation (mkPosition "main" [1; 2; 0]%nat) 4
                     (mkPosition "main" [1; 1; 4]%nat) 2;
       RemoveOperation (mkPosition "main" [1; 2]%nat) 1 3].
Proof. reflexivity. Qed.

(** Applying a split and then the operations of its reverse restores the
    single node with its content and attributes. *)
Example split_then_reversed_restores_foobar :
  let b := (split (batch foobar) (mkPosition "main" [0; 3]%nat)).1 in
  (d ← head (deltas b);
   Some (foldl (λ c op, bind c (λ doc, applyOperation doc op))
               (Return (document b)) (operations (getReversed d))))
  = Some (Return {| roots := roots foobar;
                    graveyard := [Element "p" {["key" := "value"]} []];
                    markers := ∅; version := 4 |}).
Proof. reflexivity. Qed.

(** *** Theorems *)

(** C5 — in a document whose root has exactly one child, an element with
    the attribute [key = "value"] (and no other) that contains the text
    "foobar", a split at offset 3 inside that element succeeds and leaves a
    root with two children, both with the name and the attribute of the
    element, the first containing "foo" and the second "bar". *)
Theorem split_foobar (b : Batch) (rootName name : string)
    (a : gmap string string) :
  roots (document b) !! rootName
    = Some [Element name {["key" := "value"]} (Text "foobar" a)] →
  ∃ b', split b (mkPosition rootName [0; 3]%nat) = (b', None)
        ∧ roots (document b') !! rootName
          = Some [Element name {["key" := "value"]} (Text "foo" a);
                  Element name {["key" := "value"]} (Text "bar" a)]
        ∧ length (default [] (roots (document b') !! rootName)) = 2%nat.
Proof.
  intros Hroot. unfold split. simpl. rewrite Hroot. simpl.
  unfold applyOperation at 1. simpl. case_decide as Hv; [done|]. clear Hv.
  rewrite Hroot. simpl.
  unfold applyOperation at 1. simpl. case_decide as Hv; [done|]. clear Hv.
  rewrite lookup_insert_eq. simpl.
  unfold getMovedRangeStart. simpl.
  rewrite decide_True by done. simpl. rewrite lookup_insert_eq. simpl.
  eexists. split; [done|]. simpl. rewrite lookup_insert_eq. done.
Qed.

Lemma split_foobar_scenario :
  roots (document (batch foobar)) !! "main"
    = Some [Element "p" {["key" := "value"]} (Text "foobar" ∅)]
  ∧ ∃ b', split (batch foobar) (mkPosition "main" [0; 3]%nat) = (b', None)
          ∧ roots (document b') !! "main"
            = Some [Element "p" {["key" := "value"]} (Text "foo" ∅);
                    Element "p" {["key" := "value"]} (Text "bar" ∅)]
          ∧ length (default [] (roots (document b') !! "main")) = 2%nat.
Proof.
  split; [reflexivity|].
  apply (split_foobar (batch foobar) "main" "p" ∅). reflexivity.
Defined.

(** C7 — a split at a position whose path has length 1 throws
    [batch-split-root]; the batch, and with it the document and its tree,
    is what it was before the call: no operation was applied. *)
Theorem split_root_rejected (b : Batch) (position : Position) :
  length (path position) = 1%nat →
  split b position = (b, Some batch_split_root).
Proof.
  intros Hlen. unfold split, getParentPath. by rewrite Hlen.
Qed.

Lemma split_root_rejected_foobar :
  length (path (mkPosition "main" [0%nat])) = 1%nat
  ∧ split (batch foobar) (mkPosition "main" [0%nat])
    = (batch foobar, Some batch_split_root).
Proof.
  split; [reflexivity|].
  apply (split_root_rejected (batch foobar) (mkPosition "main" [0%nat])).
  reflexivity.
Defined.

(** C9 — a delta with no operations is an ordinary value: its position is
    [null], and its reverse is the delta with no operations of the
    designated inverse kind; the inverse kind of a split delta is the merge
    delta. *)
Theorem empty_delta_reversed (k : DeltaKind) :
  position (new_Delta k) = None
  ∧ getReversed (new_Delta k) = new_Delta (_reverseDeltaClass k)
  ∧ operations (getReversed (new_Delta k)) = []
  ∧ getReversed (new_Delta SplitDelta) = new_Delta MergeDelta.
Proof. by destruct k. Qed.

End Deltas.

(** ** The tree walker *)

Module TreeWalker.
Import Model.

Inductive Direction := FORWARD | BACKWARD.

Inductive ValueType := ELEMENT_START | ELEMENT_END | TEXT | CHARACTER.

(** The item of a traversal event: an element, or text with its attributes
    (one character for a [CHARACTER] event). *)
Inductive Item :=
| ElementItem (element : Node)
| TextItem (text : list Ascii.ascii) (attrs : gmap string string).

(** Modelled from the spec: the [TreeWalker] class is not in this snapshot.
    A traversal event carries its type, the traversed item and the
    positions immediately before and after the item in the document; its
    length is 1 for an element start or a character, the number of
    characters for text, and undefined for an element end. *)
Record Value := mkValue {
  type : ValueType;
  item : Item;
  previousPosition : list nat;
  nextPosition : list nat;
  length_ : option nat
}.

(** Modelled from the spec: the options of a walker over the tree of one
    root: a bounding range (start and end path) or a start position, a
    direction and the three flags. *)
Record Options := mkOptions {
  boundaries : option (list nat * list nat);
  startPosition : option (list nat);
  direction : Direction;
  singleCharacters : bool;
  shallow : bool;
  ignoreElementEnd : bool
}.

#[global] Instance Item_eq_dec : EqDecision Item.
Proof.
  intros [e1|t1 a1] [e2|t2 a2]; try (right; congruence).
  - destruct (decide (e1 = e2)); [left|right]; congruence.
  - destruct (decide (t1 = t2)); [|right; congruence].
    destruct (decide (a1 = a2)); [left|right]; congruence.
Defined.
#[global] Instance ValueType_eq_dec : EqDecision ValueType.
Proof. solve_decision. Defined.
#[global] Instance Value_eq_dec : EqDecision Value.
Proof. solve_decision. Defined.

(** What the walker does at a position: the traversal is over, it moves
    without an event (an element end that is ignored), it emits an event
    and moves, or the position does not resolve in the tree. *)
Inductive Step :=
| Done
| Silent (position : list nat)
| Emit (value : Value) (position : list nat)
| Stuck.

(** The number of leading characters of [l] that carry the attributes [a]. *)
Fixpoint runLength (a : gmap string string) (l : list Node) : nat :=
  match l with
  | Character _ a' :: l' => if decide (a' = a) then S (runLength a l') else O
  | _ => O
  end.

Definition characters (l : list Node) : list Ascii.ascii :=
  omap (λ n, match n with Character c _ => Some c | _ => None end) l.

(** The node right after a position, see [Deltas.getNode]. *)
Definition nodeAt (p : list nat) (t : list Node) : option Node :=
  ch ← getChildren (getParentPath p) t;
  o ← offset p;
  ch !! o.

(** The number of characters of a forward text run of [k] characters from
    the offset [off] of the parent [parent] that lie inside the boundaries. *)
Definition cutAtEnd (o : Options) (parent : list nat) (off k : nat) : nat :=
  match boundaries o with
  | Some (_, e) =>
      match offset e with
      | Some eo =>
          if decide (getParentPath e = parent ∧ (off < eo < off + k)%nat)
          then (eo - off)%nat else k
      | None => k
      end
  | None => k
  end.

(** The same for a backward text run of [k] characters that ends at [off]. *)
Definition cutAtStart (o : Options) (parent : list nat) (off k : nat) : nat :=
  match boundaries o with
  | Some (s, _) =>
      match offset s with
      | Some so =>
          if decide (getParentPath s = parent ∧ (off - k < so < off)%nat)
          then (off - so)%nat else k
      | None => k
      end
  | None => k
  end.

(** Modelled from the spec: one forward move of the walker from the
    position [p].  The traversal is over at the end of the root and at the
    end of the boundaries.  An element is entered with an element-start
    event, or passed as a whole when the walker is shallow; characters give
    a character event each, or one text event for the longest run with the
    same attributes inside the boundaries; at the end of an element the
    walker leaves it, with an element-end event unless those are ignored. *)
Definition _next (o : Options) (t : list Node) (p : list nat) : Step :=
  let parent := getParentPath p in
  match offset p, getChildren parent t with
  | Some off, Some ch =>
      if decide (parent = [] ∧ off = length ch) then Done
      else if decide (snd <$> boundaries o = Some p) then Done
      else
        match ch !! off with
        | Some (Element nm a c) =>
            let next := if shallow o then parent ++ [S off] else p ++ [0%nat] in
            Emit (mkValue ELEMENT_START (ElementItem (Element nm a c)) p next
                          (Some 1%nat)) next
        | Some (Character c a) =>
            if singleCharacters o then
              Emit (mkValue CHARACTER (TextItem [c] a) p (parent ++ [S off])
                            (Some 1%nat)) (parent ++ [S off])
            else
              let k := cutAtEnd o parent off (runLength a (drop off ch)) in
              Emit (mkValue TEXT (TextItem (characters (take k (drop off ch))) a)
                            p (parent ++ [off + k]%nat) (Some k))
                   (parent ++ [off + k]%nat)
        | None =>
            match nodeAt parent t, offset parent with
            | Some e, Some parentOffset =>
                let next := getParentPath parent ++ [S parentOffset] in
                if ignoreElementEnd o then Silent next
                else Emit (mkValue ELEMENT_END (ElementItem e) p next None) next
            | _, _ => Stuck
            end
        end
  | _, _ => Stuck
  end.

(** Modelled from the spec: one backward move of the walker from the
    position [p], the mirror image of [_next]: the traversal is over at the
    beginning of the root and at the start of the boundaries; an element is
    entered from its end, with an element-end event unless those are
    ignored, or passed as a whole when the walker is shallow; at the
    beginning of an element the walker leaves it with an element-start
    event.  The events are those of the forward direction: their positions
    are the positions before and after the item in the document. *)
Definition _previous (o : Options) (t : list Node) (p : list nat) : Step :=
  let parent := getParentPath p in
  match offset p, getChildren parent t with
  | Some off, Some ch =>
      if decide (parent = [] ∧ off = 0%nat) then Done
      else if decide (fst <$> boundaries o = Some p) then Done
      else
        match off with
        | O =>
            match nodeAt parent t with
            | Some e =>
                Emit (mkValue ELEMENT_START (ElementItem e) parent p
                              (Some 1%nat)) parent
            | None => Stuck
            end
        | S off' =>
            match ch !! off' with
            | Some (Element nm a c) =>
                if shallow o then
                  Emit (mkValue ELEMENT_START (ElementItem (Element nm a c))
                                (parent ++ [off']) p (Some 1%nat))
                       (parent ++ [off'])
                else
                  let next := parent ++ [off'; length c] in
                  if ignoreElementEnd o then Silent next
                  else Emit (mkValue ELEMENT_END (ElementItem (Element nm a c))
                                     next p None) next
            | Some (Character c a) =>
                if singleCharacters o then
                  Emit (mkValue CHARACTER (TextItem [c] a) (parent ++ [off']) p
                                (Some 1%nat)) (parent ++ [off'])
                else
                  let k := cutAtStart o parent off
                             (runLength a (reverse (take off ch))) in
                  Emit (mkValue TEXT
                          (TextItem (characters (take k (drop (off - k) ch))) a)
                          (parent ++ [off - k]%nat) p (Some k))
                       (parent ++ [off - k]%nat)
            | None => Stuck
            end
        end
  | _, _ => Stuck
  end.

(** The values that a walker produces from the position [p], by at most
    [fuel] moves; [None] when the moves do not end with the traversal being
    over. *)
Fixpoint values (step : list nat → Step) (fuel : nat) (p : list nat)
  : option (list Value) :=
  match fuel with
  | O => None
  | S fuel' =>
      match step p with
      | Done => Some []
      | Silent p' => values step fuel' p'
      | Emit v p' => cons v <$> values step fuel' p'
      | Stuck => None
      end
  end.

Definition no_start_position : Error :=
  CKEditorError "tree-walker-no-start-position".

(** Modelled from the spec: [new TreeWalker( options )] followed by the
    iteration of the walker to its end.  The walker starts at the start
    position, or at the start of its boundaries; it needs one of them. *)
Definition walk (o : Options) (t : list Node) (fuel : nat)
  : completion (option (list Value)) :=
  match startPosition o, boundaries o with
  | None, None => Throw no_start_position
  | Some p, _ | None, Some (p, _) =>
      Return (values (match direction o with
                      | FORWARD => _next o t
                      | BACKWARD => _previous o t
                      end) fuel p)
  end.

(** *** Paths *)

Lemma path_snoc (pp : list nat) (off : nat) :
  getParentPath (pp ++ [off]) = pp ∧ offset (pp ++ [off]) = Some off.
Proof.
  unfold getParentPath, offset. rewrite length_app. simpl. split.
  - replace (length pp + 1 - 1)%nat with (length pp) by lia.
    by rewrite take_app_length.
  - apply last_snoc.
Qed.

Lemma offset_Some p off : offset p = Some off → p = getParentPath p ++ [off].
Proof.
  unfold offset. intros (pp & ->)%last_Some.
  by rewrite (proj1 (path_snoc pp off)).
Qed.

Lemma getChildren_app p q t :
  getChildren (p ++ q) t = getChildren p t ≫= getChildren q.
Proof.
  revert t. induction p as [|o p IH]; intros t; simpl; [done|].
  destruct (t !! o) as [[nm a ch|]|]; simpl; auto.
Qed.

Lemma getChildren_snoc pp o t ch nm a c :
  getChildren pp t = Some ch → ch !! o = Some (Element nm a c) →
  getChildren (pp ++ [o]) t = Some c.
Proof. intros Hg Ho. rewrite getChildren_app, Hg. simpl. by rewrite Ho. Qed.

Lemma getChildren_snoc_inv pp o t c :
  getChildren (pp ++ [o]) t = Some c →
  ∃ ch nm a, getChildren pp t = Some ch ∧ ch !! o = Some (Element nm a c).
Proof.
  rewrite getChildren_app. destruct (getChildren pp t) as [ch|]; [|done].
  simpl. destruct (ch !! o) as [[nm a c'|]|] eqn:Ho; try done.
  intros [= ->]. eauto.
Qed.

Lemma nodeAt_snoc pp o t :
  nodeAt (pp ++ [o]) t = getChildren pp t ≫= (.!! o).
Proof.
  unfold nodeAt. destruct (path_snoc pp o) as [-> ->].
  by destruct (getChildren pp t).
Qed.

(** *** The number of events before a position *)

(** The number of events of a complete traversal of a node: one for a
    character, the start, the content and the end for an element. *)
Fixpoint size (n : Node) : nat :=
  match n with
  | Character _ _ => 1
  | Element _ _ ch => 2 + sum_list_with size ch
  end.

Definition sizes (l : list Node) : nat := sum_list_with size l.

(** The number of events of a complete traversal that lie before the
    position [p] of the tree [f]. *)
Fixpoint gap (f : list Node) (p : list nat) : nat :=
  match p with
  | [] => 0
  | o :: p' =>
      sizes (take o f)
      + match p' with
        | [] => 0
        | _ :: _ =>
            match f !! o with
            | Some (Element _ _ ch) => 1 + gap ch p'
            | _ => 0
            end
        end
  end.

Lemma isValid_snoc t p :
  isValid t p = true ↔
  ∃ pp off ch, p = pp ++ [off] ∧ getChildren pp t = Some ch ∧ (off ≤ length ch)%nat.
Proof.
  unfold isValid. split.
  - destruct (offset p) as [off|] eqn:Ho; [|done].
    destruct (getChildren (getParentPath p) t) as [ch|] eqn:Hc; [|done].
    intros Hle%bool_decide_eq_true. exists (getParentPath p), off, ch.
    split; [by apply offset_Some|done].
  - intros (pp & off & ch & -> & Hc & Hle).
    destruct (path_snoc pp off) as [-> ->]. rewrite Hc.
    by apply bool_decide_eq_true.
Qed.

Lemma size_Element nm a ch : size (Element nm a ch) = (2 + sizes ch)%nat.
Proof. done. Qed.

Lemma size_pos n : (1 ≤ size n)%nat.
Proof. destruct n; [rewrite size_Element|simpl]; lia. Qed.

Lemma gap_cons f o p :
  gap f (o :: p)
  = (sizes (take o f)
     + match p with
       | [] => 0
       | _ :: _ =>
           match f !! o with
           | Some (Element _ _ ch) => 1 + gap ch p
           | _ => 0
           end
       end)%nat.
Proof. done. Qed.

Lemma sizes_app l1 l2 : sizes (l1 ++ l2) = (sizes l1 + sizes l2)%nat.
Proof. apply sum_list_with_app. Qed.

Lemma sizes_take_le o l : (sizes (take o l) ≤ sizes l)%nat.
Proof. rewrite <- (take_drop o l) at 2. rewrite sizes_app. lia. Qed.

Lemma sizes_take_S o l n :
  l !! o = Some n → sizes (take (S o) l) = (sizes (take o l) + size n)%nat.
Proof.
  intros Ho. rewrite (take_S_r _ _ _ Ho), sizes_app. unfold sizes. simpl. lia.
Qed.

Lemma sizes_take_mono o1 o2 l :
  (o1 ≤ o2)%nat → (sizes (take o1 l) ≤ sizes (take o2 l))%nat.
Proof.
  intros Hle. replace o1 with (o1 `min` o2)%nat by lia.
  rewrite <- take_take. apply sizes_take_le.
Qed.

Lemma sizes_take_add o k l :
  sizes (take (o + k) l) = (sizes (take o l) + sizes (take k (drop o l)))%nat.
Proof. by rewrite <- take_take_drop, sizes_app. Qed.

(** Offsets and the number of events before them grow together. *)
Lemma sizes_take_lt o1 o2 l :
  (o1 < o2 ≤ length l)%nat → (sizes (take o1 l) < sizes (take o2 l))%nat.
Proof.
  intros [Hlt Hle].
  destruct (lookup_lt_is_Some_2 l o1) as [n Hn]; [lia|].
  pose proof (sizes_take_S _ _ _ Hn). pose proof (size_pos n).
  pose proof (sizes_take_mono (S o1) o2 l). lia.
Qed.

Lemma gap_le f p : (gap f p ≤ sizes f)%nat.
Proof.
  revert f. induction p as [|o p IH]; intros f; [simpl; lia|].
  rewrite gap_cons. pose proof (sizes_take_le o f).
  destruct p as [|o' p]; [lia|].
  destruct (f !! o) as [[nm a ch|]|] eqn:Ho; [|lia..].
  specialize (IH ch). pose proof (sizes_take_S _ _ _ Ho) as HS.
  pose proof (sizes_take_le (S o) f). rewrite size_Element in HS. lia.
Qed.

Lemma gap_cons_lt f o p :
  (o < length f)%nat → (gap f (o :: p) < sizes (take (S o) f))%nat.
Proof.
  intros Ho. destruct (lookup_lt_is_Some_2 f o Ho) as [n Hn].
  rewrite (sizes_take_S _ _ _ Hn), gap_cons. pose proof (size_pos n).
  destruct p as [|o' p]; [lia|].
  rewrite Hn. destruct n as [nm a ch|c a]; [|lia].
  pose proof (gap_le ch (o' :: p)). rewrite size_Element. lia.
Qed.

(** The events before a position: those before its parent, the start of the
    parent, and those of the children before the offset. *)
Definition base (t : list Node) (pp : list nat) : nat :=
  match pp with
  | [] => 0
  | _ :: _ => gap t pp + 1
  end.

Lemma base_snoc t pp off : base t (pp ++ [off]) = (gap t (pp ++ [off]) + 1)%nat.
Proof. unfold base. by destruct pp. Qed.

Lemma gap_app t pp q ch :
  getChildren pp t = Some ch → q ≠ [] →
  gap t (pp ++ q) = (base t pp + gap ch q)%nat.
Proof.
  revert t. induction pp as [|x pp IH]; intros t Hg Hq.
  - simpl in *. by injection Hg as ->.
  - simpl in Hg. destruct (t !! x) as [[nm a c|]|] eqn:Hx; try done.
    change ((x :: pp) ++ q) with (x :: (pp ++ q)). rewrite gap_cons, Hx.
    destruct pp as [|y pp].
    + simpl in Hg. injection Hg as ->. destruct q; [done|].
      unfold base. rewrite gap_cons. simpl. lia.
    + rewrite (IH c Hg Hq). unfold base. rewrite (gap_cons t x), Hx. simpl. lia.
Qed.

Lemma gap_snoc t pp off ch :
  getChildren pp t = Some ch →
  gap t (pp ++ [off]) = (base t pp + sizes (take off ch))%nat.
Proof. intros Hg. rewrite (gap_app _ _ _ _ Hg) by done. rewrite gap_cons. lia. Qed.

(** *** Document order *)

(** [a] comes before [b] for a structural reason: it is a proper prefix of
    [b], or it has the smaller offset at the first index where they differ. *)
Definition precedes (a b : list nat) : Prop :=
  Utils.proper_prefix a b ∨
  ∃ c x y a' b', a = c ++ x :: a' ∧ b = c ++ y :: b' ∧ (x < y)%nat.

Lemma first_difference_split (a b : list nat) i :
  Utils.first_difference a b i →
  ∃ c x y a' b', a = c ++ x :: a' ∧ b = c ++ y :: b' ∧ x ≠ y ∧ length c = i.
Proof.
  intros [(x & y & Hx & Hy & Hxy) Hlt].
  exists (take i a), x, y, (drop (S i) a), (drop (S i) b).
  split; [by rewrite take_drop_middle|].
  split.
  - rewrite (Utils.agree_below_take a b i).
    + by rewrite take_drop_middle.
    + apply lookup_lt_Some in Hx. lia.
    + apply lookup_lt_Some in Hy. lia.
    + done.
  - split; [done|]. apply lookup_lt_Some in Hx. rewrite length_take. lia.
Qed.

(** What each result of [compareArrays] says about two paths. *)
Lemma compareArrays_result (a b : list nat) :
  match Utils.compareArrays a b with
  | Utils.SAME => a = b
  | Utils.PREFIX => Utils.proper_prefix a b
  | Utils.EXTENSION => Utils.proper_prefix b a
  | Utils.DIFFER i => Utils.first_difference a b i
  end.
Proof.
  unfold Utils.compareArrays.
  destruct (Utils.compareArrays_loop a b 0 (length a `min` length b))
    as [r|] eqn:Hloop.
  - apply Utils.compareArrays_loop_Some in Hloop as (Hr & Hne & Hagree).
    split; [|intros j ?; apply Hagree; lia].
    destruct (lookup_lt_is_Some_2 a r) as [x Hx]; [lia|].
    destruct (lookup_lt_is_Some_2 b r) as [y Hy]; [lia|].
    exists x, y. repeat split; [done..|]. congruence.
  - pose proof (Utils.compareArrays_loop_None _ _ _ _ Hloop) as Hagree.
    destruct (decide (length a = length b)) as [Heq|Hneq].
    + rewrite <- (firstn_all a), <- (firstn_all b).
      rewrite Heq. apply Utils.agree_below_take; [lia|lia|].
      intros j ?. apply Hagree. lia.
    + destruct (decide (length a < length b)%nat) as [Hlt|Hge].
      * apply Utils.agree_shorter_prefix; [done|].
        intros j ?. apply Hagree. lia.
      * apply Utils.agree_shorter_prefix; [lia|].
        intros j ?. symmetry. apply Hagree. lia.
Qed.

Lemma compareWith_cases a b :
  match compareWith a b with
  | same => a = b
  | before => precedes a b
  | after => precedes b a
  end.
Proof.
  unfold compareWith.
  pose proof (compareArrays_result a b) as Hresult.
  destruct (Utils.compareArrays a b) as [| | |i] eqn:Hc.
  - done.
  - by left.
  - by left.
  - destruct (first_difference_split a b i) as (c & x & y & a' & b' & -> & -> & Hxy & Hlen);
      [done|].
    rewrite !lookup_app_r by lia. rewrite Hlen, Nat.sub_diag. simpl.
    case_decide.
    + right. by exists c, x, y, a', b'.
    + right. exists c, y, x, b', a'. split; [done|]. split; [done|]. lia.
Qed.

Lemma isValid_app t c q :
  isValid t (c ++ q) = true → q ≠ [] →
  ∃ ch, getChildren c t = Some ch ∧ isValid ch q = true.
Proof.
  intros (pp & off & chp & Heq & Hg & Hle)%isValid_snoc Hq.
  destruct (exists_last Hq) as (q' & off' & ->).
  rewrite app_assoc in Heq. apply app_inj_tail in Heq as [<- ->].
  rewrite getChildren_app in Hg.
  destruct (getChildren c t) as [ch|]; [|done]. simpl in Hg.
  exists ch. split; [done|]. apply isValid_snoc. by exists q', off, chp.
Qed.

Lemma isValid_cons_le ch y q : isValid ch (y :: q) = true → (y ≤ length ch)%nat.
Proof.
  destruct q as [|z q].
  - intros (pp & off & chp & Heq & Hg & Hle)%isValid_snoc.
    destruct pp as [|? pp]; simpl in Heq.
    + injection Heq as ->. simpl in Hg. by injection Hg as ->.
    + injection Heq as _ Heq. by destruct pp.
  - change (y :: z :: q) with ([y] ++ z :: q).
    intros (c & Hg & _)%isValid_app; [|done].
    simpl in Hg. destruct (ch !! y) eqn:Hy; [|done].
    apply lookup_lt_Some in Hy. lia.
Qed.

Lemma precedes_gap t a b :
  isValid t a = true → isValid t b = true → precedes a b →
  (gap t a < gap t b)%nat.
Proof.
  intros Ha Hb [(k & Hk & ->)|(c & x & y & a' & b' & -> & -> & Hxy)].
  - destruct (isValid_app _ _ _ Hb Hk) as (ch & Hg & _).
    rewrite (gap_app _ _ _ _ Hg Hk).
    apply isValid_snoc in Ha as (pp & off & ? & -> & _ & _).
    unfold base. destruct (pp ++ [off]) eqn:Hp; [by destruct pp|]. lia.
  - destruct (isValid_app _ _ _ Ha) as (ch & Hg & Ha'); [done|].
    destruct (isValid_app _ _ _ Hb) as (ch' & Hg' & Hb'); [done|].
    rewrite Hg in Hg'. injection Hg' as <-.
    rewrite (gap_app _ _ _ _ Hg), (gap_app _ _ _ _ Hg) by done.
    pose proof (isValid_cons_le _ _ _ Hb') as Hy.
    pose proof (gap_cons_lt ch x a') as Hlt.
    pose proof (sizes_take_mono (S x) y ch).
    rewrite (gap_cons ch y). lia.
Qed.

Lemma gap_inj t a b :
  isValid t a = true → isValid t b = true → gap t a = gap t b → a = b.
Proof.
  intros Ha Hb Hgap. pose proof (compareWith_cases a b) as Hc.
  destruct (compareWith a b); [done| |].
  - pose proof (precedes_gap _ _ _ Ha Hb Hc). lia.
  - pose proof (precedes_gap _ _ _ Hb Ha Hc). lia.
Qed.

Lemma compareWith_gap t a b :
  isValid t a = true → isValid t b = true → compareWith a b ≠ after →
  (gap t a ≤ gap t b)%nat.
Proof.
  intros Ha Hb Hne. pose proof (compareWith_cases a b) as Hc.
  destruct (compareWith a b); [by subst| |done].
  pose proof (precedes_gap _ _ _ Ha Hb Hc). lia.
Qed.

(** *** Runs of characters *)

Definition isChar (a : gmap string string) (n : Node) : Prop :=
  ∃ c, n = Character c a.

Lemma runLength_le a l : (runLength a l ≤ length l)%nat.
Proof.
  induction l as [|[nm a' ch|c a'] l IH]; simpl; [lia..|].
  case_decide; lia.
Qed.

Lemma runLength_Forall a l : Forall (isChar a) (take (runLength a l) l).
Proof.
  induction l as [|[nm a' ch|c a'] l IH]; simpl; [constructor..|].
  case_decide as Ha; simpl; constructor; [|done]. subst. by exists c.
Qed.

Lemma runLength_stop a l n :
  l !! runLength a l = Some n → ¬ isChar a n.
Proof.
  induction l as [|[nm a' ch|c a'] l IH]; simpl; [done| |].
  - intros [= <-] [? ?]. done.
  - case_decide as Ha; simpl; [done|]. intros [= <-] [? [= ? ?]]. done.
Qed.

Lemma runLength_app a l1 l2 :
  Forall (isChar a) l1 → runLength a (l1 ++ l2) = (length l1 + runLength a l2)%nat.
Proof.
  induction 1 as [|n l1 [c ->] _ IH]; simpl; [done|].
  by rewrite decide_True, IH.
Qed.

Lemma runLength_head a n l :
  runLength a (n :: l) = 0%nat ∨ isChar a n.
Proof.
  destruct n as [nm a' ch|c a']; simpl; [by left|].
  case_decide as Ha; [right|by left]. subst. by exists c.
Qed.

Lemma runLength_pos a c l : (1 ≤ runLength a (Character c a :: l))%nat.
Proof. simpl. rewrite decide_True by done. lia. Qed.

Lemma sizes_chars a l : Forall (isChar a) l → sizes l = length l.
Proof.
  induction 1 as [|n l [c ->] _ IH]; [done|].
  change (sizes (Character c a :: l)) with (1 + sizes l)%nat. simpl. lia.
Qed.

Lemma Forall_isChar_take_le a l k :
  (k ≤ runLength a l)%nat → Forall (isChar a) (take k l).
Proof.
  intros Hk. replace k with (k `min` runLength a l)%nat by lia.
  rewrite <- take_take. apply Forall_take, runLength_Forall.
Qed.

(** Whether the nodes on both sides of a position are characters with the
    same attributes: the position is inside a run of text. *)
Definition joint (t : list Node) (p : list nat) : bool :=
  match offset p, getChildren (getParentPath p) t with
  | Some (S off), Some ch =>
      match ch !! off, ch !! S off with
      | Some (Character _ a1), Some (Character _ a2) => bool_decide (a1 = a2)
      | _, _ => false
      end
  | _, _ => false
  end.

Lemma joint_snoc t pp off ch :
  getChildren pp t = Some ch →
  joint t (pp ++ [off]) =
    match off with
    | O => false
    | S off' =>
        match ch !! off', ch !! off with
        | Some (Character _ a1), Some (Character _ a2) => bool_decide (a1 = a2)
        | _, _ => false
        end
    end.
Proof.
  intros Hg. unfold joint. destruct (path_snoc pp off) as [-> ->].
  rewrite Hg. by destruct off.
Qed.

(** The run that ends at the offset [off], read backwards, when the
    characters of [off .. off + k) carry the attributes [a]. *)
Lemma runLength_backward a ch off k :
  (off + k ≤ length ch)%nat →
  Forall (isChar a) (take k (drop off ch)) →
  runLength a (reverse (take (off + k) ch))
  = (k + runLength a (reverse (take off ch)))%nat.
Proof.
  intros Hle Hall. rewrite <- take_take_drop, reverse_app.
  rewrite runLength_app by (by apply Forall_reverse).
  rewrite length_reverse, length_take, length_drop. lia.
Qed.

Lemma runLength_before a ch off :
  (off ≤ length ch)%nat →
  runLength a (reverse (take off ch)) = 0%nat ∨
  ∃ off' c, off = S off' ∧ ch !! off' = Some (Character c a).
Proof.
  intros Hle. destruct off as [|off']; [by left|].
  destruct (lookup_lt_is_Some_2 ch off') as [n Hn]; [lia|].
  rewrite (take_S_r _ _ _ Hn), reverse_snoc.
  destruct (runLength_head a n (reverse (take off' ch))) as [?|[c ->]];
    [by left|right; eauto].
Qed.

(** *** One move forward, and the same move backward *)

Lemma next_at o t pp off ch :
  getChildren pp t = Some ch →
  _next o t (pp ++ [off]) =
    if decide (pp = [] ∧ off = length ch) then Done
    else if decide (snd <$> boundaries o = Some (pp ++ [off])) then Done
    else
      match ch !! off with
      | Some (Element nm a c) =>
          let next := if shallow o then pp ++ [S off] else (pp ++ [off]) ++ [0%nat] in
          Emit (mkValue ELEMENT_START (ElementItem (Element nm a c)) (pp ++ [off])
                        next (Some 1%nat)) next
      | Some (Character c a) =>
          if singleCharacters o then
            Emit (mkValue CHARACTER (TextItem [c] a) (pp ++ [off]) (pp ++ [S off])
                          (Some 1%nat)) (pp ++ [S off])
          else
            let k := cutAtEnd o pp off (runLength a (drop off ch)) in
            Emit (mkValue TEXT (TextItem (characters (take k (drop off ch))) a)
                          (pp ++ [off]) (pp ++ [off + k]%nat) (Some k))
                 (pp ++ [off + k]%nat)
      | None =>
          match nodeAt pp t, offset pp with
          | Some e, Some parentOffset =>
              let next := getParentPath pp ++ [S parentOffset] in
              if ignoreElementEnd o then Silent next
              else Emit (mkValue ELEMENT_END (ElementItem e) (pp ++ [off]) next None)
                        next
          | _, _ => Stuck
          end
      end.
Proof.
  intros Hg. unfold _next. destruct (path_snoc pp off) as [-> ->].
  by rewrite Hg.
Qed.

Lemma previous_at o t pp off ch :
  getChildren pp t = Some ch →
  _previous o t (pp ++ [off]) =
    if decide (pp = [] ∧ off = 0%nat) then Done
    else if decide (fst <$> boundaries o = Some (pp ++ [off])) then Done
    else
      match off with
      | O =>
          match nodeAt pp t with
          | Some e =>
              Emit (mkValue ELEMENT_START (ElementItem e) pp (pp ++ [off])
                            (Some 1%nat)) pp
          | None => Stuck
          end
      | S off' =>
          match ch !! off' with
          | Some (Element nm a c) =>
              if shallow o then
                Emit (mkValue ELEMENT_START (ElementItem (Element nm a c))
                              (pp ++ [off']) (pp ++ [off]) (Some 1%nat))
                     (pp ++ [off'])
              else
                let next := pp ++ [off'; length c] in
                if ignoreElementEnd o then Silent next
                else Emit (mkValue ELEMENT_END (ElementItem (Element nm a c))
                                   next (pp ++ [off]) None) next
          | Some (Character c a) =>
              if singleCharacters o then
                Emit (mkValue CHARACTER (TextItem [c] a) (pp ++ [off'])
                              (pp ++ [off]) (Some 1%nat)) (pp ++ [off'])
              else
                let k := cutAtStart o pp off
                           (runLength a (reverse (take off ch))) in
                Emit (mkValue TEXT
                        (TextItem (characters (take k (drop (off - k) ch))) a)
                        (pp ++ [off - k]%nat) (pp ++ [off]) (Some k))
                     (pp ++ [off - k]%nat)
          | None => Stuck
          end
      end.
Proof.
  intros Hg. unfold _previous. destruct (path_snoc pp off) as [-> ->].
  by rewrite Hg.
Qed.

Lemma values_more_fuel step fuel fuel' p l :
  values step fuel p = Some l → (fuel ≤ fuel')%nat → values step fuel' p = Some l.
Proof.
  revert fuel' p l. induction fuel as [|fuel IH]; intros fuel' p l; [done|].
  destruct fuel' as [|fuel']; [lia|]. simpl. intros Hvals Hle.
  destruct (step p) as [|p'|v p'|]; [done| | |done].
  - apply IH; [done|lia].
  - destruct (values step fuel p') as [l'|] eqn:Hl'; [|done].
    by rewrite (IH fuel' p' l' Hl') by lia.
Qed.

Section reversal.
Variable t : list Node.
Variable s e : list nat.
Variable o : Options.
Hypothesis Hbounds : boundaries o = Some (s, e).
Hypothesis Hs : isValid t s = true.
Hypothesis He : isValid t e = true.
Hypothesis Hse : (gap t s ≤ gap t e)%nat.
Hypothesis Hshallow : shallow o = true → getParentPath s = getParentPath e.

(** The positions that a traversal from [s] to [e] passes: they resolve,
    they lie between the boundaries, they are not inside a run of text
    unless they are a boundary, and a shallow walker stays in the parent of
    the boundaries. *)
Definition passed (p : list nat) : Prop :=
  isValid t p = true ∧
  (gap t s ≤ gap t p ≤ gap t e)%nat ∧
  (singleCharacters o = false → p = s ∨ p = e ∨ joint t p = false) ∧
  (shallow o = true → getParentPath p = getParentPath e).

Lemma passed_start : passed s.
Proof. split; [done|]. split; [lia|]. split; [by left|done]. Qed.

Lemma gap_same_parent pp off1 off2 ch :
  getChildren pp t = Some ch → (off2 ≤ length ch)%nat →
  (gap t (pp ++ [off1]) < gap t (pp ++ [off2]))%nat → (off1 < off2)%nat.
Proof.
  intros Hg Hle. rewrite !(gap_snoc _ _ _ _ Hg). intros Hlt.
  destruct (decide (off1 < off2)%nat); [done|].
  pose proof (sizes_take_mono off2 off1 ch). lia.
Qed.

Lemma not_at_start p p' :
  passed p → (gap t p < gap t p')%nat → fst <$> boundaries o ≠ Some p'.
Proof.
  intros (_ & [Hge _] & _) Hlt. rewrite Hbounds. simpl. intros [= ->]. lia.
Qed.

Lemma not_at_root_start p pp off :
  (gap t p < gap t (pp ++ [off]))%nat → ¬ (pp = [] ∧ off = 0%nat).
Proof. intros Hlt [-> ->]. simpl in Hlt. unfold sizes in Hlt. simpl in Hlt. lia. Qed.


Lemma sizes_all t0 : sizes (take (length t0) t0) = sizes t0.
Proof. by rewrite firstn_all. Qed.

Lemma element_step p pp off ch nm a c :
  passed p → (gap t p < gap t e)%nat →
  p = pp ++ [off] → getChildren pp t = Some ch →
  ch !! off = Some (Element nm a c) →
  let p' := if shallow o then pp ++ [S off] else p ++ [0%nat] in
  passed p' ∧ (gap t p < gap t p')%nat ∧
  _previous o t p' =
    Emit (mkValue ELEMENT_START (ElementItem (Element nm a c)) p p' (Some 1%nat)) p.
Proof.
  intros Hp Hlt -> Hg Hoff p'.
  pose proof Hp as (Hv & [Hge Hle] & Hal & Hsh).
  pose proof (lookup_lt_Some _ _ _ Hoff) as Hofflt.
  assert (shallow o = true ∨ shallow o = false) as [Hshal|Hshal]
    by (destruct (shallow o); auto); subst p'; rewrite Hshal.
  - (* the element is passed as a whole *)
    specialize (Hsh Hshal). destruct (path_snoc pp off) as [Hpp _].
    rewrite Hpp in Hsh.
    apply isValid_snoc in He as He'. destruct He' as (pe & eo & che & Hee & Hge' & Heo).
    rewrite Hee in Hsh. destruct (path_snoc pe eo) as [Hpe _].
    rewrite Hpe in Hsh. subst pe. rewrite Hg in Hge'. injection Hge' as <-.
    assert (off < eo)%nat as Hoe.
    { apply (gap_same_parent pp off eo ch Hg Heo). by rewrite <- Hee. }
    assert (gap t (pp ++ [off]) < gap t (pp ++ [S off]))%nat as Hstep.
    { rewrite !(gap_snoc _ _ _ _ Hg), (sizes_take_S _ _ _ Hoff).
      pose proof (size_pos (Element nm a c)). lia. }
    split; [|split; [done|]].
    + split; [apply isValid_snoc; exists pp, (S off), ch; split; [done|split; [done|lia]]|].
      split.
      * split; [lia|]. rewrite Hee, !(gap_snoc _ _ _ _ Hg).
        pose proof (sizes_take_mono (S off) eo ch). lia.
      * split.
        -- intros _. right; right. rewrite (joint_snoc _ _ _ _ Hg). by rewrite Hoff.
        -- intros _. destruct (path_snoc pp (S off)) as [-> _].
           by rewrite Hee, (proj1 (path_snoc pp eo)).
    + rewrite (previous_at _ _ _ _ _ Hg).
      rewrite decide_False by (intros [_ ?]; done).
      rewrite decide_False by (by eapply not_at_start).
      by rewrite Hoff, Hshal.
  - (* the element is entered *)
    assert (getChildren (pp ++ [off]) t = Some c) as Hgc
      by (by eapply getChildren_snoc).
    assert (gap t ((pp ++ [off]) ++ [0%nat]) = S (gap t (pp ++ [off]))) as Hstep.
    { rewrite (gap_snoc _ _ _ _ Hgc), base_snoc. simpl.
      unfold sizes. simpl. lia. }
    split; [|split; [lia|]].
    + split; [apply isValid_snoc; exists (pp ++ [off]), 0%nat, c;
                split; [done|split; [done|lia]]|].
      split; [lia|]. split; [|by rewrite Hshal].
      intros _. right; right. by rewrite (joint_snoc _ _ _ _ Hgc).
    + rewrite (previous_at _ _ _ _ _ Hgc).
      rewrite decide_False by (intros [? _]; by destruct pp).
      rewrite decide_False by (eapply not_at_start; [done|lia]).
      rewrite nodeAt_snoc, Hg. simpl. by rewrite Hoff.
Qed.


Lemma character_step p pp off ch c a :
  passed p → (gap t p < gap t e)%nat →
  p = pp ++ [off] → getChildren pp t = Some ch →
  ch !! off = Some (Character c a) → singleCharacters o = true →
  let p' := pp ++ [S off] in
  passed p' ∧ (gap t p < gap t p')%nat ∧
  _previous o t p' =
    Emit (mkValue CHARACTER (TextItem [c] a) p p' (Some 1%nat)) p.
Proof.
  intros Hp Hlt -> Hg Hoff Hsingle p'. subst p'.
  pose proof Hp as (Hv & [Hge Hle] & Hal & Hsh).
  pose proof (lookup_lt_Some _ _ _ Hoff) as Hofflt.
  assert (gap t (pp ++ [S off]) = S (gap t (pp ++ [off]))) as Hstep.
  { rewrite !(gap_snoc _ _ _ _ Hg), (sizes_take_S _ _ _ Hoff). simpl. lia. }
  split; [|split; [lia|]].
  - split; [apply isValid_snoc; exists pp, (S off), ch; split; [done|split; [done|lia]]|].
    split; [lia|]. split; [by rewrite Hsingle|].
    intros Hshal. rewrite <- (Hsh Hshal).
    by rewrite (proj1 (path_snoc pp (S off))), (proj1 (path_snoc pp off)).
  - rewrite (previous_at _ _ _ _ _ Hg).
    rewrite decide_False by (intros [_ ?]; done).
    rewrite decide_False by (eapply not_at_start; [done|lia]).
    by rewrite Hoff, Hsingle.
Qed.

Lemma leaving_step p pp off ch :
  passed p → (gap t p < gap t e)%nat →
  p = pp ++ [off] → getChildren pp t = Some ch → ch !! off = None →
  (off ≤ length ch)%nat →
  ∃ pp' po el,
    pp = pp' ++ [po] ∧ nodeAt pp t = Some el ∧ offset pp = Some po ∧
    getParentPath pp = pp' ∧
    let p' := pp' ++ [S po] in
    passed p' ∧ (gap t p < gap t p')%nat ∧
    _previous o t p' =
      if ignoreElementEnd o then Silent p
      else Emit (mkValue ELEMENT_END (ElementItem el) p p' None) p.
Proof.
  intros Hp Hlt -> Hg Hoff Hoffle.
  pose proof Hp as (Hv & [Hge Hle] & Hal & Hsh).
  apply lookup_ge_None_1 in Hoff. assert (off = length ch) as -> by lia.
  (* the parent is not the root *)
  destruct (decide (pp = [])) as [->|Hpp].
  { simpl in Hg. injection Hg as <-. simpl in Hlt.
    rewrite sizes_all in Hlt. pose proof (gap_le t e). lia. }
  destruct (exists_last Hpp) as (pp' & po & ->).
  destruct (getChildren_snoc_inv _ _ _ _ Hg) as (ch' & nm & a & Hg' & Hpo).
  pose proof (lookup_lt_Some _ _ _ Hpo) as Hpolt.
  (* a shallow walker never gets here *)
  assert (shallow o = false) as Hshal.
  { assert (shallow o = true ∨ shallow o = false) as [Hshal'|Hshal']
      by (destruct (shallow o); auto); [exfalso|done].
    specialize (Hsh Hshal'). rewrite (proj1 (path_snoc _ _)) in Hsh.
    pose proof He as He'.
    apply isValid_snoc in He' as (pe & eo & che & Hee & Hge' & Heo).
    rewrite Hee, (proj1 (path_snoc pe eo)) in Hsh. subst pe.
    rewrite Hg in Hge'. injection Hge' as <-.
    pose proof (gap_same_parent (pp' ++ [po]) (length ch) eo ch Hg Heo) as Hx.
    rewrite <- Hee in Hx. specialize (Hx Hlt). lia. }
  exists pp', po, (Element nm a ch).
  split; [done|]. split; [by rewrite nodeAt_snoc, Hg'|].
  split; [apply path_snoc|]. split; [apply path_snoc|]. simpl.
  assert (gap t (pp' ++ [S po]) = S (gap t ((pp' ++ [po]) ++ [length ch]))) as Hstep.
  { rewrite (gap_snoc _ _ _ _ Hg), (gap_snoc _ _ _ _ Hg').
    rewrite (sizes_take_S _ _ _ Hpo), size_Element, sizes_all.
    rewrite base_snoc, (gap_snoc _ _ _ _ Hg'). lia. }
  split; [|split; [lia|]].
  - split; [apply isValid_snoc; exists pp', (S po), ch'; split; [done|split; [done|lia]]|].
    split; [lia|]. split; [|by rewrite Hshal].
    intros _. right; right. rewrite (joint_snoc _ _ _ _ Hg'). by rewrite Hpo.
  - rewrite (previous_at _ _ _ _ _ Hg').
    rewrite decide_False by (intros [_ ?]; done).
    rewrite decide_False by (eapply not_at_start; [done|lia]).
    rewrite Hpo, Hshal.
    replace (pp' ++ [po; length ch]) with ((pp' ++ [po]) ++ [length ch])
      by (by rewrite <- app_assoc).
    done.
Qed.


Lemma cutAtEnd_eq pp off R :
  ∃ pe eo, e = pe ++ [eo] ∧
    cutAtEnd o pp off R =
      if decide (pe = pp ∧ (off < eo < off + R)%nat) then (eo - off)%nat else R.
Proof.
  pose proof He as He'.
  apply isValid_snoc in He' as (pe & eo & che & Hee & _ & _).
  exists pe, eo. split; [done|]. unfold cutAtEnd. rewrite Hbounds. cbn beta iota.
  rewrite Hee. by destruct (path_snoc pe eo) as [-> ->].
Qed.

Lemma cutAtStart_eq pp off R :
  ∃ ps so, s = ps ++ [so] ∧
    cutAtStart o pp off R =
      if decide (ps = pp ∧ (off - R < so < off)%nat) then (off - so)%nat else R.
Proof.
  pose proof Hs as Hs'.
  apply isValid_snoc in Hs' as (ps & so & chs & Hss & _ & _).
  exists ps, so. split; [done|]. unfold cutAtStart. rewrite Hbounds. cbn beta iota.
  rewrite Hss. by destruct (path_snoc ps so) as [-> ->].
Qed.

Lemma gap_run pp off ch a k :
  getChildren pp t = Some ch →
  (k ≤ runLength a (drop off ch))%nat →
  gap t (pp ++ [off + k]%nat) = (gap t (pp ++ [off]) + k)%nat.
Proof.
  intros Hg Hk. rewrite !(gap_snoc _ _ _ _ Hg), sizes_take_add.
  rewrite (sizes_chars a (take k (drop off ch)))
    by (by apply Forall_isChar_take_le).
  pose proof (runLength_le a (drop off ch)). rewrite length_take. lia.
Qed.

Lemma text_step p pp off ch c a :
  passed p → (gap t p < gap t e)%nat →
  p = pp ++ [off] → getChildren pp t = Some ch →
  ch !! off = Some (Character c a) → singleCharacters o = false →
  let k := cutAtEnd o pp off (runLength a (drop off ch)) in
  let p' := pp ++ [off + k]%nat in
  passed p' ∧ (gap t p < gap t p')%nat ∧
  _previous o t p' =
    Emit (mkValue TEXT (TextItem (characters (take k (drop off ch))) a)
                  p p' (Some k)) p.
Proof.
  intros Hp Hlt -> Hg Hoff Hsingle k p'.
  pose proof Hp as (Hv & [Hge Hle] & Hal & Hsh).
  pose proof (lookup_lt_Some _ _ _ Hoff) as Hofflt.
  set (R := runLength a (drop off ch)) in *.
  assert (1 ≤ R)%nat as HR1.
  { subst R. rewrite (drop_S _ _ _ Hoff). apply runLength_pos. }
  assert (R ≤ length ch - off)%nat as HRle.
  { subst R. pose proof (runLength_le a (drop off ch)) as H.
    by rewrite length_drop in H. }
  destruct (cutAtEnd_eq pp off R) as (pe & eo & Hee & Hk). fold k in Hk.
  (* the cut run ends at the end of the boundaries, the full run before it *)
  assert ((1 ≤ k ≤ R)%nat ∧ (gap t (pp ++ [off + k]%nat) ≤ gap t e)%nat
          ∧ (pp ++ [off + k]%nat = e ∨ k = R)) as ([Hk1 HkR] & Hke & Hcut).
  { rewrite Hk. case_decide as Hc.
    - destruct Hc as [-> Hc]. split; [lia|].
      replace (off + (eo - off))%nat with eo by lia. rewrite <- Hee.
      split; [lia|by left].
    - split; [lia|]. split; [|by right].
      destruct (decide (gap t (pp ++ [off + R]%nat) ≤ gap t e)%nat) as [|Hover];
        [done|exfalso].
      rewrite (gap_run pp off ch a R Hg) in Hover by done.
      set (j := (gap t e - gap t (pp ++ [off]))%nat).
      assert (e = pp ++ [off + j]%nat) as Hej.
      { apply (gap_inj t); [done| |].
        - apply isValid_snoc. exists pp, (off + j)%nat, ch.
          split; [done|]. split; [done|]. subst j. lia.
        - rewrite (gap_run pp off ch a j Hg) by (subst j R; lia). subst j. lia. }
      rewrite Hee in Hej. apply app_inj_tail in Hej as [-> ->].
      apply Hc. split; [done|]. subst j. lia. }
  assert (Forall (isChar a) (take k (drop off ch))) as Hall
    by (by apply Forall_isChar_take_le).
  assert (gap t (pp ++ [off + k]%nat) = (gap t (pp ++ [off]) + k)%nat) as Hstep
    by (by apply (gap_run pp off ch a k Hg)).
  subst p'. split; [|split; [lia|]].
  - split; [apply isValid_snoc; exists pp, (off + k)%nat, ch;
              split; [done|split; [done|lia]]|].
    split; [lia|]. split.
    + intros _. destruct Hcut as [->|HkR']; [by right; left|]. right; right.
      rewrite (joint_snoc _ _ _ _ Hg).
      destruct (off + k)%nat as [|m] eqn:Hm; [done|].
      destruct (ch !! m) as [[|c1 a1]|] eqn:Hprev; try done.
      destruct (ch !! S m) as [[|c2 a2]|] eqn:Hnext; try done.
      apply bool_decide_eq_false. intros ->.
      assert (isChar a (Character c1 a2)) as [c' [= _ ->]].
      { eapply (Forall_lookup_1 _ _ (m - off)%nat) in Hall; [done|].
        rewrite lookup_take_lt by lia. rewrite lookup_drop.
        by replace (off + (m - off))%nat with m by lia. }
      apply (runLength_stop a (drop off ch) (Character c2 a)); [|by exists c2].
      rewrite lookup_drop. fold R. rewrite <- HkR', Hm. done.
    + intros Hshal. rewrite <- (Hsh Hshal).
      by rewrite (proj1 (path_snoc pp _)), (proj1 (path_snoc pp off)).
  - rewrite (previous_at _ _ _ _ _ Hg).
    rewrite decide_False by (intros [_ ?]; lia).
    rewrite decide_False by (eapply not_at_start; [done|lia]).
    (* the node before the new position is the last character of the run *)
    destruct (off + k)%nat as [|m] eqn:Hm; [lia|].
    assert (∃ c', ch !! m = Some (Character c' a)) as [c' Hlast].
    { destruct (lookup_lt_is_Some_2 ch m) as [n Hn]; [lia|].
      eapply (Forall_lookup_1 _ _ (m - off)%nat n) in Hall as [c' ->]; [by eauto|].
      rewrite lookup_take_lt by lia. rewrite lookup_drop.
      by replace (off + (m - off))%nat with m by lia. }
    rewrite Hlast, Hsingle. rewrite <- Hm.
    (* the backward run has the same length *)
    assert (cutAtStart o pp (off + k)
              (runLength a (reverse (take (off + k) ch))) = k) as ->.
    { rewrite (runLength_backward a ch off k) by (done || lia).
      destruct (cutAtStart_eq pp (off + k)%nat
                  (k + runLength a (reverse (take off ch)))%nat)
        as (ps & so & Hss & ->).
      destruct (runLength_before a ch off) as [->|(off' & c0 & -> & Hbefore)];
        [lia| |].
      - (* no character with these attributes before the run *)
        rewrite decide_False; [lia|]. intros [-> Hso].
        rewrite Hss in Hge.
        assert (so ≤ length ch)%nat as Hsole.
        { pose proof Hs as Hs'. rewrite Hss in Hs'.
          apply isValid_snoc in Hs' as (ps' & so' & chs & Heq & Hgs & Hsole).
          apply app_inj_tail in Heq as [<- <-].
          rewrite Hg in Hgs. by injection Hgs as <-. }
        pose proof (gap_same_parent pp off so ch Hg Hsole) as Hx.
        rewrite !(gap_snoc _ _ _ _ Hg) in Hge, Hx.
        pose proof (sizes_take_lt off so ch). lia.
      - (* the run goes on before the position: the position is the start *)
        assert (joint t (pp ++ [S off']) = true) as Hjoint.
        { rewrite (joint_snoc _ _ _ _ Hg), Hbefore, Hoff.
          by apply bool_decide_eq_true. }
        destruct (Hal Hsingle) as [Hps|[Hpe|Hj]]; [| |congruence].
        + rewrite Hss in Hps. apply app_inj_tail in Hps as [<- <-].
          rewrite decide_True; [lia|]. split; [done|].
          pose proof (runLength_pos a c0 (reverse (take off' ch))) as Hpos.
          assert (1 ≤ runLength a (reverse (take (S off') ch)))%nat.
          { by rewrite (take_S_r _ _ _ Hbefore), reverse_snoc. }
          lia.
        + rewrite Hpe in Hlt. lia. }
    cbv zeta. replace (off + k - k)%nat with off by lia. done.
Qed.


(** Between the boundaries, every forward move is undone by the backward
    move from the position it leads to, with the same event. *)
Lemma forward_move p :
  passed p → (gap t p < gap t e)%nat →
  ∃ p', passed p' ∧ (gap t p < gap t p')%nat ∧
        ((∃ v, _next o t p = Emit v p' ∧ _previous o t p' = Emit v p)
         ∨ (_next o t p = Silent p' ∧ _previous o t p' = Silent p)).
Proof.
  intros Hp Hlt. pose proof Hp as (Hv & [Hge Hle] & _).
  apply isValid_snoc in Hv as (pp & off & ch & Hpeq & Hg & Hoffle).
  assert (_next o t p =
    match ch !! off with
    | Some (Element nm a c) =>
        let next := if shallow o then pp ++ [S off] else p ++ [0%nat] in
        Emit (mkValue ELEMENT_START (ElementItem (Element nm a c)) p next
                      (Some 1%nat)) next
    | Some (Character c a) =>
        if singleCharacters o then
          Emit (mkValue CHARACTER (TextItem [c] a) p (pp ++ [S off])
                        (Some 1%nat)) (pp ++ [S off])
        else
          let k := cutAtEnd o pp off (runLength a (drop off ch)) in
          Emit (mkValue TEXT (TextItem (characters (take k (drop off ch))) a)
                        p (pp ++ [off + k]%nat) (Some k))
               (pp ++ [off + k]%nat)
    | None =>
        match nodeAt pp t, offset pp with
        | Some el, Some parentOffset =>
            let next := getParentPath pp ++ [S parentOffset] in
            if ignoreElementEnd o then Silent next
            else Emit (mkValue ELEMENT_END (ElementItem el) p next None) next
        | _, _ => Stuck
        end
    end) as Hnext.
  { subst p. rewrite (next_at _ _ _ _ _ Hg).
    rewrite decide_False.
    2:{ intros [-> ->]. simpl in Hg. injection Hg as <-. simpl in Hlt.
        rewrite sizes_all in Hlt. pose proof (gap_le t e). lia. }
    rewrite decide_False; [done|].
    rewrite Hbounds. simpl. intros [= ->]. lia. }
  rewrite Hnext. clear Hnext.
  destruct (ch !! off) as [[nm a c|c a]|] eqn:Hoff.
  - destruct (element_step p pp off ch nm a c Hp Hlt Hpeq Hg Hoff)
      as (Hp' & Hlt' & Hprev).
    eexists. split; [exact Hp'|]. split; [exact Hlt'|]. left. eauto.
  - assert (singleCharacters o = true ∨ singleCharacters o = false)
      as [Hsingle|Hsingle] by (destruct (singleCharacters o); auto);
      rewrite Hsingle.
    + destruct (character_step p pp off ch c a Hp Hlt Hpeq Hg Hoff Hsingle)
        as (Hp' & Hlt' & Hprev).
      eexists. split; [exact Hp'|]. split; [exact Hlt'|]. left. eauto.
    + destruct (text_step p pp off ch c a Hp Hlt Hpeq Hg Hoff Hsingle)
        as (Hp' & Hlt' & Hprev).
      eexists. split; [exact Hp'|]. split; [exact Hlt'|]. left. eauto.
  - destruct (leaving_step p pp off ch Hp Hlt Hpeq Hg Hoff Hoffle)
      as (pp' & po & el & _ & -> & -> & -> & Hp' & Hlt' & Hprev).
    eexists. split; [exact Hp'|]. split; [exact Hlt'|].
    cbv zeta. rewrite Hprev. destruct (ignoreElementEnd o); [by right|left; eauto].
Qed.

Lemma forward_done p : passed p → gap t p = gap t e → _next o t p = Done.
Proof.
  intros (Hv & _) Hgap. assert (p = e) as -> by (by apply (gap_inj t)).
  pose proof Hv as Hv'.
  apply isValid_snoc in Hv' as (pp & off & ch & -> & Hg & _).
  rewrite (next_at _ _ _ _ _ Hg). case_decide; [done|].
  rewrite decide_True; [done|]. by rewrite Hbounds.
Qed.

Lemma backward_done : _previous o t s = Done.
Proof.
  pose proof Hs as Hs'.
  apply isValid_snoc in Hs' as (pp & off & ch & Hss & Hg & _).
  rewrite Hss at 1. rewrite (previous_at _ _ _ _ _ Hg). case_decide; [done|].
  rewrite decide_True; [done|]. by rewrite Hbounds, Hss.
Qed.

(** The values of the forward traversal from a passed position to the end of
    the boundaries, and the same values, last first, in front of what the
    backward traversal yields from that position on. *)
Lemma values_reversed n p :
  passed p → (gap t e - gap t p < n)%nat →
  ∃ vs, values (_next o t) n p = Some vs ∧
        ∀ m rest, values (_previous o t) m p = Some rest →
                  values (_previous o t) (n + m) e = Some (reverse vs ++ rest).
Proof.
  revert p. induction n as [|n IH]; intros p Hp Hn; [lia|].
  pose proof Hp as (_ & [_ Hle] & _).
  destruct (decide (gap t p = gap t e)) as [Heq|Hne].
  - exists []. split; [simpl; by rewrite (forward_done p Hp Heq)|].
    intros m rest Hrest.
    assert (p = e) as Hpe by (apply (gap_inj t); [apply Hp|done..]).
    rewrite <- Hpe. apply (values_more_fuel _ m); [done|lia].
  - destruct (forward_move p Hp) as (p' & Hp' & Hlt & Hmove); [lia|].
    destruct (IH p' Hp') as (vs & Hvs & Hback); [lia|].
    destruct Hmove as [(v & Hnext & Hprev)|[Hnext Hprev]].
    + exists (v :: vs). split; [simpl; by rewrite Hnext, Hvs|].
      intros m rest Hrest.
      replace (S n + m)%nat with (n + S m)%nat by lia.
      rewrite (Hback (S m) (v :: rest)).
      * by rewrite reverse_cons, <- app_assoc.
      * simpl. by rewrite Hprev, Hrest.
    + exists vs. split; [simpl; by rewrite Hnext|].
      intros m rest Hrest.
      replace (S n + m)%nat with (n + S m)%nat by lia.
      apply Hback. simpl. by rewrite Hprev.
Qed.

Lemma values_backward_reverse fuel :
  (sizes t + 2 ≤ fuel)%nat →
  ∃ vs, values (_next o t) fuel s = Some vs
        ∧ values (_previous o t) fuel e = Some (reverse vs).
Proof.
  intros Hfuel. pose proof (gap_le t e) as Hmax.
  destruct (values_reversed (S (gap t e - gap t s)) s passed_start) as (vs & Hvs & Hback);
    [lia|].
  exists vs. split.
  - apply (values_more_fuel _ _ _ _ _ Hvs). lia.
  - specialize (Hback 1%nat []). rewrite app_nil_r in Hback.
    apply (values_more_fuel _ (S (gap t e - gap t s) + 1)); [|lia].
    apply Hback. simpl. by rewrite backward_done.
Qed.

End reversal.

(** *** The walker and its boundaries *)

Lemma values_ext (step1 step2 : list nat → Step) fuel p :
  (∀ q, step1 q = step2 q) → values step1 fuel p = values step2 fuel p.
Proof.
  intros Hext. revert p. induction fuel as [|fuel IH]; intros p; simpl; [done|].
  rewrite Hext. destruct (step2 p); by rewrite ?IH.
Qed.

(** A walker without boundaries moves like a walker whose boundaries are
    the beginning and the end of the root. *)
Definition withRootBoundaries (o : Options) (t : list Node) : Options :=
  {| boundaries := Some ([0%nat], [length t]);
     startPosition := startPosition o; direction := direction o;
     singleCharacters := singleCharacters o; shallow := shallow o;
     ignoreElementEnd := ignoreElementEnd o |}.

Lemma next_root_boundaries o t p :
  boundaries o = None → _next o t p = _next (withRootBoundaries o t) t p.
Proof.
  intros Hb. unfold _next, cutAtEnd. rewrite Hb. simpl.
  destruct (offset p) as [off|] eqn:Hoff; [|done].
  destruct (getChildren (getParentPath p) t) as [ch|] eqn:Hg; [|done].
  case_decide as Hend; [done|].
  rewrite decide_False.
  2:{ intros [= <-]. apply Hend. unfold getParentPath, offset in *.
      simpl in *. by simplify_eq. }
  destruct (ch !! off) as [[nm a c|c a]|]; [done| |done].
  destruct (singleCharacters o); [done|].
  rewrite decide_False; [done|]. intros [Hroot Hcut]. simpl in Hroot.
  rewrite <- Hroot in Hg. simpl in Hg. injection Hg as <-.
  pose proof (runLength_le a (drop off t)) as Hle.
  rewrite length_drop in Hle. lia.
Qed.

Lemma previous_root_boundaries o t p :
  boundaries o = None → _previous o t p = _previous (withRootBoundaries o t) t p.
Proof.
  intros Hb. unfold _previous, cutAtStart. rewrite Hb. simpl.
  destruct (offset p) as [off|] eqn:Hoff; [|done].
  destruct (getChildren (getParentPath p) t) as [ch|] eqn:Hg; [|done].
  case_decide as Hstart; [done|].
  rewrite decide_False.
  2:{ intros [= <-]. apply Hstart. unfold getParentPath, offset in *.
      simpl in *. by simplify_eq. }
  destruct off as [|off']; [done|].
  destruct (ch !! off') as [[nm a c|c a]|]; [done| |done].
  destruct (singleCharacters o); [done|].
  rewrite decide_False; [done|]. intros [_ Hcut]. lia.
Qed.

(** *** Theorems *)

(** Backward and forward traversal (the subject of C4) — over a bounding
    range whose positions resolve in the tree and whose start is not after
    its end, the walker that goes backward from the end of the range yields
    the events of the walker that goes forward from its start, in the
    reverse order; for every combination of [singleCharacters] and
    [ignoreElementEnd], and for a shallow walker when both ends of the range
    have the same parent.  What a shallow walker does between bounds that
    lie at different depths is described neither by the spec nor by the
    test-suite, and the walker class is not in this snapshot: nothing is
    stated for that case. *)
Theorem backward_is_reverse_of_forward
    (t : list Node) (s e : list nat) (single shal ignore : bool) (fuel : nat) :
  isValid t s = true → isValid t e = true → compareWith s e ≠ after →
  (shal = true → getParentPath s = getParentPath e) →
  (sizes t + 2 ≤ fuel)%nat →
  ∃ vs,
    walk (mkOptions (Some (s, e)) None FORWARD single shal ignore) t fuel
      = Return (Some vs)
    ∧ walk (mkOptions (Some (s, e)) (Some e) BACKWARD single shal ignore) t fuel
      = Return (Some (reverse vs)).
Proof.
  intros Hs He Hse Hshal Hfuel.
  pose proof (compareWith_gap t s e Hs He Hse) as Hgap.
  destruct (values_backward_reverse t s e
              (mkOptions (Some (s, e)) None FORWARD single shal ignore)
              eq_refl Hs He Hgap Hshal fuel Hfuel) as (vs & Hfwd & Hbwd).
  exists vs. unfold walk. simpl. split; [by rewrite Hfwd|].
  f_equal. exact Hbwd.
Qed.

(** The same for a walker without boundaries that goes forward from the
    beginning of the root and backward from its end, for every combination
    of the three flags. *)
Lemma backward_is_reverse_of_forward_root
    (t : list Node) (single shal ignore : bool) (fuel : nat) :
  (sizes t + 2 ≤ fuel)%nat →
  ∃ vs,
    walk (mkOptions None (Some [0%nat]) FORWARD single shal ignore) t fuel
      = Return (Some vs)
    ∧ walk (mkOptions None (Some [length t]) BACKWARD single shal ignore) t fuel
      = Return (Some (reverse vs)).
Proof.
  intros Hfuel.
  destruct (values_backward_reverse t [0%nat] [length t]
              (mkOptions (Some ([0%nat], [length t])) None FORWARD single shal ignore)
              eq_refl) with (fuel := fuel) as (vs & Hfwd & Hbwd);
    [by apply bool_decide_eq_true; simpl; lia
    |by apply bool_decide_eq_true
    |simpl; lia|done|done|].
  exists vs. unfold walk. simpl. split; f_equal.
  - rewrite <- Hfwd. apply values_ext. intros q.
    by rewrite next_root_boundaries.
  - rewrite <- Hbwd. apply values_ext. intros q.
    by rewrite previous_root_boundaries.
Qed.

(** *** The tree of the test-suite

    [root] has the children [img1] and [p]; [p] has the characters [b] and
    [a] in bold, the character [r], the element [img2] and the character
    [x]. *)

Definition bold : gmap string string := {["bold" := "true"]}.
Definition img1 : Node := Element "img1" ∅ [].
Definition img2 : Node := Element "img2" ∅ [].
Definition paragraph : Node :=
  Element "p" ∅ (Text "ba" bold ++ Text "r" ∅ ++ [img2] ++ Text "x" ∅).
Definition tree : list Node := [img1; paragraph].
Definition rootBeginning : list nat := [0%nat].
Definition rootEnding : list nat := [2%nat].

(** What the tests compare of a value: its type and its item. *)
Definition expectValue (v : Value) : ValueType * Item := (type v, item v).

Definition expected : list (ValueType * Item) :=
  [ (ELEMENT_START, ElementItem img1);
    (ELEMENT_END, ElementItem img1);
    (ELEMENT_START, ElementItem paragraph);
    (TEXT, TextItem (String.list_ascii_of_string "ba") bold);
    (TEXT, TextItem (String.list_ascii_of_string "r") ∅);
    (ELEMENT_START, ElementItem img2);
    (ELEMENT_END, ElementItem img2);
    (TEXT, TextItem (String.list_ascii_of_string "x") ∅);
    (ELEMENT_END, ElementItem paragraph) ].

Definition events (c : completion (option (list Value)))
  : completion (option (list (ValueType * Item))) :=
  bind c (λ r, Return (option_map (map expectValue) r)).

Example should_throw_if_neither_boundaries_nor_starting_position_is_set :
  walk (mkOptions None None FORWARD true false false) tree 12
  = Throw no_start_position.
Proof. reflexivity. Qed.

Example should_provide_iterator_interface_with_FORWARD_direction :
  events (walk (mkOptions None (Some rootBeginning) FORWARD false false false)
            tree 12)
  = Return (Some expected).
Proof. vm_compute. reflexivity. Qed.

Example should_provide_iterator_interface_with_BACKWARD_direction :
  events (walk (mkOptions None (Some rootEnding) BACKWARD false false false)
            tree 12)
  = Return (Some (reverse expected)).
Proof. vm_compute. reflexivity. Qed.

(** The positions that the tests expect of a value are those before and
    after its item in the document, in both directions, and its length. *)
Definition expectPositions (v : Value) : list nat * list nat * option nat :=
  (previousPosition v, nextPosition v, length_ v).

Example values_carry_the_positions_around_the_item :
  bind (walk (mkOptions None (Some rootBeginning) FORWARD false false false)
          tree 12)
       (λ r, Return (option_map (map expectPositions) r))
  = Return (Some [ ([0], [0; 0], Some 1); ([0; 0], [1], None);
                   ([1], [1; 0], Some 1); ([1; 0], [1; 2], Some 2);
                   ([1; 2], [1; 3], Some 1); ([1; 3], [1; 3; 0], Some 1);
                   ([1; 3; 0], [1; 4], None); ([1; 4], [1; 5], Some 1);
                   ([1; 5], [2], None) ]%nat)
  ∧ bind (walk (mkOptions None (Some rootEnding) BACKWARD false false false)
            tree 12)
         (λ r, Return (option_map (map expectPositions) r))
    = Return (Some (reverse
                [ ([0], [0; 0], Some 1); ([0; 0], [1], None);
                  ([1], [1; 0], Some 1); ([1; 0], [1; 2], Some 2);
                  ([1; 2], [1; 3], Some 1); ([1; 3], [1; 3; 0], Some 1);
                  ([1; 3; 0], [1; 4], None); ([1; 4], [1; 5], Some 1);
                  ([1; 5], [2], None) ]%nat)).
Proof. split; vm_compute; reflexivity. Qed.

Example should_start_iterating_at_the_startPosition_going_backward :
  events (walk (mkOptions None (Some [1%nat]) BACKWARD false false false)
            tree 12)
  = Return (Some (reverse (take 2 expected))).
Proof. vm_compute. reflexivity. Qed.

Example range_starts_between_elements :
  events (walk (mkOptions (Some ([1], [1; 4])%nat) None FORWARD false false false)
            tree 12)
  = Return (Some (take 5 (drop 2 expected)))
  ∧ events (walk (mkOptions (Some ([1], [1; 4])%nat) (Some [1; 4]%nat) BACKWARD
                    false false false) tree 12)
    = Return (Some (reverse (take 5 (drop 2 expected)))).
Proof. split; vm_compute; reflexivity. Qed.

Example range_starts_inside_the_text :
  events (walk (mkOptions (Some ([1; 1], [1; 4])%nat) None FORWARD
                  false false false) tree 12)
  = Return (Some ((TEXT, TextItem (String.list_ascii_of_string "a") bold)
                    :: take 3 (drop 4 expected)))
  ∧ events (walk (mkOptions (Some ([1; 1], [1; 4])%nat) (Some [1; 4]%nat)
                    BACKWARD false false false) tree 12)
    = Return (Some (reverse ((TEXT, TextItem (String.list_ascii_of_string "a") bold)
                               :: take 3 (drop 4 expected)))).
Proof. split; vm_compute; reflexivity. Qed.

Example range_ends_inside_the_text :
  events (walk (mkOptions (Some ([0], [1; 1])%nat) None FORWARD
                  false false false) tree 12)
  = Return (Some (take 3 expected
                    ++ [(TEXT, TextItem (String.list_ascii_of_string "b") bold)]))
  ∧ events (walk (mkOptions (Some ([0], [1; 1])%nat) (Some [1; 1]%nat)
                    BACKWARD false false false) tree 12)
    = Return (Some (reverse (take 3 expected
                      ++ [(TEXT, TextItem (String.list_ascii_of_string "b") bold)]))).
Proof. split; vm_compute; reflexivity. Qed.

Example should_return_single_characters :
  events (walk (mkOptions None (Some rootBeginning) FORWARD true false false)
            tree 12)
  = Return (Some
      [ (ELEMENT_START, ElementItem img1);
        (ELEMENT_END, ElementItem img1);
        (ELEMENT_START, ElementItem paragraph);
        (CHARACTER, TextItem (String.list_ascii_of_string "b") bold);
        (CHARACTER, TextItem (String.list_ascii_of_string "a") bold);
        (CHARACTER, TextItem (String.list_ascii_of_string "r") ∅);
        (ELEMENT_START, ElementItem img2);
        (ELEMENT_END, ElementItem img2);
        (CHARACTER, TextItem (String.list_ascii_of_string "x") ∅);
        (ELEMENT_END, ElementItem paragraph) ]).
Proof. vm_compute. reflexivity. Qed.

Example should_not_enter_elements :
  events (walk (mkOptions None (Some rootBeginning) FORWARD false true false)
            tree 12)
  = Return (Some [ (ELEMENT_START, ElementItem img1);
                   (ELEMENT_START, ElementItem paragraph) ])
  ∧ events (walk (mkOptions None (Some rootEnding) BACKWARD false true false)
              tree 12)
    = Return (Some [ (ELEMENT_START, ElementItem paragraph);
                     (ELEMENT_START, ElementItem img1) ]).
Proof. split; vm_compute; reflexivity. Qed.

Example should_iterate_ignoring_ELEMENT_END :
  events (walk (mkOptions None (Some rootBeginning) FORWARD false false true)
            tree 12)
  = Return (Some (filter (λ v, v.1 ≠ ELEMENT_END) expected))
  ∧ events (walk (mkOptions None (Some rootEnding) BACKWARD false false true)
              tree 12)
    = Return (Some (reverse (filter (λ v, v.1 ≠ ELEMENT_END) expected))).
Proof. split; vm_compute; reflexivity. Qed.

Lemma backward_is_reverse_of_forward_between_elements :
  isValid tree [1%nat] = true ∧ isValid tree [1; 4]%nat = true
  ∧ compareWith [1%nat] [1; 4]%nat ≠ after
  ∧ ∃ vs,
      walk (mkOptions (Some ([1], [1; 4])%nat) None FORWARD false false false)
        tree 12 = Return (Some vs)
      ∧ walk (mkOptions (Some ([1], [1; 4])%nat) (Some [1; 4]%nat) BACKWARD
                false false false) tree 12
        = Return (Some (reverse vs)).
Proof.
  split; [reflexivity|]. split; [reflexivity|]. split; [discriminate|].
  apply (backward_is_reverse_of_forward tree [1%nat] [1; 4]%nat
           false false false 12);
    [reflexivity|reflexivity|discriminate|discriminate|vm_compute; lia].
Defined.

(** Outside the statement of [backward_is_reverse_of_forward]: a shallow
    walker whose boundaries end inside the paragraph, a case that neither
    the spec nor the test-suite describes.  As modelled here, going forward
    it passes the paragraph as a whole and stops at the end of the root,
    with two events; going backward from the end of the boundaries it starts
    inside the paragraph, with three events. *)
Example shallow_walker_between_two_depths :
  isValid tree [0%nat] = true ∧ isValid tree [1; 1]%nat = true
  ∧ compareWith [0%nat] [1; 1]%nat = before
  ∧ walk (mkOptions (Some ([0], [1; 1])%nat) None FORWARD false true false)
      tree 12
    = Return (Some
        [ mkValue ELEMENT_START (ElementItem img1) [0%nat] [1%nat] (Some 1%nat);
          mkValue ELEMENT_START (ElementItem paragraph) [1%nat] [2%nat]
            (Some 1%nat) ])
  ∧ walk (mkOptions (Some ([0], [1; 1])%nat) (Some [1; 1]%nat) BACKWARD
            false true false) tree 12
    = Return (Some
        [ mkValue TEXT (TextItem (String.list_ascii_of_string "b") bold)
            [1; 0]%nat [1; 1]%nat (Some 1%nat);
          mkValue ELEMENT_START (ElementItem paragraph) [1%nat] [1; 0]%nat
            (Some 1%nat);
          mkValue ELEMENT_START (ElementItem img1) [0%nat] [1%nat]
            (Some 1%nat) ]).
Proof. repeat split; vm_compute; reflexivity. Qed.

End TreeWalker.

(** ** MutationObserver *)

Module MutationObserver.
Import JS.

(** A native mutation record, as far as the handler reads it. *)
Record MutationRecord (DomNode : Type) := mkMutationRecord {
  type : string;
  target : DomNode
}.
Arguments mkMutationRecord {DomNode} _ _.
Arguments type {DomNode} _.
Arguments target {DomNode} _.

Section _onMutations.

(** DOM nodes and the nodes of the view are objects; view elements and view
    texts are keys of a [Set] and of a [Map], where they are compared by
    identity. *)
Context {DomNode ViewElement ViewText ViewNode : Type}.
Context `{!EqDecision ViewElement, !EqDecision ViewText}.

(** What the handler reads of the converter, of the DOM and of the view.
    A converter method gives [None] when it returns nothing (a falsy
    value); [parent] gives [None] for [null]. *)
Variable getCorespondingViewElement : DomNode → option ViewElement.
Variable getCorespondingViewText : DomNode → option ViewText.
Variable getCorespondingDomElement : ViewElement → option DomNode.
Variable domToView : DomNode → ViewNode.
Variable childNodes : DomNode → list DomNode.
Variable data : DomNode → string.
Variable parent : ViewText → option ViewElement.
Variable getText : ViewText → string.
Variable getChildren : ViewElement → list ViewNode.

(** The items of the array that the [mutations] event carries: the objects
    with [type: 'text'] and those with [type: 'children'] (whose [node] is
    the field [element] here). *)
Record MutatedText := mkMutatedText {
  oldText : string;
  newText : string;
  node : ViewText
}.

Record MutatedChildren := mkMutatedChildren {
  oldChildren : list ViewNode;
  newChildren : list ViewNode;
  element : ViewElement
}.

Inductive ViewMutation :=
| TextMutation (mutatedText : MutatedText)
| ChildrenMutation (mutatedChildren : MutatedChildren).

(** The calls that the handler makes on the renderer and on the tree view. *)
Inductive Effect :=
| markToSync_TEXT (node : ViewText)
| markToSync_CHILDREN (node : ViewElement)
| fire_mutations (viewMutations : list ViewMutation)
| render.

(** The body of the first loop. *)
Definition addMutatedElement (mutatedElements : JSSet ViewElement)
    (mutation : MutationRecord DomNode) : JSSet ViewElement :=
  if decide (type mutation = "childList") then
    match getCorespondingViewElement (target mutation) with
    | Some element => Set_add mutatedElements element
    | None => mutatedElements
    end
  else mutatedElements.

(** The first loop: the set of the view elements with a [childList]
    mutation. *)
Definition mutatedElements (domMutations : list (MutationRecord DomNode))
  : JSSet ViewElement :=
  foldl addMutatedElement [] domMutations.

(** [mutatedElements.has( text.parent )] *)
Definition has_parent (mutatedElements : JSSet ViewElement) (text : ViewText)
  : bool :=
  match parent text with
  | Some element => Set_has mutatedElements element
  | None => false
  end.

(** The body of the second loop. *)
Definition addMutatedText (mutatedElements : JSSet ViewElement)
    (mutatedTexts : JSMap ViewText MutatedText)
    (mutation : MutationRecord DomNode) : JSMap ViewText MutatedText :=
  if decide (type mutation = "characterData") then
    match getCorespondingViewText (target mutation) with
    | Some text =>
        if negb (has_parent mutatedElements text) then
          Map_set mutatedTexts text
            {| oldText := getText text;
               newText := data (target mutation);
               node := text |}
        else mutatedTexts
    | None => mutatedTexts
    end
  else mutatedTexts.

(** The second loop: the map of the view texts with a [characterData]
    mutation, but for the texts whose parent is in [mutatedElements]. *)
Definition mutatedTexts (mutatedElements : JSSet ViewElement)
    (domMutations : list (MutationRecord DomNode))
  : JSMap ViewText MutatedText :=
  foldl (addMutatedText mutatedElements) [] domMutations.

(** The last loop, over the elements of [mutatedElements]: the calls it
    makes and the items it pushes.  Reading [childNodes] of a view element
    without a DOM element throws. *)
Fixpoint childrenMutations (elements : list ViewElement)
  : list Effect * completion (list MutatedChildren) :=
  match elements with
  | [] => ([], Return [])
  | viewElement :: elements' =>
      match getCorespondingDomElement viewElement with
      | None => ([], Throw TypeError)
      | Some domElement =>
          let viewChildren := getChildren viewElement in
          let newViewChildren := domToView <$> childNodes domElement in
          let '(effects, result) := childrenMutations elements' in
          (markToSync_CHILDREN viewElement :: effects,
           bind result (λ viewMutations,
             Return ({| oldChildren := viewChildren;
                        newChildren := newViewChildren;
                        element := viewElement |} :: viewMutations)))
      end
  end.

(** [_onMutations( domMutations )]: the calls it makes, in order, and the
    exception that ends it, if any. *)
Definition _onMutations (domMutations : list (MutationRecord DomNode))
  : list Effect * option Error :=
  let mutatedElements := mutatedElements domMutations in
  let mutatedTexts := mutatedTexts mutatedElements domMutations in
  let texts := Map_values mutatedTexts in
  let '(effects, result) := childrenMutations mutatedElements in
  match result with
  | Return children =>
      (((λ mutatedText, markToSync_TEXT (node mutatedText)) <$> texts)
         ++ effects
         ++ [fire_mutations ((TextMutation <$> texts)
                               ++ (ChildrenMutation <$> children));
             render],
       None)
  | Throw e =>
      (((λ mutatedText, markToSync_TEXT (node mutatedText)) <$> texts)
         ++ effects,
       Some e)
  end.

(** *** What the handler reports *)

(** The structure of the view element [e] has changed: a [childList]
    mutation has a target that corresponds to it. *)
Definition structureChanged (domMutations : list (MutationRecord DomNode))
    (e : ViewElement) : Prop :=
  ∃ mutation, mutation ∈ domMutations ∧ type mutation = "childList" ∧
              getCorespondingViewElement (target mutation) = Some e.

(** [mutation] is a [characterData] mutation of the view text [t]. *)
Definition textChanged (mutation : MutationRecord DomNode) (t : ViewText)
  : Prop :=
  type mutation = "characterData" ∧
  getCorespondingViewText (target mutation) = Some t.

(** The [markToSync] call that goes with an item. *)
Definition markToSync (viewMutation : ViewMutation) : Effect :=
  match viewMutation with
  | TextMutation mutatedText => markToSync_TEXT (node mutatedText)
  | ChildrenMutation mutatedChildren =>
      markToSync_CHILDREN (element mutatedChildren)
  end.

Lemma mutatedElements_snoc ms m :
  mutatedElements (ms ++ [m]) = addMutatedElement (mutatedElements ms) m.
Proof. unfold mutatedElements. by rewrite foldl_app. Qed.

Lemma mutatedTexts_snoc S ms m :
  mutatedTexts S (ms ++ [m]) = addMutatedText S (mutatedTexts S ms) m.
Proof. unfold mutatedTexts. by rewrite foldl_app. Qed.

Lemma mutatedElements_NoDup ms : NoDup (mutatedElements ms).
Proof.
  induction ms as [|m ms IH] using rev_ind; [apply NoDup_nil_2|].
  rewrite mutatedElements_snoc. unfold addMutatedElement.
  case_decide; [|done].
  destruct (getCorespondingViewElement (target m)); [|done].
  by apply Set_add_NoDup.
Qed.

Lemma mutatedElements_elem_of ms e :
  e ∈ mutatedElements ms ↔ structureChanged ms e.
Proof.
  unfold structureChanged.
  induction ms as [|m ms IH] using rev_ind.
  - split; [by intros ?%elem_of_nil|]. by intros (? & ?%elem_of_nil & _).
  - rewrite mutatedElements_snoc. unfold addMutatedElement.
    assert ((∃ mutation, mutation ∈ ms ++ [m] ∧ type mutation = "childList" ∧
               getCorespondingViewElement (target mutation) = Some e)
            ↔ e ∈ mutatedElements ms ∨
              (type m = "childList" ∧
               getCorespondingViewElement (target m) = Some e)) as ->.
    { rewrite IH. split.
      - intros (r & [Hr| ->%list_elem_of_singleton]%elem_of_app & Ht & Hc);
          [left; eauto|by right].
      - intros [(r & Hr & Ht & Hc)|[Ht Hc]].
        + exists r. split; [|done]. apply elem_of_app. by left.
        + exists m. split; [|done]. apply elem_of_app. right.
          by apply list_elem_of_singleton. }
    case_decide as Ht; [|split; [by left|]; intros [?|[? _]]; done].
    destruct (getCorespondingViewElement (target m)) as [e'|];
      [|split; [by left|]; intros [?|[_ ?]]; done].
    rewrite Set_add_elem_of. split.
    + intros [?| ->]; [by left|by right].
    + intros [?|[_ [= ->]]]; [by left|by right].
Qed.

Lemma mutatedTexts_NoDup S ms : NoDup (mutatedTexts S ms).*1.
Proof.
  induction ms as [|m ms IH] using rev_ind; [apply NoDup_nil_2|].
  rewrite mutatedTexts_snoc. unfold addMutatedText.
  case_decide; [|done].
  destruct (getCorespondingViewText (target m)); [|done].
  destruct (negb _); [|done]. by apply Map_set_NoDup.
Qed.

Lemma mutatedTexts_keys S ms t :
  t ∈ (mutatedTexts S ms).*1 ↔
  (∃ mutation, mutation ∈ ms ∧ textChanged mutation t) ∧ has_parent S t = false.
Proof.
  unfold textChanged.
  induction ms as [|m ms IH] using rev_ind.
  - split; [by intros ?%elem_of_nil|]. by intros [(? & ?%elem_of_nil & _) _].
  - rewrite mutatedTexts_snoc. unfold addMutatedText.
    assert ((∃ mutation, mutation ∈ ms ++ [m] ∧ type mutation = "characterData" ∧
               getCorespondingViewText (target mutation) = Some t)
            ↔ (∃ mutation, mutation ∈ ms ∧ type mutation = "characterData" ∧
                 getCorespondingViewText (target mutation) = Some t) ∨
              (type m = "characterData" ∧
               getCorespondingViewText (target m) = Some t)) as ->.
    { split.
      - intros (r & [Hr| ->%list_elem_of_singleton]%elem_of_app & Ht & Hc);
          [left; eauto|by right].
      - intros [(r & Hr & Ht & Hc)|[Ht Hc]].
        + exists r. split; [|done]. apply elem_of_app. by left.
        + exists m. split; [|done]. apply elem_of_app. right.
          by apply list_elem_of_singleton. }
    case_decide as Ht;
      [|rewrite IH; split; (intros [Hc ?]; split; [|done]);
          [by left|by destruct Hc as [?|[? _]]]].
    destruct (getCorespondingViewText (target m)) as [t'|];
      [|rewrite IH; split; (intros [Hc ?]; split; [|done]);
          [by left|by destruct Hc as [?|[_ ?]]]].
    destruct (has_parent S t') eqn:Hp; simpl.
    + rewrite IH. split; [intros [? ?]; split; [by left|done]|].
      intros [[?|[_ [= ->]]] Hnp]; [done|congruence].
    + rewrite Map_set_elem_of_keys, IH. split.
      * intros [[? ?]| ->]; (split; [|done]); [by left|by right].
      * intros [[?|[_ [= ->]]] Hnp]; [by left|by right].
Qed.

Lemma mutatedTexts_value S ms t v :
  Map_get (mutatedTexts S ms) t = Some v →
  node v = t ∧ oldText v = getText t ∧
  ∃ ms1 mutation ms2,
    ms = ms1 ++ mutation :: ms2 ∧ textChanged mutation t ∧
    newText v = data (target mutation) ∧
    Forall (λ later, ¬ textChanged later t) ms2.
Proof.
  revert v. induction ms as [|m ms IH] using rev_ind; intros v; [done|].
  rewrite mutatedTexts_snoc. unfold addMutatedText.
  assert (∀ v, Map_get (mutatedTexts S ms) t = Some v → ¬ textChanged m t →
          node v = t ∧ oldText v = getText t ∧
          ∃ ms1 mutation ms2,
            ms ++ [m] = ms1 ++ mutation :: ms2 ∧ textChanged mutation t ∧
            newText v = data (target mutation) ∧
            Forall (λ later, ¬ textChanged later t) ms2) as Hold.
  { intros v' Hv' Hm. destruct (IH v' Hv') as (? & ? & ms1 & r & ms2 & -> & ? & ? & ?).
    split; [done|]. split; [done|]. exists ms1, r, (ms2 ++ [m]).
    split; [by rewrite <- app_assoc|]. split; [done|]. split; [done|].
    apply Forall_app. split; [done|]. by apply Forall_singleton. }
  case_decide as Ht; [|intros Hv; apply Hold; [done|by intros [? _]]].
  destruct (getCorespondingViewText (target m)) as [t'|] eqn:Ht';
    [|intros Hv; apply Hold; [done|intros [_ ?]; congruence]].
  destruct (has_parent S t') eqn:Hp; simpl.
  - intros Hv. apply Hold; [done|]. intros [_ Heq].
    rewrite Ht' in Heq. injection Heq as ->.
    assert (t ∈ (mutatedTexts S ms).*1) as Hin
      by (apply Map_get_is_Some; eauto).
    apply mutatedTexts_keys in Hin as [_ ?]. congruence.
  - rewrite Map_get_set. case_decide as Htt.
    + subst t'. intros [= <-]. simpl. split; [done|]. split; [done|].
      exists ms, m, []. split; [done|]. split; [done|]. split; [done|].
      apply Forall_nil_2.
    + intros Hv. apply Hold; [done|]. intros [_ ?]. congruence.
Qed.

Lemma childrenMutations_Return elements effects children :
  childrenMutations elements = (effects, Return children) →
  effects = markToSync_CHILDREN <$> elements ∧
  element <$> children = elements ∧
  Forall (λ c, oldChildren c = getChildren (element c) ∧
               ∃ domElement,
                 getCorespondingDomElement (element c) = Some domElement ∧
                 newChildren c = domToView <$> childNodes domElement)
         children.
Proof.
  revert effects children.
  induction elements as [|e elements IH]; intros effects children; simpl.
  - intros [= <- <-]. split; [done|]. split; [done|]. apply Forall_nil_2.
  - destruct (getCorespondingDomElement e) as [dom|] eqn:Hdom; [|done].
    destruct (childrenMutations elements) as [effects' [children'|err]];
      simpl; [|done].
    intros [= <- <-]. destruct (IH _ _ eq_refl) as (-> & Hel & Hall).
    split; [done|]. split; [by rewrite fmap_cons, Hel|].
    constructor; [simpl; eauto|done].
Qed.

Lemma childrenMutations_bound elements :
  Forall (λ e, is_Some (getCorespondingDomElement e)) elements →
  ∃ children, childrenMutations elements
              = (markToSync_CHILDREN <$> elements, Return children).
Proof.
  induction 1 as [|e elements [dom Hdom] _ [children IH]]; simpl; [eauto|].
  rewrite Hdom, IH. simpl. eauto.
Qed.

Lemma childrenMutations_no_fire elements vms :
  fire_mutations vms ∉ (childrenMutations elements).1.
Proof.
  induction elements as [|e elements IH]; simpl; [by intros ?%elem_of_nil|].
  destruct (getCorespondingDomElement e); [|by intros ?%elem_of_nil].
  destruct (childrenMutations elements) as [effects result]. simpl in *.
  intros [?|?]%elem_of_cons; [done|]. by apply IH.
Qed.

(** The event carries the values of [mutatedTexts], followed by the items
    of the last loop, when that loop ran to its end. *)
Lemma fired domMutations viewMutations :
  fire_mutations viewMutations ∈ (_onMutations domMutations).1 →
  ∃ effects children,
    childrenMutations (mutatedElements domMutations) = (effects, Return children)
    ∧ viewMutations
      = (TextMutation
           <$> Map_values (mutatedTexts (mutatedElements domMutations) domMutations))
        ++ (ChildrenMutation <$> children).
Proof.
  unfold _onMutations.
  pose proof (childrenMutations_no_fire (mutatedElements domMutations)
                viewMutations) as Hno.
  destruct (childrenMutations (mutatedElements domMutations))
    as [effects [children|err]]; simpl in *.
  - rewrite !elem_of_app. intros [Hin|[Hin|Hin]].
    + apply list_elem_of_fmap in Hin as (? & ? & _). done.
    + done.
    + apply elem_of_cons in Hin as [[= ->]|Hin]; [eauto|].
      by apply list_elem_of_singleton in Hin.
  - rewrite elem_of_app. intros [Hin|Hin]; [|done].
    apply list_elem_of_fmap in Hin as (? & ? & _). done.
Qed.

Lemma mutatedTexts_nodes S ms :
  node <$> Map_values (mutatedTexts S ms) = (mutatedTexts S ms).*1.
Proof.
  pose proof (mutatedTexts_NoDup S ms) as Hnd.
  assert (∀ t v, (t, v) ∈ mutatedTexts S ms → node v = t) as Hnode.
  { intros t v Hin. apply (Map_get_NoDup _ _ _ Hnd) in Hin.
    by apply mutatedTexts_value in Hin as [? _]. }
  unfold Map_values. induction (mutatedTexts S ms) as [|[t v] l IH]; [done|].
  cbn [fmap list_fmap]. simpl. f_equal.
  - apply Hnode. by left.
  - apply IH.
    + by apply list.NoDup_cons in Hnd as [_ ?].
    + intros t' v' Hin. apply Hnode. by right.
Qed.

Lemma has_parent_false S t :
  has_parent S t = false ↔ ∀ e, parent t = Some e → e ∉ S.
Proof.
  unfold has_parent, Set_has. destruct (parent t) as [e|].
  - rewrite bool_decide_eq_false. split; [by intros ? ? [= <-]|eauto].
  - split; [by intros _ ? ?|done].
Qed.

(** X15 — when every view element that corresponds to a mutation target
    has a DOM element, the handler ends without an exception, after these
    calls: one [markToSync] for each item of the array of view mutations, in
    the order of the array, then [fire( 'mutations', ... )] once with the
    array, then [render()] once.  It fires and renders also when the array
    is empty. *)
Theorem _onMutations_calls domMutations :
  (∀ domNode e, getCorespondingViewElement domNode = Some e →
                is_Some (getCorespondingDomElement e)) →
  ∃ viewMutations,
    _onMutations domMutations
    = ((markToSync <$> viewMutations)
         ++ [fire_mutations viewMutations; render], None).
Proof.
  intros Hbound. unfold _onMutations.
  destruct (childrenMutations_bound (mutatedElements domMutations))
    as [children Hchildren].
  { apply list.Forall_forall. intros e (r & _ & _ & Hr)%mutatedElements_elem_of.
    by eapply Hbound. }
  rewrite Hchildren.
  apply childrenMutations_Return in Hchildren as (_ & Hel & _).
  exists ((TextMutation
             <$> Map_values (mutatedTexts (mutatedElements domMutations)
                               domMutations))
          ++ (ChildrenMutation <$> children)).
  rewrite fmap_app, <- !list_fmap_compose, <- app_assoc.
  f_equal. f_equal. f_equal. rewrite <- Hel, <- list_fmap_compose. done.
Qed.

(** X16 — the array that the [mutations] event carries has no duplicates:
    its text items come first, for pairwise distinct view texts, and its
    children items follow, for pairwise distinct view elements. *)
Theorem _onMutations_no_duplicates domMutations viewMutations :
  fire_mutations viewMutations ∈ (_onMutations domMutations).1 →
  ∃ texts children,
    viewMutations = (TextMutation <$> texts) ++ (ChildrenMutation <$> children)
    ∧ NoDup (node <$> texts) ∧ NoDup (element <$> children).
Proof.
  intros (effects & children & Hchildren & ->)%fired.
  eexists _, children. split; [done|].
  rewrite mutatedTexts_nodes. split; [apply mutatedTexts_NoDup|].
  apply childrenMutations_Return in Hchildren as (_ & -> & _).
  apply mutatedElements_NoDup.
Qed.

(** X17 — what the [mutations] event reports: a view element exactly when a
    [childList] mutation has a target that corresponds to it; a view text
    exactly when a [characterData] mutation has a target that corresponds to
    it and no [childList] mutation of the same call, earlier or later,
    reports its parent. *)
Theorem _onMutations_reports domMutations viewMutations :
  fire_mutations viewMutations ∈ (_onMutations domMutations).1 →
  (∀ t, (∃ m, TextMutation m ∈ viewMutations ∧ node m = t) ↔
        (∃ mutation, mutation ∈ domMutations ∧ textChanged mutation t) ∧
        ∀ e, parent t = Some e → ¬ structureChanged domMutations e) ∧
  (∀ e, (∃ m, ChildrenMutation m ∈ viewMutations ∧ element m = e) ↔
        structureChanged domMutations e).
Proof.
  intros (effects & children & Hchildren & ->)%fired.
  apply childrenMutations_Return in Hchildren as (_ & Hel & _).
  set (S := mutatedElements domMutations) in *.
  set (M := mutatedTexts S domMutations).
  split.
  - intros t.
    assert ((∃ m, TextMutation m ∈ (TextMutation <$> Map_values M)
                    ++ (ChildrenMutation <$> children) ∧ node m = t)
            ↔ t ∈ M.*1) as ->.
    { unfold M. rewrite <- mutatedTexts_nodes. fold M. split.
      - intros (m & [Hin|Hin]%elem_of_app & <-).
        + apply list_elem_of_fmap in Hin as (m' & [= <-] & Hin).
          apply list_elem_of_fmap. eauto.
        + by apply list_elem_of_fmap in Hin as (? & ? & _).
      - intros (m & -> & Hin)%list_elem_of_fmap. exists m. split; [|done].
        apply elem_of_app. left. apply list_elem_of_fmap. eauto. }
    unfold M. rewrite mutatedTexts_keys, has_parent_false.
    split; intros [Hc Hp]; (split; [done|]); intros e He.
    + unfold S in Hp. rewrite <- mutatedElements_elem_of. by apply Hp.
    + unfold S. rewrite mutatedElements_elem_of. by apply Hp.
  - intros e. rewrite <- mutatedElements_elem_of. fold S. rewrite <- Hel. split.
    + intros (m & [Hin|Hin]%elem_of_app & <-).
      * by apply list_elem_of_fmap in Hin as (? & ? & _).
      * apply list_elem_of_fmap in Hin as (m' & [= <-] & Hin).
        apply list_elem_of_fmap. eauto.
    + intros (m & -> & Hin)%list_elem_of_fmap. exists m. split; [|done].
      apply elem_of_app. right. apply list_elem_of_fmap. eauto.
Qed.

(** X18 — the contents of the reported items.  A text item carries the
    text of the view text as [oldText], and as [newText] the data of the
    target of the last [characterData] mutation for that view text.  A
    children item carries the children of the view element as
    [oldChildren], and as [newChildren] the views of the child nodes of its
    DOM element. *)
Theorem _onMutations_items domMutations viewMutations :
  fire_mutations viewMutations ∈ (_onMutations domMutations).1 →
  (∀ m, TextMutation m ∈ viewMutations →
        oldText m = getText (node m) ∧
        ∃ before mutation later,
          domMutations = before ++ mutation :: later ∧
          textChanged mutation (node m) ∧
          newText m = data (target mutation) ∧
          Forall (λ mutation', ¬ textChanged mutation' (node m)) later) ∧
  (∀ m, ChildrenMutation m ∈ viewMutations →
        oldChildren m = getChildren (element m) ∧
        ∃ domElement,
          getCorespondingDomElement (element m) = Some domElement ∧
          newChildren m = domToView <$> childNodes domElement).
Proof.
  intros (effects & children & Hchildren & ->)%fired.
  apply childrenMutations_Return in Hchildren as (_ & _ & Hall).
  split.
  - intros m [Hin|Hin]%elem_of_app;
      [|by apply list_elem_of_fmap in Hin as (? & ? & _)].
    apply list_elem_of_fmap in Hin as (m' & [= <-] & Hin).
    apply list_elem_of_fmap in Hin as ([t v] & -> & Hin). simpl.
    apply (Map_get_NoDup _ _ _ (mutatedTexts_NoDup _ _)) in Hin.
    apply mutatedTexts_value in Hin as (-> & Hold & Hnew). done.
  - intros m [Hin|Hin]%elem_of_app;
      [by apply list_elem_of_fmap in Hin as (? & ? & _)|].
    apply list_elem_of_fmap in Hin as (m' & [= <-] & Hin).
    by apply (proj1 (list.Forall_forall _ _) Hall).
Qed.

End _onMutations.
(** *** A sample call

    The view of [<div>a<p>b</p></div>]: the DOM elements [DIV] and [P]
    correspond to the view elements [div] and [p], the DOM texts [#a] and
    [#b] to the view texts [a] (in [div]) and [b] (in [p]).  The text [#a]
    has been changed twice, the text [#b] once, a [BR] has been added to
    [P], and an attribute of [DIV] has changed. *)

Definition sampleViewElement (domNode : string) : option string :=
  if decide (domNode = "P") then Some "p"
  else if decide (domNode = "DIV") then Some "div" else None.

Definition sampleViewText (domNode : string) : option string :=
  if decide (domNode = "#a") then Some "a"
  else if decide (domNode = "#b") then Some "b" else None.

Definition sampleDomElement (e : string) : option string :=
  if decide (e = "p") then Some "P"
  else if decide (e = "div") then Some "DIV" else None.

Definition sampleChildNodes (domNode : string) : list string :=
  if decide (domNode = "P") then ["#b"; "BR"] else [].

Definition sampleData (domNode : string) : string :=
  if decide (domNode = "#a") then "A" else "B".

Definition sampleParent (t : string) : option string :=
  if decide (t = "a") then Some "div"
  else if decide (t = "b") then Some "p" else None.

Definition sampleChildren (e : string) : list string :=
  if decide (e = "p") then ["#b"] else [].

Definition sampleMutations : list (MutationRecord string) :=
  [ mkMutationRecord "characterData" "#a";
    mkMutationRecord "characterData" "#b";
    mkMutationRecord "childList" "P";
    mkMutationRecord "attributes" "DIV";
    mkMutationRecord "characterData" "#a" ].

Definition sample_onMutations :=
  _onMutations sampleViewElement sampleViewText sampleDomElement id
    sampleChildNodes sampleData sampleParent id sampleChildren sampleMutations.

Definition sampleViewMutations : list (ViewMutation (ViewNode := string)) :=
  [ TextMutation (mkMutatedText "a" "A" "a");
    ChildrenMutation (mkMutatedChildren ["#b"] ["#b"; "BR"] "p") ].

Example sample_onMutations_calls :
  sample_onMutations
  = ([ markToSync_TEXT "a"; markToSync_CHILDREN "p";
       fire_mutations sampleViewMutations; render ], None).
Proof. vm_compute. reflexivity. Qed.

Lemma sample_fired :
  fire_mutations sampleViewMutations ∈ sample_onMutations.1.
Proof. apply (list_elem_of_lookup_2 _ 2%nat). vm_compute. reflexivity. Defined.

Lemma _onMutations_calls_sample :
  ∃ viewMutations,
    sample_onMutations
    = ((markToSync <$> viewMutations)
         ++ [fire_mutations viewMutations; render], None).
Proof.
  apply (_onMutations_calls sampleViewElement sampleViewText sampleDomElement
           id sampleChildNodes sampleData sampleParent id sampleChildren
           sampleMutations).
  intros domNode e. unfold sampleViewElement.
  repeat case_decide; intros [= <-]; eexists; reflexivity.
Defined.

Lemma _onMutations_no_duplicates_sample :
  ∃ texts children,
    sampleViewMutations
    = (TextMutation <$> texts) ++ (ChildrenMutation <$> children)
    ∧ NoDup (node <$> texts) ∧ NoDup (element <$> children).
Proof.
  exact (_onMutations_no_duplicates sampleViewElement sampleViewText
           sampleDomElement id sampleChildNodes sampleData sampleParent id
           sampleChildren sampleMutations sampleViewMutations sample_fired).
Defined.

Lemma _onMutations_reports_sample :
  (∀ t, (∃ m, TextMutation m ∈ sampleViewMutations ∧ node m = t) ↔
        (∃ mutation, mutation ∈ sampleMutations
                     ∧ textChanged sampleViewText mutation t) ∧
        ∀ e, sampleParent t = Some e
             → ¬ structureChanged sampleViewElement sampleMutations e) ∧
  (∀ e, (∃ m, ChildrenMutation m ∈ sampleViewMutations ∧ element m = e) ↔
        structureChanged sampleViewElement sampleMutations e).
Proof.
  exact (_onMutations_reports sampleViewElement sampleViewText
           sampleDomElement id sampleChildNodes sampleData sampleParent id
           sampleChildren sampleMutations sampleViewMutations sample_fired).
Defined.

Lemma _onMutations_items_sample :
  (∀ m, TextMutation m ∈ sampleViewMutations →
        oldText m = id (node m) ∧
        ∃ before mutation later,
          sampleMutations = before ++ mutation :: later ∧
          textChanged sampleViewText mutation (node m) ∧
          newText m = sampleData (target mutation) ∧
          Forall (λ mutation', ¬ textChanged sampleViewText mutation' (node m))
                 later) ∧
  (∀ m, ChildrenMutation m ∈ sampleViewMutations →
        oldChildren m = sampleChildren (element m) ∧
        ∃ domElement,
          sampleDomElement (element m) = Some domElement ∧
          newChildren m = id <$> sampleChildNodes domElement).
Proof.
  exact (_onMutations_items sampleViewElement sampleViewText
           sampleDomElement id sampleChildNodes sampleData sampleParent id
           sampleChildren sampleMutations sampleViewMutations sample_fired).
Defined.

End MutationObserver.

(** ** Observers that are switched off while the renderer works *)

Module Observers.

(** What a call means for the observers: it switches an observer on or
    off, it is the work that no observer should see, or it is something
    else. *)
Inductive Kind (Observer : Type) :=
| switch_on (observer : Observer)
| switch_off (observer : Observer)
| work
| other.
Arguments switch_on {Observer} _.
Arguments switch_off {Observer} _.
Arguments work {Observer}.
Arguments other {Observer}.

Section observers.
Context {Observer : Type} `{!EqDecision Observer} {Effect : Type}.
Variable kind : Effect → Kind Observer.

(** Whether an observer is on after a call. *)
Definition switch (on : bool) (effect : Effect) (observer : Observer) : bool :=
  match kind effect with
  | switch_on o => if decide (o = observer) then true else on
  | switch_off o => if decide (o = observer) then false else on
  | _ => on
  end.

Definition onFrom (start : bool) (effects : list Effect) (observer : Observer)
  : bool :=
  foldl (λ on effect, switch on effect observer) start effects.

(** Whether [observer] is on after the calls [effects]: whether the last
    call that switches it, if there is one, switches it on. *)
Definition on (effects : list Effect) (observer : Observer) : bool :=
  onFrom false effects observer.

(** No observer is on at a call that is work. *)
Definition quiet (effects : list Effect) : Prop :=
  ∀ before effect after,
    effects = before ++ effect :: after → kind effect = work →
    ∀ observer, on before observer = false.

Lemma onFrom_app start effects1 effects2 observer :
  onFrom start (effects1 ++ effects2) observer
  = onFrom (onFrom start effects1 observer) effects2 observer.
Proof. unfold onFrom. by rewrite foldl_app. Qed.

Lemma on_app effects1 effects2 observer :
  on (effects1 ++ effects2) observer
  = onFrom (on effects1 observer) effects2 observer.
Proof. apply onFrom_app. Qed.

Lemma onFrom_other start effects observer :
  Forall (λ effect, kind effect = work ∨ kind effect = other) effects →
  onFrom start effects observer = start.
Proof.
  intros Hall. revert start.
  induction Hall as [|effect effects Hk _ IH]; intros start; [done|].
  cbn [onFrom foldl]. fold (onFrom (switch start effect observer) effects observer).
  rewrite IH. unfold switch. by destruct Hk as [-> | ->].
Qed.

Lemma onFrom_off (off : Observer → Effect) start (l : list Observer) observer :
  (∀ o, kind (off o) = switch_off o) →
  onFrom start (off <$> l) observer = start && bool_decide (observer ∉ l).
Proof.
  intros Hoff. revert start. induction l as [|o l IH]; intros start.
  - rewrite bool_decide_true; [by rewrite andb_true_r|]. by intros ?%elem_of_nil.
  - cbn [fmap list_fmap onFrom foldl].
    fold (onFrom (switch start (off o) observer) (off <$> l) observer).
    rewrite IH. unfold switch. rewrite Hoff.
    destruct (decide (o = observer)) as [->|Hne].
    + rewrite (bool_decide_false (observer ∉ observer :: l));
        [by rewrite andb_false_r|]. intros Hnin. apply Hnin. by left.
    + f_equal. apply bool_decide_ext. rewrite not_elem_of_cons.
      split; [intros ?; split; [congruence|done]|by intros [_ ?]].
Qed.

Lemma onFrom_on (on_ : Observer → Effect) start (l : list Observer) observer :
  (∀ o, kind (on_ o) = switch_on o) →
  onFrom start (on_ <$> l) observer = start || bool_decide (observer ∈ l).
Proof.
  intros Hon. revert start. induction l as [|o l IH]; intros start.
  - rewrite bool_decide_false; [by rewrite orb_false_r|]. by intros ?%elem_of_nil.
  - cbn [fmap list_fmap onFrom foldl].
    fold (onFrom (switch start (on_ o) observer) (on_ <$> l) observer).
    rewrite IH. unfold switch. rewrite Hon.
    destruct (decide (o = observer)) as [->|Hne].
    + rewrite (bool_decide_true (observer ∈ observer :: l)); [|by left].
      by rewrite orb_true_r.
    + f_equal. apply bool_decide_ext. rewrite elem_of_cons.
      split; [by right|]. intros [->|?]; [by destruct Hne|done].
Qed.

Lemma split_at_work (l1 l2 before after : list Effect) (w effect : Effect) :
  Forall (λ e, kind e ≠ work) l1 → Forall (λ e, kind e ≠ work) l2 →
  l1 ++ w :: l2 = before ++ effect :: after → kind effect = work →
  before = l1.
Proof.
  intros Hl1 Hl2 Heq Hwork. revert before Heq.
  induction Hl1 as [|a l1 Ha _ IH]; intros [|b before]; simpl.
  - done.
  - intros [= <- ->]. apply Forall_app in Hl2 as [_ Hl2].
    by apply list.Forall_cons in Hl2 as [? _].
  - by intros [= -> _].
  - intros [= <- Heq]. f_equal. by apply IH.
Qed.

Lemma quiet_nil : quiet [].
Proof. intros [|? before] effect after; simpl; intros [=]. Qed.

Lemma quiet_app effects1 effects2 :
  quiet effects1 →
  (∀ before effect after,
     effects2 = before ++ effect :: after → kind effect = work →
     ∀ observer, on (effects1 ++ before) observer = false) →
  quiet (effects1 ++ effects2).
Proof.
  intros H1 H2 before effect after Heq Hwork observer.
  apply app_eq_inv in Heq as [(k & -> & Hk)|(k & -> & Hk)].
  - destruct k as [|x k]; simpl in Hk.
    + subst effects2. specialize (H2 [] effect after eq_refl Hwork observer).
      by rewrite !app_nil_r in H2.
    + injection Hk as <- ->. by eapply (H1 before effect k).
  - by eapply H2.
Qed.

(** Calls that are no work keep the calls quiet. *)
Lemma quiet_app_no_work effects1 effects2 :
  quiet effects1 → Forall (λ e, kind e ≠ work) effects2 →
  quiet (effects1 ++ effects2).
Proof.
  intros H1 Hall. apply quiet_app; [done|].
  intros before effect after -> Hwork.
  apply Forall_app in Hall as [_ Hall].
  by apply list.Forall_cons in Hall as [? _].
Qed.

(** The observers [l] are switched off, the work is done, and the
    observers are switched on again: when exactly the observers of [l] were
    on before, the calls stay quiet and the same observers are on after. *)
Lemma quiet_bracket (off on_ : Observer → Effect) (w : Effect)
    (effects : list Effect) (l : list Observer) :
  (∀ o, kind (off o) = switch_off o) → (∀ o, kind (on_ o) = switch_on o) →
  kind w = work →
  quiet effects →
  (∀ observer, on effects observer = bool_decide (observer ∈ l)) →
  quiet (effects ++ (off <$> l) ++ [w] ++ (on_ <$> l)) ∧
  ∀ observer,
    on (effects ++ (off <$> l) ++ [w] ++ (on_ <$> l)) observer
    = bool_decide (observer ∈ l).
Proof.
  intros Hoff Hon Hw Hq Hl. split.
  - apply quiet_app; [done|]. intros before effect after Heq Hwork observer.
    apply split_at_work in Heq as ->; [|..|done].
    + rewrite on_app, Hl, (onFrom_off off) by done.
      destruct (decide (observer ∈ l)) as [Hin|Hnin].
      * rewrite (bool_decide_false (observer ∉ l));
          [by rewrite andb_false_r|]. by intros ?.
      * by rewrite (bool_decide_false (observer ∈ l)).
    + apply list.Forall_forall. intros e (o & -> & _)%list_elem_of_fmap.
      by rewrite Hoff.
    + apply list.Forall_forall. intros e (o & -> & _)%list_elem_of_fmap.
      by rewrite Hon.
  - intros observer. rewrite on_app, Hl, onFrom_app, (onFrom_off off) by done.
    rewrite onFrom_app, (onFrom_other _ [w]), (onFrom_on on_) by
      (done || (apply Forall_singleton; by left)).
    destruct (decide (observer ∈ l)) as [Hin|Hnin].
    + rewrite !(bool_decide_true (observer ∈ l)) by done. by rewrite orb_true_r.
    + by rewrite !(bool_decide_false (observer ∈ l)) by done.
Qed.

End observers.
End Observers.

(** ** TreeView *)

Module TreeView.
Import JS Observers.

Section TreeView.

(** Observers are objects, held in a [Set]; the DOM root and the view root
    are objects too. *)
Context {Observer : Type} `{!EqDecision Observer}.
Context {HTMLElement ViewElement : Type}.

(** [converter.domToView( domRoot, { bind: true, withChildren: false } )] *)
Variable domToView : HTMLElement → ViewElement.

(** The calls that a tree view makes on its view root, on its renderer and
    on its observers. *)
Inductive Effect :=
| setTreeView (viewRoot : ViewElement)
| markToSync_CHILDREN (viewRoot : ViewElement)
| on_change (viewRoot : ViewElement)
| init (observer : Observer)
| attach (observer : Observer)
| detach (observer : Observer)
| renderer_render.

Record TreeView := mkTreeView {
  domRoot : HTMLElement;
  observers : JSSet Observer;
  viewRoot : ViewElement
}.

(** [constructor( domRoot )]: the tree view has no observers; its writer,
    converter and renderer are objects of their own. *)
Definition new_TreeView (domRoot : HTMLElement) : TreeView * list Effect :=
  let viewRoot := domToView domRoot in
  ({| domRoot := domRoot; observers := []; viewRoot := viewRoot |},
   [setTreeView viewRoot; markToSync_CHILDREN viewRoot; on_change viewRoot]).

(** [addObserver( observer )] *)
Definition addObserver (treeView : TreeView) (observer : Observer)
  : TreeView * list Effect :=
  ({| domRoot := domRoot treeView;
      observers := Set_add (observers treeView) observer;
      viewRoot := viewRoot treeView |},
   [init observer; attach observer]).

(** [render()] *)
Definition render (treeView : TreeView) : TreeView * list Effect :=
  (treeView,
   (detach <$> observers treeView)
     ++ [renderer_render]
     ++ (attach <$> observers treeView)).

(** A call of a method of a tree view. *)
Inductive Call :=
| call_addObserver (observer : Observer)
| call_render.

Definition call (treeView : TreeView) (c : Call) : TreeView * list Effect :=
  match c with
  | call_addObserver observer => addObserver treeView observer
  | call_render => render treeView
  end.

(** A tree view is created and its methods are called: the tree view and
    the calls it has made, in order. *)
Definition run (domRoot : HTMLElement) (calls : list Call)
  : TreeView * list Effect :=
  foldl (λ '(treeView, effects) c,
           let '(treeView', effects') := call treeView c in
           (treeView', effects ++ effects'))
        (new_TreeView domRoot) calls.

(** *** Observers are detached while the renderer works *)

(** [attach()] switches an observer on, [detach()] switches it off, and the
    work is [renderer.render()]. *)
Definition kind (effect : Effect) : Kind Observer :=
  match effect with
  | attach observer => switch_on observer
  | detach observer => switch_off observer
  | renderer_render => work
  | _ => other
  end.

(** Whether [observer] is attached after the calls [effects]: whether the
    last of its [attach()] and [detach()] calls is [attach()]. *)
Definition attached (effects : list Effect) (observer : Observer) : bool :=
  on kind effects observer.

Lemma run_last_call domRoot calls c :
  run domRoot (calls ++ [c])
  = ((call (run domRoot calls).1 c).1,
     (run domRoot calls).2 ++ (call (run domRoot calls).1 c).2).
Proof.
  unfold run. rewrite foldl_app. simpl.
  destruct (foldl _ _ calls) as [treeView effects]. simpl.
  by destruct (call treeView c).
Qed.

Lemma run_observers domRoot calls observer :
  observer ∈ observers (run domRoot calls).1 ↔ call_addObserver observer ∈ calls.
Proof.
  induction calls as [|c calls IH] using rev_ind.
  - simpl. split; by intros ?%elem_of_nil.
  - rewrite run_last_call, elem_of_app, list_elem_of_singleton. simpl.
    destruct c as [o|]; simpl.
    + rewrite Set_add_elem_of, IH. split; [intros [?| ->]; eauto|].
      intros [?|[= ->]]; eauto.
    + rewrite IH. split; [eauto|]. by intros [?|?].
Qed.

Lemma run_invariant domRoot calls :
  (∀ observer,
     attached (run domRoot calls).2 observer
     = bool_decide (observer ∈ observers (run domRoot calls).1)) ∧
  quiet kind (run domRoot calls).2.
Proof.
  unfold attached.
  induction calls as [|c calls [IHa IHq]] using rev_ind.
  - split; [done|].
    intros [|? [|? [|? [|? before]]]] effect after; simpl; intros [=]; by subst.
  - rewrite run_last_call. set (r := run domRoot calls) in *.
    destruct c as [o|]; simpl.
    + split.
      * intros observer. rewrite on_app, IHa. simpl. unfold switch. simpl.
        destruct (decide (o = observer)) as [->|Hne].
        -- symmetry. apply bool_decide_eq_true, Set_add_elem_of. by right.
        -- apply bool_decide_ext. rewrite Set_add_elem_of.
           split; [by left|]. intros [?| ->]; [done|by destruct Hne].
      * apply quiet_app_no_work; [done|]. by repeat constructor.
    + destruct (quiet_bracket kind detach attach renderer_render r.2
                  (observers r.1)) as [Hq Ha]; try done.
Qed.

(** X19 — whatever observers are added to a tree view and whenever it is
    rendered, no observer is attached while the renderer works: at every
    call of [renderer.render()], the last call on each observer, if there
    is one, is [detach()]. *)
Theorem render_with_observers_detached domRoot calls before after :
  (run domRoot calls).2 = before ++ renderer_render :: after →
  ∀ observer, attached before observer = false.
Proof.
  intros Heq. by apply (proj2 (run_invariant domRoot calls) _ _ _ Heq).
Qed.

(** X20 — after any calls of [addObserver] and [render], the observers
    that are attached are the observers that have been added: rendering
    leaves every one of them attached again. *)
Theorem added_observers_attached domRoot calls observer :
  attached (run domRoot calls).2 observer = true
  ↔ call_addObserver observer ∈ calls.
Proof.
  destruct (run_invariant domRoot calls) as [-> _].
  by rewrite bool_decide_eq_true, run_observers.
Qed.

End TreeView.

(** *** A sample tree view

    A mutation observer is added to the tree view of a [div], which is then
    rendered. *)

Example sample_run :
  (run (id : string → string) "div"
     [call_addObserver "mutation"; call_render]).2
  = [ setTreeView "div"; markToSync_CHILDREN "div"; on_change "div";
      init "mutation"; attach "mutation";
      detach "mutation"; renderer_render; attach "mutation" ].
Proof. reflexivity. Qed.

Lemma render_with_observers_detached_sample :
  attached [ setTreeView "div"; markToSync_CHILDREN "div"; on_change "div";
             init "mutation"; attach "mutation"; detach "mutation" ]
           "mutation" = false.
Proof.
  apply (render_with_observers_detached (id : string → string) "div"
           [call_addObserver "mutation"; call_render]
           _ [attach "mutation"]).
  reflexivity.
Defined.

End TreeView.

(** ** The view document *)

Module ViewDocument.
Import JS Observers.

Section Document.

(** The constructors of the observers are the keys of a [Map], compared by
    identity; the observers, the DOM roots and the view roots are objects. *)
Context {Constructor : Type} `{!EqDecision Constructor}.
Context {ObserverInstance : Type} `{!EqDecision ObserverInstance}.
Context {HTMLElement ViewElement : Type}.

(** [new Observer( this )]: the instance that the constructor builds for
    this document. *)
Variable new_Observer : Constructor → ObserverInstance.

(** [domConverter.domToView( domRoot, { bind: true, withChildren: false } )] *)
Variable domToView : HTMLElement → ViewElement.

(** The calls that a document makes on its observers, on its view roots
    and on its renderer. *)
Inductive Effect :=
| construct (Observer : Constructor)
| observe (observer : ObserverInstance) (domElement : HTMLElement) (name : string)
| enable (observer : ObserverInstance)
| disable (observer : ObserverInstance)
| setDocument (viewRoot : ViewElement)
| on_change (viewRoot : ViewElement)
| markToSync_CHILDREN (viewRoot : ViewElement)
| renderer_render.

Record Document := mkDocument {
  domRoots : JSMap string HTMLElement;
  viewRoots : JSMap string ViewElement;
  _observers : JSMap Constructor ObserverInstance
}.

(** [constructor()]: the document has no roots and no observers; its
    selection, writer, converter and renderer are objects of their own, and
    the call of [injectQuirksHandling], a function of another module, is
    left out. *)
Definition new_Document : Document :=
  {| domRoots := []; viewRoots := []; _observers := [] |}.

(** [addObserver( Observer )]: the document after the call, the calls made
    and the observer that is returned. *)
Definition addObserver (document : Document) (Observer : Constructor)
  : Document * list Effect * ObserverInstance :=
  match Map_get (_observers document) Observer with
  | Some observer => (document, [], observer)
  | None =>
      let observer := new_Observer Observer in
      ({| domRoots := domRoots document;
          viewRoots := viewRoots document;
          _observers := Map_set (_observers document) Observer observer |},
       [construct Observer]
         ++ ((λ '(name, domElement), observe observer domElement name)
               <$> domRoots document)
         ++ [enable observer],
       observer)
  end.

(** [getObserver( Observer )] *)
Definition getObserver (document : Document) (Observer : Constructor)
  : option ObserverInstance :=
  Map_get (_observers document) Observer.

(** [createRoot( domRoot, name = 'main' )] *)
Definition createRoot (document : Document) (domRoot : HTMLElement)
    (name : option string) : Document * list Effect * ViewElement :=
  let name := default "main" name in
  let viewRoot := domToView domRoot in
  ({| domRoots := Map_set (domRoots document) name domRoot;
      viewRoots := Map_set (viewRoots document) name viewRoot;
      _observers := _observers document |},
   [setDocument viewRoot; on_change viewRoot; markToSync_CHILDREN viewRoot]
     ++ ((λ observer, observe observer domRoot name)
           <$> Map_values (_observers document)),
   viewRoot).

(** [getRoot( name = 'main' )] *)
Definition getRoot (document : Document) (name : option string)
  : option ViewElement :=
  Map_get (viewRoots document) (default "main" name).

(** [render()] *)
Definition render (document : Document) : Document * list Effect :=
  (document,
   (disable <$> Map_values (_observers document))
     ++ [renderer_render]
     ++ (enable <$> Map_values (_observers document))).

(** A call of a method that changes a document or makes calls. *)
Inductive Call :=
| call_addObserver (Observer : Constructor)
| call_createRoot (domRoot : HTMLElement) (name : option string)
| call_render.

Definition call (document : Document) (c : Call) : Document * list Effect :=
  match c with
  | call_addObserver Observer => (addObserver document Observer).1
  | call_createRoot domRoot name => (createRoot document domRoot name).1
  | call_render => render document
  end.

(** A document is created and its methods are called: the document and the
    calls it has made, in order. *)
Definition run (calls : list Call) : Document * list Effect :=
  foldl (λ '(document, effects) c,
           let '(document', effects') := call document c in
           (document', effects ++ effects'))
        (new_Document, []) calls.

(** *** Observers, roots and rendering *)

(** [enable()] switches an observer on, [disable()] switches it off, and
    the work is [renderer.render()]. *)
Definition kind (effect : Effect) : Kind ObserverInstance :=
  match effect with
  | enable observer => switch_on observer
  | disable observer => switch_off observer
  | renderer_render => work
  | _ => other
  end.

(** Whether [observer] is enabled after the calls [effects]: whether the
    last of its [enable()] and [disable()] calls is [enable()]. *)
Definition enabled (effects : list Effect) (observer : ObserverInstance)
  : bool :=
  on kind effects observer.


Lemma run_call_last calls c :
  run (calls ++ [c])
  = ((call (run calls).1 c).1, (run calls).2 ++ (call (run calls).1 c).2).
Proof.
  unfold run. rewrite foldl_app. simpl.
  destruct (foldl _ _ calls) as [document effects]. simpl.
  by destruct (call document c).
Qed.

Lemma call_addObserver_new document Observer :
  Map_get (_observers document) Observer = None →
  call document (call_addObserver Observer)
  = ({| domRoots := domRoots document;
        viewRoots := viewRoots document;
        _observers := _observers document
                        ++ [(Observer, new_Observer Observer)] |},
     construct Observer
       :: ((λ '(name, domElement),
              observe (new_Observer Observer) domElement name)
             <$> domRoots document)
       ++ [enable (new_Observer Observer)]).
Proof.
  intros Hnone. unfold call, addObserver. rewrite Hnone. simpl.
  rewrite Map_set_fresh; [done|].
  intros Hin%Map_get_is_Some. rewrite Hnone in Hin. by destruct Hin.
Qed.

Lemma call_addObserver_old document Observer observer :
  Map_get (_observers document) Observer = Some observer →
  call document (call_addObserver Observer) = (document, []).
Proof. intros Hsome. unfold call, addObserver. by rewrite Hsome. Qed.

Lemma observes_other (l : list (string * HTMLElement)) observer :
  Forall (λ effect, kind effect = other)
    ((λ '(name, domElement), observe observer domElement name) <$> l).
Proof.
  apply list.Forall_forall. by intros effect ([? ?] & -> & _)%list_elem_of_fmap.
Qed.

Lemma observes_other' (l : list ObserverInstance) domRoot name :
  Forall (λ effect, kind effect = other)
    ((λ observer, observe observer domRoot name) <$> l).
Proof.
  apply list.Forall_forall. by intros effect (? & -> & _)%list_elem_of_fmap.
Qed.

Lemma Forall_other_no_work (l : list Effect) :
  Forall (λ effect, kind effect = other) l →
  Forall (λ effect, kind effect ≠ work) l.
Proof. apply Forall_impl. by intros effect ->. Qed.

Lemma Forall_other_or (l : list Effect) :
  Forall (λ effect, kind effect = other) l →
  Forall (λ effect, kind effect = work ∨ kind effect = other) l.
Proof. apply Forall_impl. by right. Qed.

Lemma run_observers_NoDup calls : NoDup (_observers (run calls).1).*1.
Proof.
  induction calls as [|c calls IH] using rev_ind; [apply NoDup_nil_2|].
  rewrite run_call_last. simpl. destruct c as [Observer|domRoot name|]; simpl.
  - unfold addObserver.
    destruct (Map_get (_observers (run calls).1) Observer); simpl; [done|].
    by apply Map_set_NoDup.
  - done.
  - done.
Qed.

Lemma run_domRoots_NoDup calls : NoDup (domRoots (run calls).1).*1.
Proof.
  induction calls as [|c calls IH] using rev_ind; [apply NoDup_nil_2|].
  rewrite run_call_last. simpl. destruct c as [Observer|domRoot name|]; simpl.
  - unfold addObserver.
    by destruct (Map_get (_observers (run calls).1) Observer).
  - by apply Map_set_NoDup.
  - done.
Qed.

Lemma run_enabled calls :
  (∀ observer,
     enabled (run calls).2 observer
     = bool_decide (observer ∈ Map_values (_observers (run calls).1))) ∧
  quiet kind (run calls).2.
Proof.
  unfold enabled.
  induction calls as [|c calls [IHa IHq]] using rev_ind.
  - split; [done|apply quiet_nil].
  - rewrite run_call_last. set (r := run calls) in *.
    destruct c as [Observer|domRoot name|].
    + destruct (Map_get (_observers r.1) Observer) as [observer|] eqn:Hget.
      * rewrite (call_addObserver_old _ _ _ Hget). simpl.
        by rewrite app_nil_r.
      * rewrite (call_addObserver_new _ _ Hget). simpl. split.
        -- intros observer.
           rewrite (app_comm_cons _ _ (construct Observer)), app_assoc.
           rewrite on_app, on_app, IHa.
           rewrite (onFrom_other kind _ (construct Observer :: _)).
           2:{ apply Forall_other_or. constructor; [done|].
               apply observes_other. }
           unfold Map_values. rewrite fmap_app. simpl.
           unfold switch. simpl.
           destruct (decide (new_Observer Observer = observer)) as [->|Hne].
           ++ symmetry. apply bool_decide_eq_true, elem_of_app. right.
              by apply list_elem_of_singleton.
           ++ apply bool_decide_ext.
              rewrite elem_of_app, list_elem_of_singleton.
              split; [by left|]. intros [?| ->]; [done|by destruct Hne].
        -- apply quiet_app_no_work; [done|]. constructor; [done|].
           apply Forall_app. split; [|by repeat constructor].
           apply Forall_other_no_work, observes_other.
    + simpl. split.
      * intros observer. rewrite on_app, IHa. apply onFrom_other.
        apply Forall_other_or. do 3 (constructor; [done|]).
        apply observes_other'.
      * apply quiet_app_no_work; [done|]. apply Forall_other_no_work.
        do 3 (constructor; [done|]). apply observes_other'.
    + simpl.
      destruct (quiet_bracket kind disable enable renderer_render r.2
                  (Map_values (_observers r.1))) as [Hq Ha]; try done.
Qed.

Lemma run_observe calls Observer observer name domRoot :
  Map_get (_observers (run calls).1) Observer = Some observer →
  Map_get (domRoots (run calls).1) name = Some domRoot →
  observe observer domRoot name ∈ (run calls).2.
Proof.
  revert Observer observer name domRoot.
  induction calls as [|c calls IH] using rev_ind; [done|].
  intros Observer observer name domRoot. rewrite run_call_last.
  set (r := run calls) in *. destruct c as [Observer'|domRoot' name'|].
  - destruct (Map_get (_observers r.1) Observer') as [observer'|] eqn:Hget.
    + rewrite (call_addObserver_old _ _ _ Hget). simpl.
      rewrite app_nil_r. apply IH.
    + rewrite (call_addObserver_new _ _ Hget). simpl.
      rewrite <- (Map_set_fresh (_observers r.1)).
      2:{ intros Hin%Map_get_is_Some. rewrite Hget in Hin. by destruct Hin. }
      rewrite Map_get_set. case_decide as Heq.
      * intros [= <-] Hroot. apply elem_of_app. right. right.
        apply elem_of_app. left. apply list_elem_of_fmap.
        exists (name, domRoot). split; [done|]. by apply Map_get_Some.
      * intros Hobs Hroot. apply elem_of_app. left. by eapply IH.
  - simpl. rewrite Map_get_set. case_decide as Heq.
    + intros Hobs [= <-]. apply elem_of_app. right. do 3 right.
      apply list_elem_of_fmap. exists observer. subst name. split; [done|].
      apply list_elem_of_fmap. exists (Observer, observer). split; [done|].
      by apply Map_get_Some.
    + intros Hobs Hroot. apply elem_of_app. left. by eapply IH.
  - simpl. intros Hobs Hroot. apply elem_of_app. left. by eapply IH.
Qed.




(** X21 — in whichever order observers are added and roots are created,
    every observer of the document has been told to observe every DOM root
    of the document: [addObserver] attaches the new observer to the roots
    that exist, and [createRoot] attaches the observers that exist to the
    new root. *)
Theorem observers_observe_roots calls Observer observer name domRoot :
  getObserver (run calls).1 Observer = Some observer →
  Map_get (domRoots (run calls).1) name = Some domRoot →
  observe observer domRoot name ∈ (run calls).2.
Proof. apply run_observe. Qed.


(** X23 — whatever observers are added, whatever roots are created and
    whenever the document is rendered, no observer is enabled while the
    renderer works: at every call of [renderer.render()], the last call of
    [enable()] or [disable()] on each observer, if there is one, is
    [disable()]. *)
Theorem render_with_observers_disabled calls before after :
  (run calls).2 = before ++ renderer_render :: after →
  ∀ observer, enabled before observer = false.
Proof.
  intros Heq. by apply (proj2 (run_enabled calls) _ _ _ Heq).
Qed.

(** X24 — after any calls of [addObserver], [createRoot] and [render], the
    observers that are enabled are the observers of the document: rendering
    leaves every one of them enabled again. *)
Theorem observers_enabled calls observer :
  enabled (run calls).2 observer = true
  ↔ ∃ Observer, getObserver (run calls).1 Observer = Some observer.
Proof.
  destruct (run_enabled calls) as [-> _]. rewrite bool_decide_eq_true.
  unfold Map_values, getObserver. split.
  - intros ([Observer o] & -> & Hin)%list_elem_of_fmap. exists Observer.
    by apply Map_get_NoDup; [apply run_observers_NoDup|].
  - intros [Observer Hget%Map_get_Some]. apply list_elem_of_fmap.
    by exists (Observer, observer).
Qed.

End Document.

(** *** A sample document

    A root is created for the element [DIV], a mutation observer is added,
    a second root is created for the element [H1], the observer is added
    again and the document is rendered. *)

Definition sampleCalls : list (Call (Constructor := string) (HTMLElement := string)) :=
  [ call_createRoot "DIV" None;
    call_addObserver "MutationObserver";
    call_createRoot "H1" (Some "header");
    call_addObserver "MutationObserver";
    call_render ].

Definition sampleRun : Document * list Effect :=
  run (id : string → string) (id : string → string) sampleCalls.

Example sampleRun_effects :
  sampleRun.2
  = [ setDocument "DIV"; on_change "DIV"; markToSync_CHILDREN "DIV";
      construct "MutationObserver";
      observe "MutationObserver" "DIV" "main";
      enable "MutationObserver";
      setDocument "H1"; on_change "H1"; markToSync_CHILDREN "H1";
      observe "MutationObserver" "H1" "header";
      disable "MutationObserver"; renderer_render;
      enable "MutationObserver" ].
Proof. vm_compute. reflexivity. Qed.

Example sampleRun_getRoot :
  getRoot sampleRun.1 None = Some "DIV" ∧
  getRoot sampleRun.1 (Some "header") = Some "H1" ∧
  getRoot sampleRun.1 (Some "footer") = None.
Proof. vm_compute. done. Qed.

Lemma observers_observe_roots_sample :
  observe "MutationObserver" "H1" "header" ∈ sampleRun.2.
Proof.
  apply (observers_observe_roots (id : string → string) (id : string → string)
           sampleCalls "MutationObserver" "MutationObserver" "header" "H1").
  - reflexivity.
  - reflexivity.
Defined.

Lemma render_with_observers_disabled_sample :
  enabled [ setDocument "DIV"; on_change "DIV"; markToSync_CHILDREN "DIV";
            construct "MutationObserver";
            observe "MutationObserver" "DIV" "main";
            enable "MutationObserver";
            setDocument "H1"; on_change "H1"; markToSync_CHILDREN "H1";
            observe "MutationObserver" "H1" "header";
            disable "MutationObserver" ]
          "MutationObserver" = false.
Proof.
  apply (render_with_observers_disabled (id : string → string)
           (id : string → string) sampleCalls _ [enable "MutationObserver"]).
  reflexivity.
Defined.

End ViewDocument.
